(** * chatgpt-to-obsidian-markdown: a shallow embedding of [index.js]

    The conversion module [index.js] is embedded function by function,
    under the names it has in the source.  Its input is a value produced
    by [JSON.parse], so the embedding works on dynamically typed
    JavaScript values and follows the coercions the code relies on:
    truthiness, [ToString], property reads that throw on [undefined] and
    [null], methods that exist only on arrays or only on strings.

    Conventions of the embedding:
    - a string is the list of its UTF-16 code units ([list N]); the
      regular expressions of the source have no [u] flag, so they work on
      code units as well, and each of them is written out as a matcher;
    - numbers are the integers that a double holds exactly and prints
      in full, those of magnitude up to 2^53 ([Z]); the statements that
      depend on how a number prints say so ([Spec.exact]); numbers with a
      fraction are outside the model;
    - an object is the list of its own properties in enumeration order;
      a read with a fixed name ([get]) looks at them only, because none
      of the names the module reads is a member of a prototype (but
      [entries], which an array inherits as a method, and which the
      module only tests for being an array); a read with a computed key
      ([get_member]) also finds the members inherited from the
      prototypes;
    - an expression that may throw returns a [result]; the texts of the
      messages that the engine itself produces are indicative only, no
      statement below depends on them;
    - the recursion of [getOrderedNodeIds] takes fuel, and [None] stands
      for a call that does not return;
    - the file system is the trace of the calls that took effect on it
      ([fs_event]); a call whose arguments pass the checks of [fs] is
      taken to succeed, and a call that [fs] rejects for its arguments (a
      path with a null character, a time that is neither a number nor a
      numeric string) raises a [TypeError] and leaves no event.

    Layout: [Str] (strings), [JS] (values and coercions), [Json]
    ([JSON.stringify] and [JSON.parse]), [Index] ([index.js]), [Legacy]
    (the earlier copy of the module that [cli.js] carries), [Spec] (the
    notions used to state the properties), [Samples] (inputs), and then
    the properties. *)

From Stdlib Require Import ZArith NArith List String Ascii Bool Lia DecimalString
  DecimalFacts DecimalPos.
From stdpp Require Import gmap.
Import ListNotations.

Set Warnings "-register-all".
Local Open Scope N_scope.
Local Open Scope list_scope.

(** ** Strings *)

Module Str.

(** [J "abc"] is the JavaScript string literal ["abc"] (ASCII only). *)
Fixpoint J (s : string) : list N :=
  match s with
  | EmptyString => []
  | String a s' => N_of_ascii a :: J s'
  end.

Arguments J : simpl never.

Definition NL : N := 10.
Definition SP : N := 32.

Definition str_eqb (a b : list N) : bool := bool_decide (a = b).

(** The class [\s] of a regular expression, which is also the set of
    characters removed by [String.prototype.trim]. *)
Definition is_space (c : N) : bool :=
  existsb (N.eqb c) [9; 10; 11; 12; 13; 32; 160; 5760; 8232; 8233; 8239; 8287; 12288; 65279]
  || ((8192 <=? c) && (c <=? 8202)).

(** Line terminators: the characters [.] does not match. *)
Definition is_line_terminator (c : N) : bool :=
  existsb (N.eqb c) [10; 13; 8232; 8233].

(** [\w] *)
Definition is_word (c : N) : bool :=
  ((48 <=? c) && (c <=? 57)) || ((65 <=? c) && (c <=? 90))
  || ((97 <=? c) && (c <=? 122)) || (c =? 95).

(** Lower-casing of an ASCII letter, for the [i] flag on ASCII patterns. *)
Definition lower (c : N) : N :=
  if (65 <=? c) && (c <=? 90) then c + 32 else c.

Fixpoint drop_space (s : list N) : list N :=
  match s with
  | c :: s' => if is_space c then drop_space s' else s
  | [] => []
  end.

(** [s.trim()] *)
Definition trim (s : list N) : list N :=
  rev (drop_space (rev (drop_space s))).

(** [s.startsWith(p)] *)
Fixpoint starts_with (p s : list N) : bool :=
  match p, s with
  | [], _ => true
  | a :: p', b :: s' => (a =? b) && starts_with p' s'
  | _ :: _, [] => false
  end.

(** [s.split(sep)] for a one-character separator: never the empty list. *)
Fixpoint split_on (sep : N) (s : list N) : list (list N) :=
  match s with
  | [] => [[]]
  | c :: s' =>
      if c =? sep then [] :: split_on sep s'
      else match split_on sep s' with
           | l :: ls => (c :: l) :: ls
           | [] => [[c]]
           end
  end.

(** [parts.join(sep)] on strings. *)
Fixpoint join (sep : list N) (parts : list (list N)) : list N :=
  match parts with
  | [] => []
  | [p] => p
  | p :: ps => p ++ sep ++ join sep ps
  end.

(** [a.split(sep).pop()]: the text after the last separator. *)
Definition last_segment (sep : N) (s : list N) : list N :=
  List.last (split_on sep s) [].

(** [p s] holds at some position of [s]: an unanchored [regex.test]. *)
Fixpoint any_suffix (p : list N -> bool) (s : list N) : bool :=
  p s || match s with
         | [] => false
         | _ :: s' => any_suffix p s'
         end.

(** [s.replace(pat, rep)] with a string pattern: the first occurrence. *)
Fixpoint replace_first (pat rep s : list N) : list N :=
  if starts_with pat s then rep ++ skipn (length pat) s
  else match s with
       | [] => []
       | c :: s' => c :: replace_first pat rep s'
       end.

(** [s.replace(/re/g, f)]: [m] tries the expression at the head of the
    text and returns the length of the match minus one (every expression
    of the source consumes at least one character) and its replacement.
    The search resumes after the match; [skip] counts the characters of
    the current match that are still to be passed over. *)
Fixpoint gsub (m : list N -> option (nat * list N)) (skip : nat) (s : list N) : list N :=
  match s with
  | [] => []
  | c :: s' =>
      match skip with
      | S k => gsub m k s'
      | O =>
          match m s with
          | Some (n, r) => r ++ gsub m n s'
          | None => c :: gsub m 0 s'
          end
      end
  end.

(** The length of the longest prefix whose characters all satisfy [p]. *)
Fixpoint span_len (p : N -> bool) (s : list N) : nat :=
  match s with
  | c :: s' => if p c then S (span_len p s') else O
  | [] => O
  end.

(** Decimal digits of an integer, as [String(n)] prints it. *)
Definition of_Z (z : Z) : list N :=
  J (NilEmpty.string_of_int (Z.to_int z)).

End Str.
Import Str.

(** ** Values, exceptions and coercions *)

Module JS.

(** A value read from the parsed archive, or [undefined]. *)
Inductive value : Type :=
| VUndef
| VNull
| VBool (b : bool)
| VNum (z : Z)
| VStr (s : list N)
| VArr (items : list value)
| VObj (props : list (list N * value)).

Inductive error_kind : Type := TypeError | RangeError | SyntaxError.

Record js_error : Type := mkError { err_kind : error_kind; err_message : list N }.

(** The outcome of an expression that may throw. *)
Inductive result (A : Type) : Type :=
| Ok (a : A)
| Throw (e : js_error).
Arguments Ok {A} a.
Arguments Throw {A} e.

Definition bind {A B : Type} (m : result A) (k : A -> result B) : result B :=
  match m with
  | Ok a => k a
  | Throw e => Throw e
  end.

Notation "'let*' x ':=' m 'in' k" := (bind m (fun x => k))
  (at level 10, x name, m at level 100, k at level 200).

Definition type_error {A : Type} (msg : string) : result A :=
  Throw (mkError TypeError (J msg)).

(** [arr.map(f)] for a callback that may throw. *)
Fixpoint mapM {A B : Type} (f : A -> result B) (l : list A) : result (list B) :=
  match l with
  | [] => Ok []
  | a :: l' => let* b := f a in let* bs := mapM f l' in Ok (b :: bs)
  end.

(** [arr.filter(f)] for a callback that may throw. *)
Fixpoint filterM {A : Type} (f : A -> result bool) (l : list A) : result (list A) :=
  match l with
  | [] => Ok []
  | a :: l' =>
      let* keep := f a in
      let* rest := filterM f l' in
      Ok (if keep then a :: rest else rest)
  end.

(** Truthiness ([ToBoolean]). *)
Definition truthy (v : value) : bool :=
  match v with
  | VUndef | VNull => false
  | VBool b => b
  | VNum z => negb (z =? 0)%Z
  | VStr s => match s with [] => false | _ => true end
  | VArr _ | VObj _ => true
  end.

Definition nullish (v : value) : bool :=
  match v with
  | VUndef | VNull => true
  | _ => false
  end.

Definition is_undefined (v : value) : bool :=
  match v with
  | VUndef => true
  | _ => false
  end.

(** [a || b] *)
Definition or_else (a b : value) : value := if truthy a then a else b.

(** [ToString], as applied by template literals, [+] with a string,
    [String(v)] and property keys. *)
Fixpoint to_string (v : value) : list N :=
  match v with
  | VUndef => J "undefined"
  | VNull => J "null"
  | VBool b => if b then J "true" else J "false"
  | VNum z => of_Z z
  | VStr s => s
  | VArr items =>
      join (J ",")
        (map (fun x => match x with
                       | VUndef | VNull => []
                       | _ => to_string x
                       end) items)
  | VObj _ => J "[object Object]"
  end.

(** One element of [arr.join(sep)]: [null] and [undefined] print as the
    empty string. *)
Definition element_string (v : value) : list N :=
  if nullish v then [] else to_string v.

(** [items.join(sep)] *)
Definition array_join (sep : list N) (items : list value) : list N :=
  join sep (map element_string items).

(** [x === "s"] *)
Definition is_str (v : value) (s : list N) : bool :=
  match v with
  | VStr t => str_eqb t s
  | _ => false
  end.

(** [x == "s"] for a non-numeric literal [s]: an array is converted to a
    string first, a number or a boolean never equals such a string. *)
Definition loose_is_str (v : value) (s : list N) : bool :=
  match v with
  | VStr t => str_eqb t s
  | VArr _ | VObj _ => str_eqb (to_string v) s
  | _ => false
  end.

Fixpoint assoc (k : list N) (props : list (list N * value)) : value :=
  match props with
  | [] => VUndef
  | (k', v) :: ps => if str_eqb k k' then v else assoc k ps
  end.

Definition is_digit (c : N) : bool := (48 <=? c) && (c <=? 57).

(** The array index a property key denotes, if it is a canonical one. *)
Definition index_of_key (k : list N) : option nat :=
  match k with
  | [] => None
  | c :: k' =>
      if forallb is_digit k && negb ((c =? 48) && negb (bool_decide (k' = [])))
      then Some (N.to_nat (fold_left (fun a d => 10 * a + (d - 48)) k 0))
      else None
  end.

(** The own property [k] of a [v] that is neither [undefined] nor
    [null], [undefined] when it has none. *)
Definition get_own (v : value) (k : list N) : value :=
  match v with
  | VObj props => assoc k props
  | VArr items =>
      if str_eqb k (J "length") then VNum (Z.of_nat (length items))
      else match index_of_key k with
           | Some i => nth i items VUndef
           | None => VUndef
           end
  | VStr s =>
      if str_eqb k (J "length") then VNum (Z.of_nat (length s))
      else match index_of_key k with
           | Some i => match nth_error s i with
                       | Some c => VStr [c]
                       | None => VUndef
                       end
           | None => VUndef
           end
  | _ => VUndef
  end.

(** [v.k] for a name that no prototype has: a [TypeError] on [undefined]
    and [null]. *)
Definition get (v : value) (k : list N) : result value :=
  if nullish v
  then Throw (mkError TypeError
                (J "Cannot read properties of " ++ to_string v ++ J " (reading '" ++ k ++ J "')"))
  else Ok (get_own v k).

(** [v?.k] *)
Definition opt_get (v : value) (k : list N) : value :=
  if nullish v then VUndef else get_own v k.

(** *** Inherited members

    A read with a computed key, [v[k]], finds the own properties of [v]
    and, under the other names, the members of its prototype chain:
    built-in methods, and the prototype itself under [__proto__].  The
    names are those of a current engine (ECMAScript 2023 and the two
    well-formedness methods of strings); those of [Object.prototype]
    have been the same since the legacy accessors were added to it. *)

Definition object_prototype : list (list N) :=
  map J ["constructor"; "__defineGetter__"; "__defineSetter__"; "hasOwnProperty";
         "__lookupGetter__"; "__lookupSetter__"; "isPrototypeOf";
         "propertyIsEnumerable"; "toString"; "valueOf"; "__proto__";
         "toLocaleString"]%string.

Definition array_prototype : list (list N) :=
  map J ["at"; "concat"; "copyWithin"; "entries"; "every"; "fill"; "filter"; "find";
         "findIndex"; "findLast"; "findLastIndex"; "flat"; "flatMap"; "forEach";
         "includes"; "indexOf"; "join"; "keys"; "lastIndexOf"; "map"; "pop"; "push";
         "reduce"; "reduceRight"; "reverse"; "shift"; "slice"; "some"; "sort";
         "splice"; "toReversed"; "toSorted"; "toSpliced"; "unshift"; "values";
         "with"]%string.

Definition string_prototype : list (list N) :=
  map J ["anchor"; "at"; "big"; "blink"; "bold"; "charAt"; "charCodeAt";
         "codePointAt"; "concat"; "endsWith"; "fixed"; "fontcolor"; "fontsize";
         "includes"; "indexOf"; "isWellFormed"; "italics"; "lastIndexOf"; "link";
         "localeCompare"; "match"; "matchAll"; "normalize"; "padEnd"; "padStart";
         "repeat"; "replace"; "replaceAll"; "search"; "slice"; "small"; "split";
         "startsWith"; "strike"; "sub"; "substr"; "substring"; "sup";
         "toLocaleLowerCase"; "toLocaleUpperCase"; "toLowerCase"; "toUpperCase";
         "toWellFormed"; "trim"; "trimEnd"; "trimLeft"; "trimRight";
         "trimStart"]%string.

Definition number_prototype : list (list N) :=
  map J ["toExponential"; "toFixed"; "toPrecision"]%string.

(** The names found on the prototype chain of a value. *)
Definition prototype_chain (v : value) : list (list N) :=
  match v with
  | VUndef | VNull => []
  | VBool _ => object_prototype
  | VNum _ => number_prototype ++ object_prototype
  | VStr _ => string_prototype ++ object_prototype
  | VArr _ => array_prototype ++ object_prototype
  | VObj _ => object_prototype
  end.

(** [Object.hasOwn(v, k)] *)
Definition has_own (v : value) (k : list N) : bool :=
  match v with
  | VObj props => existsb (fun kv => str_eqb k (fst kv)) props
  | VArr items =>
      str_eqb k (J "length")
      || match index_of_key k with
         | Some i => Nat.ltb i (length items)
         | None => false
         end
  | VStr s =>
      str_eqb k (J "length")
      || match index_of_key k with
         | Some i => Nat.ltb i (length s)
         | None => false
         end
  | _ => false
  end.

(** What a read with a computed key finds: an own property (or
    [undefined], when there is nothing under the key), or a member of a
    prototype.  An inherited member is a built-in function or a prototype
    object: it is truthy, and it has none of the properties that the
    module reads. *)
Inductive member : Type :=
| Own (v : value)
| Inherited (name : list N).

Definition lookup (v : value) (k : list N) : member :=
  if negb (has_own v k) && existsb (str_eqb k) (prototype_chain v)
  then Inherited k
  else Own (get_own v k).

(** [v[k]]: a [TypeError] on [undefined] and [null]. *)
Definition get_member (v : value) (k : list N) : result member :=
  if nullish v
  then Throw (mkError TypeError
                (J "Cannot read properties of " ++ to_string v ++ J " (reading '" ++ k ++ J "')"))
  else Ok (lookup v k).

(** [String(m)] for an inherited member of [Object.prototype]. *)
Definition native_text (name : list N) : list N :=
  if str_eqb name (J "__proto__") then J "[object Object]"
  else
    J "function "
      ++ (if str_eqb name (J "constructor") then J "Object" else name)
      ++ J "() { [native code] }".

(** The receiver of an array method ([join], [map], [forEach]): anything
    but an array has no such method, and calling it is a [TypeError]. *)
Definition as_array (what : string) (v : value) : result (list value) :=
  match v with
  | VArr items => Ok items
  | VUndef | VNull =>
      Throw (mkError TypeError
               (J "Cannot read properties of " ++ to_string v ++ J " (reading '"
                  ++ last_segment 46 (J what) ++ J "')"))
  | _ => type_error (what ++ " is not a function")
  end.

(** The receiver of a string method ([replace], [trim], [split]). *)
Definition as_string (what : string) (v : value) : result (list N) :=
  match v with
  | VStr s => Ok s
  | VUndef | VNull =>
      Throw (mkError TypeError
               (J "Cannot read properties of " ++ to_string v ++ J " (reading '"
                  ++ last_segment 46 (J what) ++ J "')"))
  | _ => type_error (what ++ " is not a function")
  end.

(** The keys [0 .. n-1] of an array or a string, as property names. *)
Definition index_keys (n : nat) : list (list N) :=
  map (fun i => of_Z (Z.of_nat i)) (seq 0 n).

(** [Object.keys(v)] *)
Definition object_keys (v : value) : result (list (list N)) :=
  match v with
  | VObj props => Ok (map fst props)
  | VArr items => Ok (index_keys (length items))
  | VStr s => Ok (index_keys (length s))
  | VUndef | VNull => type_error "Cannot convert undefined or null to object"
  | _ => Ok []
  end.

(** [Object.values(v)] *)
Definition object_values (v : value) : result (list value) :=
  match v with
  | VObj props => Ok (map snd props)
  | VArr items => Ok items
  | VStr s => Ok (map (fun c => VStr [c]) s)
  | VUndef | VNull => type_error "Cannot convert undefined or null to object"
  | _ => Ok []
  end.

End JS.
Import JS.

(** ** [JSON.stringify] *)

Module Json.

Definition DQ : N := 34.
Definition BSL : N := 92.

Definition hex_digit (n : N) : N := if n <? 10 then 48 + n else 87 + n.

(** [\uXXXX] with lower-case digits. *)
Definition unicode_escape (c : N) : list N :=
  [BSL; 117; hex_digit (c / 4096 mod 16); hex_digit (c / 256 mod 16);
   hex_digit (c / 16 mod 16); hex_digit (c mod 16)].

Definition is_high_surrogate (c : N) : bool := (55296 <=? c) && (c <=? 56319).
Definition is_low_surrogate (c : N) : bool := (56320 <=? c) && (c <=? 57343).

(** The body of a quoted string: the two-character escapes, [\u00XX] for
    the other control characters and for a surrogate without its pair. *)
Fixpoint quote_chars (s : list N) : list N :=
  match s with
  | [] => []
  | c :: s' =>
      if c =? DQ then BSL :: DQ :: quote_chars s'
      else if c =? BSL then BSL :: BSL :: quote_chars s'
      else if c =? 8 then BSL :: 98 :: quote_chars s'
      else if c =? 12 then BSL :: 102 :: quote_chars s'
      else if c =? 10 then BSL :: 110 :: quote_chars s'
      else if c =? 13 then BSL :: 114 :: quote_chars s'
      else if c =? 9 then BSL :: 116 :: quote_chars s'
      else if c <? 32 then unicode_escape c ++ quote_chars s'
      else if is_high_surrogate c then
        match s' with
        | d :: s'' =>
            if is_low_surrogate d then c :: d :: quote_chars s''
            else unicode_escape c ++ quote_chars s'
        | [] => unicode_escape c
        end
      else if is_low_surrogate c then unicode_escape c ++ quote_chars s'
      else c :: quote_chars s'
  end.

Definition quote (s : list N) : list N := DQ :: quote_chars s ++ [DQ].

(** A value below the top level: [undefined] prints as [null] inside an
    array and its property is left out of an object. *)
Fixpoint stringify (v : value) : list N :=
  match v with
  | VUndef | VNull => J "null"
  | VBool b => if b then J "true" else J "false"
  | VNum z => of_Z z
  | VStr s => quote s
  | VArr items => J "[" ++ join (J ",") (map stringify items) ++ J "]"
  | VObj props =>
      J "{" ++
      join (J ",")
        (flat_map (fun kv : list N * value =>
                     let (k, x) := kv in
                     if is_undefined x then []
                     else [quote k ++ J ":" ++ stringify x]) props) ++
      J "}"
  end.

(** [`${JSON.stringify(v)}`]: at the top level [undefined] is returned
    for [undefined], and the template prints it. *)
Definition stringify_top (v : value) : list N :=
  match v with
  | VUndef => J "undefined"
  | _ => stringify v
  end.

(** *** [JSON.parse]

    A recursive-descent reader of the JSON grammar.  [None] stands for
    the [SyntaxError].  The model has integers only: of a literal with a
    fraction or an exponent the reader keeps the integer part.  When a
    key is repeated the last value wins and the key keeps its place. *)

Definition is_json_space (c : N) : bool :=
  existsb (N.eqb c) [32; 9; 10; 13].

Fixpoint skip_ws (s : list N) : list N :=
  match s with
  | c :: s' => if is_json_space c then skip_ws s' else s
  | [] => []
  end.

Definition hex_value (c : N) : option N :=
  if (48 <=? c) && (c <=? 57) then Some (c - 48)
  else if (97 <=? c) && (c <=? 102) then Some (c - 87)
  else if (65 <=? c) && (c <=? 70) then Some (c - 55)
  else None.

Definition simple_escape (c : N) : option N :=
  if c =? DQ then Some DQ
  else if c =? BSL then Some BSL
  else if c =? 47 then Some 47
  else if c =? 98 then Some 8
  else if c =? 102 then Some 12
  else if c =? 110 then Some 10
  else if c =? 114 then Some 13
  else if c =? 116 then Some 9
  else None.

Definition cons_fst (c : N) (r : option (list N * list N)) : option (list N * list N) :=
  match r with
  | Some (str, rest) => Some (c :: str, rest)
  | None => None
  end.

(** The characters of a string after its opening quote, and the text
    after its closing quote. *)
Fixpoint parse_string (s : list N) : option (list N * list N) :=
  match s with
  | [] => None
  | c :: s' =>
      if c =? DQ then Some ([], s')
      else if c <? 32 then None
      else if c =? BSL then
        match s' with
        | e :: s'' =>
            if e =? 117 then
              match s'' with
              | h1 :: h2 :: h3 :: h4 :: s3 =>
                  match hex_value h1, hex_value h2, hex_value h3, hex_value h4 with
                  | Some a, Some b, Some c', Some d =>
                      cons_fst (4096 * a + 256 * b + 16 * c' + d) (parse_string s3)
                  | _, _, _, _ => None
                  end
              | _ => None
              end
            else
              match simple_escape e with
              | Some ch => cons_fst ch (parse_string s'')
              | None => None
              end
        | [] => None
        end
      else cons_fst c (parse_string s')
  end.

Definition digits_value (ds : list N) : Z :=
  fold_left (fun a d => (10 * a + Z.of_N (d - 48))%Z) ds 0%Z.

(** The digits of the integer part: a leading zero stands alone. *)
Definition int_digits (s : list N) : option (list N * list N) :=
  match s with
  | c :: s' =>
      if c =? 48 then Some ([c], s')
      else if is_digit c then
        let n := span_len is_digit s in Some (firstn n s, skipn n s)
      else None
  | [] => None
  end.

(** An optional part introduced by a mark and made of at least one digit. *)
Definition some_digits (s : list N) : option (list N * list N) :=
  let n := span_len is_digit s in
  if Nat.eqb n 0 then None else Some (firstn n s, skipn n s).

Definition parse_fraction (s : list N) : option (list N * list N) :=
  match s with
  | c :: s' => if c =? 46 then some_digits s' else Some ([], s)
  | [] => Some ([], s)
  end.

Definition parse_exponent (s : list N) : option (Z * list N) :=
  match s with
  | c :: s' =>
      if (c =? 101) || (c =? 69) then
        let '(neg, s'') :=
          match s' with
          | sg :: t => if sg =? 45 then (true, t) else if sg =? 43 then (false, t) else (false, s')
          | [] => (false, s')
          end in
        match some_digits s'' with
        | Some (ds, rest) => Some ((if neg then - digits_value ds else digits_value ds)%Z, rest)
        | None => None
        end
      else Some (0%Z, s)
  | [] => Some (0%Z, s)
  end.

Definition parse_number (s : list N) : option (Z * list N) :=
  let '(neg, s1) :=
    match s with
    | c :: t => if c =? 45 then (true, t) else (false, s)
    | [] => (false, s)
    end in
  match int_digits s1 with
  | Some (ids, s2) =>
      match parse_fraction s2 with
      | Some (fds, s3) =>
          match parse_exponent s3 with
          | Some (e, s4) =>
              let m := digits_value (ids ++ fds) in
              let e' := (e - Z.of_nat (length fds))%Z in
              let v := if (0 <=? e')%Z then (m * 10 ^ e')%Z else Z.quot m (10 ^ (- e'))%Z in
              Some ((if neg then - v else v)%Z, s4)
          | None => None
          end
      | None => None
      end
  | None => None
  end.

(** [obj[k] = v] on the property list being built. *)
Fixpoint set_prop (k : list N) (v : value) (props : list (list N * value))
  : list (list N * value) :=
  match props with
  | [] => [(k, v)]
  | (k', v') :: ps => if str_eqb k k' then (k, v) :: ps else (k', v') :: set_prop k v ps
  end.

(** Every call consumes a character before it calls again with less
    fuel, so the length of the text plus one is enough fuel. *)
Fixpoint parse_value (fuel : nat) (s : list N) {struct fuel} : option (value * list N) :=
  match fuel with
  | O => None
  | S fuel' =>
      match skip_ws s with
      | [] => None
      | c :: s' =>
          if c =? 123 then
            match skip_ws s' with
            | d :: s'' =>
                if d =? 125 then Some (VObj [], s'')
                else
                  match parse_member fuel' (d :: s'') with
                  | Some (k, v, rest) => parse_members fuel' rest [(k, v)]
                  | None => None
                  end
            | [] => None
            end
          else if c =? 91 then
            match skip_ws s' with
            | d :: s'' =>
                if d =? 93 then Some (VArr [], s'')
                else
                  match parse_value fuel' (d :: s'') with
                  | Some (v, rest) => parse_elements fuel' rest [v]
                  | None => None
                  end
            | [] => None
            end
          else if c =? DQ then
            match parse_string s' with
            | Some (str, rest) => Some (VStr str, rest)
            | None => None
            end
          else if starts_with (J "true") (c :: s') then Some (VBool true, skipn 4 (c :: s'))
          else if starts_with (J "false") (c :: s') then Some (VBool false, skipn 5 (c :: s'))
          else if starts_with (J "null") (c :: s') then Some (VNull, skipn 4 (c :: s'))
          else
            match parse_number (c :: s') with
            | Some (z, rest) => Some (VNum z, rest)
            | None => None
            end
      end
  end
with parse_member (fuel : nat) (s : list N) {struct fuel}
  : option (list N * value * list N) :=
  match fuel with
  | O => None
  | S fuel' =>
      match skip_ws s with
      | c :: s' =>
          if c =? DQ then
            match parse_string s' with
            | Some (k, rest) =>
                match skip_ws rest with
                | d :: rest' =>
                    if d =? 58 then
                      match parse_value fuel' rest' with
                      | Some (v, rest'') => Some (k, v, rest'')
                      | None => None
                      end
                    else None
                | [] => None
                end
            | None => None
            end
          else None
      | [] => None
      end
  end
with parse_members (fuel : nat) (s : list N) (acc : list (list N * value)) {struct fuel}
  : option (value * list N) :=
  match fuel with
  | O => None
  | S fuel' =>
      match skip_ws s with
      | c :: s' =>
          if c =? 125 then Some (VObj acc, s')
          else if c =? 44 then
            match parse_member fuel' s' with
            | Some (k, v, rest) => parse_members fuel' rest (set_prop k v acc)
            | None => None
            end
          else None
      | [] => None
      end
  end
with parse_elements (fuel : nat) (s : list N) (acc : list value) {struct fuel}
  : option (value * list N) :=
  match fuel with
  | O => None
  | S fuel' =>
      match skip_ws s with
      | c :: s' =>
          if c =? 93 then Some (VArr acc, s')
          else if c =? 44 then
            match parse_value fuel' s' with
            | Some (v, rest) => parse_elements fuel' rest (acc ++ [v])
            | None => None
            end
          else None
      | [] => None
      end
  end.

Definition parse (text : list N) : option value :=
  match parse_value (S (length text)) text with
  | Some (v, rest) => match skip_ws rest with
                      | [] => Some v
                      | _ => None
                      end
  | None => None
  end.

End Json.

(** ** [index.js] *)

Module Index.

(** The character class of the first replacement: the characters
    reserved in Windows file names, and the newline. *)
Definition is_reserved (c : N) : bool :=
  existsb (N.eqb c) [60; 62; 58; 34; 47; 92; 124; 63; 42; 10].

(** [/\s+/] at the head of the text. *)
Definition match_spaces (s : list N) : option (nat * list N) :=
  match s with
  | c :: s' => if is_space c then Some (span_len is_space s', [SP]) else None
  | [] => None
  end.

Definition sanitizeFileName (title : list N) : list N :=
  trim (gsub match_spaces 0 (map (fun c => if is_reserved c then SP else c) title)).

(** [/<[^>]+>/] at the head of the text. *)
Definition match_tag (s : list N) : option (nat * list N) :=
  match s with
  | c :: s' =>
      let n := span_len (fun x => negb (x =? 62)) s' in
      if (c =? 60) && negb (Nat.eqb n 0) && negb (Nat.eqb n (length s'))
      then Some (S n, J "`" ++ firstn (S (S n)) s ++ J "`")
      else None
  | [] => None
  end.

Definition wrapHtmlTagsInBackticks (text : list N) : list N :=
  gsub match_tag 0 text.

(** The length of [https?:\/\/] at the head of the text, if it is there. *)
Definition scheme_len (s : list N) : option nat :=
  if starts_with (J "https://") s then Some 8%nat
  else if starts_with (J "http://") s then Some 7%nat
  else None.

(** [/https?:\/\/\S+/] at the head of the text. *)
Definition match_url (s : list N) : option (nat * list N) :=
  match scheme_len s with
  | Some k =>
      let n := span_len (fun x => negb (is_space x)) (skipn k s) in
      if Nat.eqb n 0 then None
      else
        let url := firstn (k + n) s in
        Some ((k + n - 1)%nat, J "[" ++ url ++ J "](" ++ url ++ J ")")
  | None => None
  end.

Definition wrapLinksInMarkdown (text : list N) : list N :=
  gsub match_url 0 text.

Definition indent (str : list N) : list N :=
  concat (map (fun v => match trim v with
                        | [] => []
                        | _ => J "    " ++ v ++ [NL]
                        end) (split_on NL str)).

Definition blockquote (str : list N) : list N :=
  join [NL] (map (fun v => match v with
                           | [] => J ">"
                           | _ => J "> " ++ v
                           end) (split_on NL str)).

Definition md_link (label target : list N) : list N :=
  J "[" ++ label ++ J "](" ++ target ++ J ")".

(** A parameter declared [metadata = {}]. *)
Definition or_empty_object (v : value) : value :=
  if is_undefined v then VObj [] else v.

Definition safeTitle (url title : value) : result (list N) :=
  let* t := as_string "(title || '').trim" (or_else title (VStr [])) in
  match trim t with
  | [] => let* u := as_string "url.split" url in Ok (last_segment 47 u)
  | t' => Ok t'
  end.

(** The links contributed by one entry of a search-result group. *)
Definition search_entry_links (entry : value) : result (list (list N)) :=
  let* url := get entry (J "url") in
  if truthy url then
    let* title := get entry (J "title") in
    let* t := safeTitle url title in
    Ok [md_link t (to_string url)]
  else Ok [].

Definition search_group_links (group : value) : result (list (list N)) :=
  let* entries := get group (J "entries") in
  match entries with
  | VArr es => let* ls := mapM search_entry_links es in Ok (concat ls)
  | _ => Ok []
  end.

Definition extractSearchResults (metadata : value) : result (list N) :=
  let metadata := or_empty_object metadata in
  let* groups := get metadata (J "search_result_groups") in
  match groups with
  | VArr gs =>
      let* ls := mapM search_group_links gs in
      match concat ls with
      | [] => Ok []
      | links => Ok (join [NL] links ++ [NL; NL])
      end
  | _ => Ok []
  end.

(** [citation.ref_id || citation.source_id || citation.id] *)
Definition citation_key (citation : value) : result value :=
  let* a := get citation (J "ref_id") in
  if truthy a then Ok a
  else
    let* b := get citation (J "source_id") in
    if truthy b then Ok b else get citation (J "id").

(** [map[key] = link] on the object [map], which starts as [{}] and
    gets strings only: the assignment creates or replaces an own
    property, but under [__proto__], where the setter inherited from
    [Object.prototype] ignores a string and nothing is stored. *)
Definition assign (map : gmap (list N) (list N)) (key link : list N)
  : gmap (list N) (list N) :=
  if str_eqb key (J "__proto__") then map else <[key := link]> map.

(** One turn of the loop of [buildCitationMap]. *)
Definition add_citation (map : gmap (list N) (list N)) (citation : value)
  : result (gmap (list N) (list N)) :=
  let* key := citation_key citation in
  let* url := get citation (J "url") in
  if truthy key && truthy url then
    let* title := get citation (J "title") in
    let* t := safeTitle url title in
    Ok (assign map (to_string key) (md_link t (to_string url)))
  else Ok map.

Fixpoint add_citations (map : gmap (list N) (list N)) (citations : list value)
  : result (gmap (list N) (list N)) :=
  match citations with
  | [] => Ok map
  | c :: cs => let* map' := add_citation map c in add_citations map' cs
  end.

Definition buildCitationMap (metadata : value) : result (gmap (list N) (list N)) :=
  let metadata := or_empty_object metadata in
  let* citations := get metadata (J "citations") in
  match citations with
  | VArr cs => add_citations ∅ cs
  | _ => Ok ∅
  end.

(** The private-use characters that delimit a citation placeholder. *)
Definition is_sentinel (c : N) : bool := (57344 <=? c) && (c <=? 63743).

(** A character the lazy [.*?] passes over before the closing sentinel. *)
Definition is_id_char (c : N) : bool :=
  negb (is_sentinel c) && negb (is_line_terminator c).

(** [citationMap[id] || ""], as the text that replaces a token: the link
    stored under the identifier; when there is none, the member that the
    map inherits under this name, printed as a string, or the empty
    string. *)
Definition citation_entry (citationMap : gmap (list N) (list N)) (id : list N) : list N :=
  match citationMap !! id with
  | Some link => link
  | None => if existsb (str_eqb id) object_prototype then native_text id else []
  end.

(** The placeholder expression at the head of the text: a sentinel, the
    word cite, a sentinel, the shortest run of characters up to the next
    sentinel on the same line, and that sentinel. *)
Definition match_cite (citationMap : gmap (list N) (list N)) (s : list N)
  : option (nat * list N) :=
  match s with
  | c0 :: rest =>
      if is_sentinel c0 && starts_with (J "cite") rest then
        match skipn 4 rest with
        | c1 :: rest' =>
            if is_sentinel c1 then
              let n := span_len is_id_char rest' in
              match skipn n rest' with
              | c2 :: _ =>
                  if is_sentinel c2
                  then Some ((6 + n)%nat, citation_entry citationMap (firstn n rest'))
                  else None
              | [] => None
              end
            else None
        | [] => None
        end
      else None
  | [] => None
  end.

Definition replaceCitationPlaceholders (text : list N) (citationMap : gmap (list N) (list N))
  : list N :=
  match text with
  | [] => text
  | _ => gsub (match_cite citationMap) 0 text
  end.

Definition citation_block (citation : value) : result (list N) :=
  let* name := get citation (J "name") in
  let* url := get citation (J "url") in
  let* detail := get citation (J "detail") in
  Ok (J "> [" ++ to_string name ++ J "](" ++ to_string url ++ J ")" ++ [NL; NL] ++
      J "> " ++ to_string detail ++ [NL]).

Definition extractCitations (metadata : value) : result (list N) :=
  let metadata := or_empty_object metadata in
  let* citations := get metadata (J "citations") in
  match citations with
  | VArr cs => let* blocks := mapM citation_block cs in Ok ([NL] ++ join [NL] blocks)
  | _ => Ok []
  end.

(** One part of a [multimodal_text] content. *)
Definition multimodal_part (part : value) : result (list N) :=
  match part with
  | VStr s => Ok (s ++ [NL; NL])
  | _ =>
      let* ct := get part (J "content_type") in
      if is_str ct (J "image_asset_pointer") then
        let* w := get part (J "width") in
        let* h := get part (J "height") in
        let prompt := opt_get (opt_get (opt_get part (J "metadata")) (J "dalle")) (J "prompt") in
        Ok (J "Image (" ++ to_string w ++ J "x" ++ to_string h ++ J "): " ++
            to_string (if nullish prompt then VStr [] else prompt) ++ [NL; NL])
      else Ok (to_string ct ++ [NL; NL])
  end.

(** One element of a [thoughts] content. *)
Definition thought_block (t : value) : result (list N) :=
  let* summary := get t (J "summary") in
  let* content := get t (J "content") in
  Ok (J "##### " ++ to_string summary ++ [NL; NL] ++ to_string content ++ [NL]).

Definition FENCE : list N := J "```".

(** The [switch] of [nodeToMarkdown]: the body of a truthy [content],
    before citations and links are processed. *)
Definition contentBody (content : value) : result (list N) :=
  let* ct := get content (J "content_type") in
  if is_str ct (J "text") then
    let* parts := get content (J "parts") in
    let* items := as_array "content.parts.join" parts in
    Ok (array_join [NL] items)
  else if is_str ct (J "code") then
    let* language := get content (J "language") in
    let* lang := as_string "content.language.replace" language in
    let* text := get content (J "text") in
    Ok (FENCE ++ replace_first (J "unknown") [] lang ++ [NL] ++ to_string text ++ [NL] ++ FENCE)
  else if is_str ct (J "execution_output") then
    let* text := get content (J "text") in
    Ok (FENCE ++ [NL] ++ to_string text ++ [NL] ++ FENCE)
  else if is_str ct (J "multimodal_text") then
    let* parts := get content (J "parts") in
    let* items := as_array "content.parts.map" parts in
    let* rendered := mapM multimodal_part items in
    Ok (concat rendered)
  else if is_str ct (J "tether_browsing_display") then
    let* summary := get content (J "summary") in
    let* res := get content (J "result") in
    Ok (FENCE ++ [NL] ++ (if truthy summary then to_string summary ++ [NL] else []) ++
        to_string res ++ [NL] ++ FENCE)
  else if is_str ct (J "tether_quote") then
    let* title := get content (J "title") in
    let* url := get content (J "url") in
    let* text := get content (J "text") in
    Ok (blockquote (md_link (to_string (or_else title url)) (to_string url) ++ [NL; NL] ++
                    to_string text))
  else if is_str ct (J "system_error") then
    let* name := get content (J "name") in
    let* text := get content (J "text") in
    Ok (to_string name ++ [NL; NL] ++ to_string text ++ [NL; NL])
  else if is_str ct (J "user_editable_context") then Ok []
  else if is_str ct (J "thoughts") then
    let* thoughts := get content (J "thoughts") in
    let* items := as_array "content.thoughts.map" thoughts in
    let* blocks := mapM thought_block items in
    Ok (join [NL] blocks)
  else if is_str ct (J "reasoning_recap") then
    let* c := get content (J "content") in
    let* str := as_string "str.split" c in
    Ok (blockquote str)
  else if is_str ct (J "sonic_webpage") then
    let* title := get content (J "title") in
    let* url := get content (J "url") in
    let* text := get content (J "text") in
    Ok (FENCE ++ [NL] ++ to_string title ++ J " (" ++ to_string url ++ J ")" ++ [NL; NL] ++
        to_string text ++ [NL] ++ FENCE)
  else Ok (to_string content).

(** A quoted key, optional white space and a colon, at the head of the
    text: the signature of an internal tool command. *)
Definition match_key (key : string) (s : list N) : bool :=
  let pat := Json.DQ :: J key ++ [Json.DQ] in
  starts_with pat s &&
  match drop_space (skipn (length pat) s) with
  | c :: _ => c =? 58
  | [] => false
  end.

Definition has_key (key : string) (body : list N) : bool :=
  any_suffix (match_key key) body.

Definition has_quoted (word : string) (body : list N) : bool :=
  any_suffix (starts_with (Json.DQ :: J word ++ [Json.DQ])) body.

(** The four tests that suppress a rendered body. *)
Definition is_tool_command (body : list N) : bool :=
  has_key "search_query" body
  || (has_key "open" body && has_quoted "url" body)
  || has_key "find" body
  || has_key "click" body.

(** The statements of [nodeToMarkdown] after the [switch]. *)
Definition finishBody (message : value) (body : list N) (skipHeader : bool)
  : result (list N) :=
  let* metadata := get message (J "metadata") in
  let meta := or_else metadata (VObj []) in
  let* citationMap := buildCitationMap meta in
  let body := replaceCitationPlaceholders body citationMap in
  let body := wrapLinksInMarkdown body in
  let* citations := extractCitations meta in
  let* results := extractSearchResults meta in
  let body := body ++ citations ++ results in
  if is_tool_command body then Ok []
  else
    match trim body with
    | [] => Ok []
    | _ =>
        let* author := get message (J "author") in
        let* role := get author (J "role") in
        let body := if loose_is_str role (J "user") then indent body else body in
        if skipHeader then Ok body
        else if is_str role (J "tool") then Ok (body ++ [NL; NL])
        else
          let* name := get author (J "name") in
          Ok (J "## " ++ to_string role ++
              (if truthy name then J " (" ++ to_string name ++ J ")" else []) ++
              [NL; NL] ++ body ++ [NL; NL])
    end.

(** The [try] block of [nodeToMarkdown]. *)
Definition nodeToMarkdown_try (node : value) (skipHeader : bool) : result (list N) :=
  let* message := get node (J "message") in
  let content := opt_get message (J "content") in
  if negb (truthy content) then Ok []
  else
    let* body := contentBody content in
    finishBody message body skipHeader.

(** The [catch] clause: the message of the exception is extended with
    the serialised node and the exception is thrown again. *)
Definition with_node (node : value) (err : js_error) : js_error :=
  mkError (err_kind err)
    (err_message err ++ [NL] ++ J "Node: " ++ Json.stringify_top node).

Definition nodeToMarkdown (node : value) (skipHeader : bool) : result (list N) :=
  match nodeToMarkdown_try node skipHeader with
  | Ok s => Ok s
  | Throw err => Throw (with_node node err)
  end.

Definition banned : list (list N) :=
  [J "open"; J "search_query"; J "find"; J "click"; J "browser"; J "code_interpreter"].

(** The text examined for an internal tool command, before [trim]. *)
Definition suspectRaw (content : value) : result value :=
  if negb (truthy content) then Ok (VStr [])
  else
    let* ct := get content (J "content_type") in
    if is_str ct (J "code") then
      let* text := get content (J "text") in Ok (or_else text (VStr []))
    else
      let* parts := get content (J "parts") in
      match parts with
      | VArr items => Ok (VStr (array_join [NL] items))
      | _ => Ok (VStr [])
      end.

Definition suspectText (content : value) : result (list N) :=
  let* raw := suspectRaw content in
  let* s := as_string "(...).trim" raw in
  Ok (trim s).

(** The [try] block of the filter: the text parses as an object or an
    array one of whose keys is banned. *)
Definition parses_with_banned_key (text : list N) : bool :=
  match Json.parse text with
  | Some obj =>
      match obj with
      | VObj _ | VArr _ =>
          match object_keys obj with
          | Ok keys => existsb (fun k => existsb (str_eqb k) banned) keys
          | Throw _ => false
          end
      | _ => false
      end
  | None => false
  end.

(** The test for an empty system message: the role is system and the
    parts, joined without separator and trimmed, are empty or absent. *)
Definition is_empty_system (message role : value) : result bool :=
  if is_str role (J "system") then
    let* content := get message (J "content") in
    let parts := opt_get content (J "parts") in
    if nullish parts then Ok true
    else
      let* items := as_array "content.parts.join" parts in
      Ok (bool_decide (trim (array_join [] items) = []))
  else Ok false.

Definition shouldIncludeMessage (node : value) : result bool :=
  if negb (truthy node) then Ok false
  else
    let* message := get node (J "message") in
    if negb (truthy message) then Ok false
    else
      let* metadata := get message (J "metadata") in
      let meta := or_else metadata (VObj []) in
      let* hidden := get meta (J "is_visually_hidden_from_conversation") in
      if truthy hidden then Ok false
      else
        let* status := get meta (J "reasoning_status") in
        if is_str status (J "reasoning_ended") then Ok false
        else
          let* author := get message (J "author") in
          let* role := get author (J "role") in
          let* empty := is_empty_system message role in
          if empty then Ok false
          else if is_str role (J "assistant") then
            let* content := get message (J "content") in
            let* text := suspectText content in
            if parses_with_banned_key text then Ok false
            else if has_key "search_query" text then Ok false
            else Ok true
          else Ok true.

(** [children.forEach(f)] for a callback that pushes to [ordered] and
    may throw or fail to return. *)
Fixpoint for_each (f : value -> list value -> option (result (list value)))
  (children : list value) (ordered : list value) : option (result (list value)) :=
  match children with
  | [] => Some (Ok ordered)
  | c :: cs =>
      match f c ordered with
      | Some (Ok ordered') => for_each f cs ordered'
      | other => other
      end
  end.

(** [walk] of [getOrderedNodeIds], with the array [ordered] passed along.
    The recursion of the source is not bounded by its input, so the
    function takes fuel: [None] is a traversal that has not returned.
    [mapping[id]] is a read with a computed key: under the name of an
    inherited member it finds that member, which is truthy and has no
    [children], so that the identifier is pushed and nothing is walked
    below it. *)
Fixpoint walk (fuel : nat) (mapping : value) (id : value) (ordered : list value)
  : option (result (list value)) :=
  match fuel with
  | O => None
  | S fuel' =>
      if negb (truthy id) then Some (Ok ordered)
      else
        match get_member mapping (to_string id) with
        | Throw e => Some (Throw e)
        | Ok (Inherited _) => Some (Ok (ordered ++ [id]))
        | Ok (Own node) =>
            if negb (truthy node) then Some (Ok ordered)
            else
              match as_array "children.forEach"
                      (or_else (get_own node (J "children")) (VArr [])) with
              | Throw e => Some (Throw e)
              | Ok children => for_each (walk fuel' mapping) children (ordered ++ [id])
              end
        end
  end.

Definition ROOT : list N := J "client-created-root".

Definition rootId (mapping : value) : result value :=
  let* r := get mapping ROOT in
  if truthy r then Ok (VStr ROOT)
  else
    let* keys := object_keys mapping in
    Ok (match keys with
        | k :: _ => VStr k
        | [] => VUndef
        end).

Definition getOrderedNodeIds (fuel : nat) (conversation : value)
  : option (result (list value)) :=
  match get conversation (J "mapping") with
  | Throw e => Some (Throw e)
  | Ok mapping =>
      match rootId mapping with
      | Throw e => Some (Throw e)
      | Ok root => walk fuel mapping root []
      end
  end.

(** *** The reasoning callouts *)

(** [/^\[!\w+\]/i] *)
Definition is_callout_marker (s : list N) : bool :=
  starts_with (J "[!") s &&
  (let r := skipn 2 s in
   let n := span_len is_word r in
   negb (Nat.eqb n 0) && starts_with (J "]") (skipn n r)).

(** [linkRegex]: a bracketed label, then a parenthesised http(s) target,
    at the start of the line. *)
Definition is_link_line (s : list N) : bool :=
  match s with
  | c :: r =>
      (c =? 91) &&
      (let n := span_len (fun x => negb (x =? 93)) r in
       negb (Nat.eqb n 0) && starts_with (J "](") (skipn n r) &&
       (let u := skipn (n + 2) r in
        match scheme_len u with
        | Some k =>
            let v := skipn k u in
            let m := span_len (fun x => negb (x =? 41)) v in
            negb (Nat.eqb m 0) && starts_with (J ")") (skipn m v)
        | None => false
        end))
  | [] => false
  end.

Definition is_blank (line : list N) : bool := bool_decide (trim line = []).

(** The filter that selects [candidateLines]. *)
Definition is_candidate (line : list N) : bool :=
  let trimmed := trim line in
  negb (is_blank line)
  && negb (starts_with FENCE trimmed)
  && negb (starts_with (J "#") trimmed)
  && negb (is_callout_marker trimmed).

Definition onlyLinks (contentLines : list (list N)) : bool :=
  let candidateLines := List.filter is_candidate contentLines in
  existsb (fun line => is_link_line (trim line)) candidateLines
  && forallb (fun line => is_blank line || is_link_line (trim line)) candidateLines.

(** The heading marks and the white space after them, which the title
    of the callout drops. *)
Fixpoint drop_hashes (s : list N) : list N :=
  match s with
  | c :: s' => if c =? 35 then drop_hashes s' else s
  | [] => []
  end.

Definition strip_heading (line : list N) : list N := drop_space (drop_hashes line).

(** The [for] loop that looks at the first non-blank line: when it is a
    level-5 heading, the title and the lines without it. *)
Fixpoint find_heading (before lines : list (list N)) : option (list N * list (list N)) :=
  match lines with
  | [] => None
  | l :: ls =>
      if is_blank l then find_heading (before ++ [l]) ls
      else if starts_with (J "#####") (trim l)
           then Some (strip_heading (trim l), before ++ ls)
           else None
  end.

Definition nested_line (line : list N) : list N :=
  match trim line with
  | [] => J ">>" ++ [NL]
  | trimmed => J ">> " ++ trimmed ++ [NL]
  end.

Definition OUTER_HEADER : list N := J "> [!info]- Reasoning" ++ [NL].
Definition SEPARATOR : list N := J "> " ++ [NL].
Definition LINKS_HEADER : list N := J ">> [!quote]- Links" ++ [NL].

Definition example_header (calloutTitle : list N) : list N :=
  J ">> [!example]- " ++ calloutTitle ++ [NL].

(** What one reasoning message pushes after the outer header or the
    separator: the header of its nested callout and its lines. *)
Definition nested_callout (rawContent : list N) : list (list N) :=
  let contentLines := split_on NL (trim rawContent) in
  if onlyLinks contentLines then LINKS_HEADER :: map nested_line contentLines
  else
    match find_heading [] contentLines with
    | Some (calloutTitle, outputLines) =>
        example_header calloutTitle :: map nested_line outputLines
    | None => example_header (J "Reasoning") :: map nested_line contentLines
    end.

(** The variables of the rendering loop. *)
Record loop_state : Type := mkLoop { inCallout : bool; parts : list (list N) }.

Definition isReason (n : value) : result bool :=
  let* message := get n (J "message") in
  let* metadata := get message (J "metadata") in
  let meta := or_else metadata (VObj []) in
  let* status := get meta (J "reasoning_status") in
  Ok (is_str status (J "is_reasoning")).

(** One turn of the loop over [orderedMessages]. *)
Definition loop_step (st : loop_state) (n : value) : result loop_state :=
  let* reason := isReason n in
  if reason then
    let* rawContent := nodeToMarkdown n true in
    let opening := if inCallout st then SEPARATOR else OUTER_HEADER in
    Ok (mkLoop true (parts st ++ [opening] ++ nested_callout rawContent))
  else
    let* md := nodeToMarkdown n false in
    Ok (mkLoop (inCallout st) (parts st ++ [md])).

Fixpoint loop (st : loop_state) (orderedMessages : list value) : result loop_state :=
  match orderedMessages with
  | [] => Ok st
  | n :: rest => let* st' := loop_step st n in loop st' rest
  end.

(** The loop from its initial state, the closing push and the join. *)
Definition renderMessages (orderedMessages : list value) : result (list N) :=
  let* st := loop (mkLoop false []) orderedMessages in
  let parts := if inCallout st then parts st ++ [[NL]] else parts st in
  Ok (concat parts).

(** *** The document and the file *)

(** [ToNumber] of a time stamp: a number is itself, [null] and the
    booleans are 0 and 1, [undefined] and an object are not a number.
    The conversion of a string, and of an array, which goes through its
    string, reads a numeric literal; it is not modelled, and such a time
    stamp is taken as not a number: the statements that depend on it
    exclude these two types ([Spec.plain_times]). *)
Definition time_value (v : value) : option Z :=
  match v with
  | VNum z => Some z
  | VNull => Some 0%Z
  | VBool b => Some (if b then 1 else 0)%Z
  | _ => None
  end.

Definition pad (width : nat) (z : Z) : list N :=
  let ds := of_Z z in
  repeat 48 (width - length ds) ++ ds.

(** The calendar date of a day number counted from 1970-01-01. *)
Definition civil_from_days (days : Z) : Z * Z * Z :=
  let z := (days + 719468)%Z in
  let era := (z / 146097)%Z in
  let doe := (z - era * 146097)%Z in
  let yoe := ((doe - doe / 1460 + doe / 36524 - doe / 146096) / 365)%Z in
  let doy := (doe - (365 * yoe + yoe / 4 - yoe / 100))%Z in
  let mp := ((5 * doy + 2) / 153)%Z in
  let d := (doy - (153 * mp + 2) / 5 + 1)%Z in
  let m := (if mp <? 10 then mp + 3 else mp - 9)%Z in
  let y := (yoe + era * 400 + (if m <=? 2 then 1 else 0))%Z in
  (y, m, d).

(** [new Date(t * 1000).toISOString()]: a [RangeError] when the time is
    not a number or lies outside the range of [Date]. *)
Definition isoTime (t : value) : result (list N) :=
  match time_value t with
  | Some secs =>
      if (Z.abs secs <=? 8640000000000)%Z then
        let '(y, m, d) := civil_from_days (secs / 86400)%Z in
        let r := (secs mod 86400)%Z in
        let year :=
          if ((0 <=? y) && (y <=? 9999))%Z then pad 4 y
          else (if (y <? 0)%Z then J "-" else J "+") ++ pad 6 (Z.abs y) in
        Ok (year ++ J "-" ++ pad 2 m ++ J "-" ++ pad 2 d ++ J "T" ++
            pad 2 (r / 3600)%Z ++ J ":" ++ pad 2 (r / 60 mod 60)%Z ++ J ":" ++
            pad 2 (r mod 60)%Z ++ J ".000Z")
      else Throw (mkError RangeError (J "Invalid time value"))
  | None => Throw (mkError RangeError (J "Invalid time value"))
  end.

(** The first truthy [model_slug] among the nodes of the mapping. *)
Definition modelName (mapping : value) : result value :=
  let* nodes := object_values mapping in
  let slugs :=
    map (fun n => opt_get (opt_get (opt_get n (J "message")) (J "metadata")) (J "model_slug"))
      nodes in
  Ok (match List.find truthy slugs with
      | Some v => v
      | None => VStr []
      end).

Definition frontMatter (conversation : value) (title : list N) (model : value)
  : result (list N) :=
  let* create_time := get conversation (J "create_time") in
  let* created := isoTime create_time in
  let* update_time := get conversation (J "update_time") in
  let* updated := isoTime update_time in
  let* id := get conversation (J "conversation_id") in
  Ok (join [NL]
        [J "---";
         J "create_time: " ++ created;
         J "update_time: " ++ updated;
         J "tags:";
         J "completed: false";
         J "validated: false";
         J "favorite: false";
         J "ai_integration: true";
         J "ai_integration_level: generation";
         J "ai_model_name: " ++ to_string model;
         J "aliases: " ++ wrapHtmlTagsInBackticks title;
         J "author:";
         J "source: https://chatgpt.com/c/" ++ to_string id;
         J "---"]).

(** [sanitizeFileName(conversation.title) || conversation.conversation_id],
    followed by the extension. *)
Definition fileName (conversation : value) : result (list N) :=
  let* title := get conversation (J "title") in
  let* t := as_string "title.replace" title in
  let* id := get conversation (J "conversation_id") in
  let sanitizedTitle := or_else (VStr (sanitizeFileName t)) id in
  Ok (to_string sanitizedTitle ++ J ".md").

(** The filter on what [mapping[id]] has found: an inherited member has
    no [message], and is left out. *)
Definition include_member (m : member) : result bool :=
  match m with
  | Own node => shouldIncludeMessage node
  | Inherited _ => Ok false
  end.

Definition own_nodes (members : list member) : list value :=
  flat_map (fun m => match m with
                     | Own node => [node]
                     | Inherited _ => []
                     end) members.

(** The messages of a conversation that are rendered, in order. *)
Definition orderedMessages (fuel : nat) (conversation : value)
  : option (result (list value)) :=
  match getOrderedNodeIds fuel conversation with
  | None => None
  | Some (Throw e) => Some (Throw e)
  | Some (Ok ids) =>
      Some (let* mapping := get conversation (J "mapping") in
            let* nodes := mapM (fun id => get_member mapping (to_string id)) ids in
            let* kept := filterM include_member nodes in
            Ok (own_nodes kept))
  end.

(** [path.join(sourceDir, fileName)], kept as its two arguments. *)
Record file_path : Type := mkPath { path_dir : list N; path_file : list N }.

Inductive fs_event : Type :=
| WriteFile (path : file_path) (data : list N)
| Utimes (path : file_path) (atime mtime : value).

(** What is computed for a conversation before its messages are
    traversed: the file name, the title line and the front matter. *)
Definition prelude (conversation : value) : result (list N * list N * list N) :=
  let* name := fileName conversation in
  let* title := get conversation (J "title") in
  let* t := as_string "text.replace" title in
  let heading := J "# " ++ wrapHtmlTagsInBackticks t ++ [NL] in
  let* mapping := get conversation (J "mapping") in
  let* model := modelName mapping in
  let* metadata := frontMatter conversation t model in
  Ok (name, heading, metadata).

(** The outcome of a run: the calls that took effect on the file system,
    and how the promise settles ([None] when it never does). *)
Record run : Type := mkRun { trace : list fs_event; outcome : option (result unit) }.

(** The check of [fs] on a path: a string without null character. *)
Definition valid_path (p : file_path) : bool :=
  negb (existsb (N.eqb 0) (path_dir p ++ path_file p)).

(** The check of [fs.utimes] on a time: a finite number, a numeric
    string or a [Date].  A string that reaches the call is numeric, since
    the front matter has printed the date it stands for. *)
Definition valid_time (t : value) : bool :=
  match t with
  | VNum _ | VStr _ => true
  | _ => false
  end.

(** The document of a conversation: front matter, title and messages. *)
Definition document (fuel : nat) (conversation : value)
  : option (result (list N * list N)) :=
  match prelude conversation with
  | Throw e => Some (Throw e)
  | Ok (name, heading, metadata) =>
      match orderedMessages fuel conversation with
      | None => None
      | Some ordered =>
          Some (let* msgs := ordered in
                let* messages := renderMessages msgs in
                Ok (name, metadata ++ [NL; NL] ++ heading ++ [NL; NL] ++ messages))
      end
  end.

(** The two calls on the file system, [writeFile] and [utimes]; the
    times are read from the conversation after the file is written. *)
Definition store (filePath : file_path) (markdownContent : list N) (conversation : value)
  : run :=
  if valid_path filePath then
    let written := [WriteFile filePath markdownContent] in
    match get conversation (J "create_time") with
    | Throw e => mkRun written (Some (Throw e))
    | Ok create_time =>
        match get conversation (J "update_time") with
        | Throw e => mkRun written (Some (Throw e))
        | Ok update_time =>
            if valid_time create_time && valid_time update_time
            then mkRun (written ++ [Utimes filePath create_time update_time])
                   (Some (Ok tt))
            else mkRun written
                   (Some (type_error "The time argument must be a number or a Date"))
        end
    end
  else mkRun [] (Some (type_error "The path argument must be without null bytes")).

(** The body of the loop over the conversations. *)
Definition convert (fuel : nat) (sourceDir : list N) (conversation : value) : run :=
  match document fuel conversation with
  | None => mkRun [] None
  | Some (Throw e) => mkRun [] (Some (Throw e))
  | Some (Ok (name, markdownContent)) =>
      store (mkPath sourceDir name) markdownContent conversation
  end.

Fixpoint convert_all (fuel : nat) (sourceDir : list N) (conversations : list value) : run :=
  match conversations with
  | [] => mkRun [] (Some (Ok tt))
  | c :: cs =>
      let r := convert fuel sourceDir c in
      match outcome r with
      | Some (Ok _) =>
          let r' := convert_all fuel sourceDir cs in
          mkRun (trace r ++ trace r') (outcome r')
      | _ => r
      end
  end.

Definition chatgptToMarkdown (fuel : nat) (json sourceDir : value) : run :=
  match json with
  | VArr conversations =>
      match sourceDir with
      | VStr dir => convert_all fuel dir conversations
      | _ => mkRun [] (Some (type_error "The second argument must be a string."))
      end
  | _ => mkRun [] (Some (type_error "The first argument must be an array."))
  end.

End Index.

(** ** The earlier copy of the module

    [cli.js] carries, after the command-line script, an earlier copy of
    the conversion module.  The functions not repeated here are the same
    in both copies.  The copy marks a reasoning message by writing the
    property [__wrap_callout] into its metadata; the node is therefore
    passed along in the state it has when it is serialised. *)

Module Legacy.
Import Index.

Definition WRAP : list N := J "__wrap_callout".

(** [delete obj[k]] on a property list. *)
Fixpoint remove_prop (k : list N) (props : list (list N * value)) : list (list N * value) :=
  match props with
  | [] => []
  | (k', v) :: ps => if str_eqb k k' then ps else (k', v) :: remove_prop k ps
  end.

(** The node after [f] has been applied to the properties of the object
    [node.message.metadata]; the node itself when there is no such object. *)
Definition update_metadata (f : list (list N * value) -> list (list N * value))
  (node : value) : value :=
  match node with
  | VObj nprops =>
      match assoc (J "message") nprops with
      | VObj mprops =>
          match assoc (J "metadata") mprops with
          | VObj meta =>
              VObj (Json.set_prop (J "message")
                      (VObj (Json.set_prop (J "metadata") (VObj (f meta)) mprops)) nprops)
          | _ => node
          end
      | _ => node
      end
  | _ => node
  end.

Definition safe_link (c : value) : result (list N) :=
  let* url := get c (J "url") in
  let* title := get c (J "title") in
  let* t := safeTitle url title in
  Ok (md_link t (to_string url)).

Definition extractCitations (metadata : value) : result (list N) :=
  let metadata := or_empty_object metadata in
  let* citations := get metadata (J "citations") in
  match citations with
  | VArr [] => Ok []
  | VArr cs => let* links := mapM safe_link cs in Ok (join [NL] links ++ [NL; NL])
  | _ => Ok []
  end.

(** The wrapping applied to a flagged body. *)
Definition wrap_callout (body : list N) : list N :=
  let quoted :=
    join [NL] (map (fun l => J "> " ++ l)
                 (List.filter (fun l => negb (is_blank l)) (split_on NL body))) in
  J "> [!info]- Reasoning" ++ [NL] ++ quoted.

(** The statements after the flag has been set. *)
Definition finishBody (message : value) (wrap : bool) (body : list N) (skipHeader : bool)
  : result (list N) :=
  let* metadata := get message (J "metadata") in
  let meta := or_else metadata (VObj []) in
  let* citationMap := buildCitationMap meta in
  let body := replaceCitationPlaceholders body citationMap in
  let body := wrapLinksInMarkdown body in
  let* citations := extractCitations meta in
  let* results := extractSearchResults meta in
  let body := body ++ citations ++ results in
  let body := if wrap then wrap_callout body else body in
  if is_tool_command body then Ok []
  else
    match trim body with
    | [] => Ok []
    | _ =>
        let* author := get message (J "author") in
        let* role := get author (J "role") in
        let body := if loose_is_str role (J "user") then indent body else body in
        if skipHeader then Ok body
        else if is_str role (J "tool") then Ok (body ++ [NL; NL])
        else
          let* name := get author (J "name") in
          Ok (J "## " ++ to_string role ++
              (if truthy name then J " (" ++ to_string name ++ J ")" else []) ++
              [NL; NL] ++ body ++ [NL; NL])
    end.

Definition with_node_of (node : value) {A : Type} (r : result A) : result A :=
  match r with
  | Ok a => Ok a
  | Throw err => Throw (with_node node err)
  end.

Definition nodeToMarkdown (node : value) (skipHeader : bool) : result (list N) :=
  match get node (J "message") with
  | Throw err => Throw (with_node node err)
  | Ok message =>
      let content := opt_get message (J "content") in
      if negb (truthy content) then Ok []
      else
        match contentBody content with
        | Throw err => Throw (with_node node err)
        | Ok body =>
            let meta := or_else (get_own message (J "metadata")) (VObj []) in
            let reasoning := is_str (get_own meta (J "reasoning_status")) (J "is_reasoning") in
            let node' :=
              if reasoning
              then update_metadata (Json.set_prop WRAP (VBool true)) node
              else node in
            let wrap := reasoning || truthy (get_own meta WRAP) in
            with_node_of node' (finishBody message wrap body skipHeader)
        end
  end.

(** A line without its leading quote marks and the white space after
    them. *)
Fixpoint drop_quotes (s : list N) : list N :=
  match s with
  | c :: s' => if c =? 62 then drop_quotes s' else s
  | [] => []
  end.

Definition unquote (line : list N) : list N :=
  match line with
  | c :: _ => if c =? 62 then drop_space (drop_quotes line) else line
  | [] => []
  end.

(** The first line without a leading info marker, its dash and the
    white space after it; trimmed. *)
Definition clean_first (first : list N) : list N :=
  trim (if starts_with (J "[!info]") (map lower (firstn 7 first))
        then drop_space (match skipn 7 first with
                         | c :: r => if c =? 45 then r else c :: r
                         | [] => []
                         end)
        else first).

Definition nested_callout (raw : list N) : list (list N) :=
  let rawLines :=
    List.filter (fun l => negb (is_blank l)) (map unquote (split_on NL raw)) in
  match rawLines with
  | [] => []
  | first :: rest =>
      (J ">> [!example]- " ++ clean_first first ++ [NL])
        :: map (fun l => J ">> " ++ l ++ [NL]) rest
  end.

Definition loop_step (st : loop_state) (n : value) : result loop_state :=
  let* reason := isReason n in
  if reason then
    let* raw := nodeToMarkdown (update_metadata (remove_prop WRAP) n) true in
    let opening := if inCallout st then SEPARATOR else OUTER_HEADER in
    Ok (mkLoop true (parts st ++ [opening] ++ nested_callout raw))
  else
    let* md := nodeToMarkdown n false in
    Ok (mkLoop false (parts st ++ (if inCallout st then [[NL]] else []) ++ [md])).

Fixpoint loop (st : loop_state) (orderedMessages : list value) : result loop_state :=
  match orderedMessages with
  | [] => Ok st
  | n :: rest => let* st' := loop_step st n in loop st' rest
  end.

Definition renderMessages (orderedMessages : list value) : result (list N) :=
  let* st := loop (mkLoop false []) orderedMessages in
  let parts := if inCallout st then parts st ++ [[NL]] else parts st in
  Ok (concat parts).

Definition document (fuel : nat) (conversation : value)
  : option (result (list N * list N)) :=
  match prelude conversation with
  | Throw e => Some (Throw e)
  | Ok (name, heading, metadata) =>
      match orderedMessages fuel conversation with
      | None => None
      | Some ordered =>
          Some (let* msgs := ordered in
                let* messages := renderMessages msgs in
                Ok (name, metadata ++ [NL; NL] ++ heading ++ [NL; NL] ++ messages))
      end
  end.

(** The two calls of the copy: the times are passed in the other
    order. *)
Definition store (filePath : file_path) (markdownContent : list N) (conversation : value)
  : run :=
  if valid_path filePath then
    let written := [WriteFile filePath markdownContent] in
    match get conversation (J "update_time") with
    | Throw e => mkRun written (Some (Throw e))
    | Ok update_time =>
        match get conversation (J "create_time") with
        | Throw e => mkRun written (Some (Throw e))
        | Ok create_time =>
            if valid_time update_time && valid_time create_time
            then mkRun (written ++ [Utimes filePath update_time create_time])
                   (Some (Ok tt))
            else mkRun written
                   (Some (type_error "The time argument must be a number or a Date"))
        end
    end
  else mkRun [] (Some (type_error "The path argument must be without null bytes")).

Definition convert (fuel : nat) (sourceDir : list N) (conversation : value) : run :=
  match document fuel conversation with
  | None => mkRun [] None
  | Some (Throw e) => mkRun [] (Some (Throw e))
  | Some (Ok (name, markdownContent)) =>
      store (mkPath sourceDir name) markdownContent conversation
  end.

(** The expression of [fixEmptyMarkdownLinks] at the head of the text:
    an empty pair of brackets, then between parentheses one of the two
    schemes and at least one character, none of them a closing
    parenthesis. *)
Definition match_empty_link (s : list N) : option (nat * list N) :=
  if starts_with (J "[](") s then
    let u := skipn 3 s in
    match scheme_len u with
    | Some k =>
        let n := span_len (fun x => negb (x =? 41)) (skipn k u) in
        if Nat.eqb n 0 then None
        else
          match skipn (k + n) u with
          | _ :: _ =>
              let url := firstn (k + n) u in
              Some ((3 + k + n)%nat, md_link (last_segment 47 url) url)
          | [] => None
          end
    | None => None
    end
  else None.

(** A function of the copy that nothing calls. *)
Definition fixEmptyMarkdownLinks (text : list N) : list N :=
  gsub match_empty_link 0 text.

End Legacy.

(** ** Notions used to state the properties *)

Module Spec.
Import Index.

(** A bare link starts here: one of the two schemes and a character
    that is not white space. *)
Definition url_start (s : list N) : Prop :=
  exists scheme c rest,
    (scheme = J "http://" \/ scheme = J "https://")
    /\ is_space c = false /\ s = scheme ++ c :: rest.

(** Runs of white space reduced to one space, read character by
    character: [in_run] tells that the previous character was white
    space. *)
Fixpoint squeeze (in_run : bool) (s : list N) : list N :=
  match s with
  | [] => []
  | c :: s' =>
      if is_space c then
        if in_run then squeeze true s' else SP :: squeeze true s'
      else c :: squeeze false s'
  end.

(** No two neighbours are both white space. *)
Fixpoint single_spaced (s : list N) : Prop :=
  match s with
  | a :: t => match t with
              | b :: _ => ~ (is_space a = true /\ is_space b = true)
              | [] => True
              end /\ single_spaced t
  | [] => True
  end.

(** What the traversal finds at an identifier: nothing to visit (a falsy
    identifier or nothing truthy under it), a node with its declared
    children (none for a member that the mapping inherits), or a node
    whose children cannot be iterated. *)
Inductive visit : Type :=
| Skip
| Visit (children : list value)
| Fail (e : js_error).

Definition visit_of (mapping id : value) : visit :=
  if negb (truthy id) then Skip
  else
    match get_member mapping (to_string id) with
    | Throw e => Fail e
    | Ok (Inherited _) => Visit []
    | Ok (Own node) =>
        if negb (truthy node) then Skip
        else
          match as_array "children.forEach"
                  (or_else (get_own node (J "children")) (VArr [])) with
          | Throw e => Fail e
          | Ok children => Visit children
          end
    end.

(** [mapping[id]] is truthy: the identifier names a node of the mapping
    or a member that the mapping inherits. *)
Definition present (mapping id : value) : bool :=
  match visit_of mapping id with
  | Skip => false
  | _ => true
  end.

Definition children_of (mapping id : value) : list value :=
  match visit_of mapping id with
  | Visit children => children
  | _ => []
  end.

(** The identifier at the end of a path, given as the positions of the
    children to follow from [id]; [None] when the path leaves the
    mapping. *)
Fixpoint reach (mapping id : value) (path : list nat) : option value :=
  match path with
  | [] => if present mapping id then Some id else None
  | i :: path' =>
      match nth_error (children_of mapping id) i with
      | Some c => reach mapping c path'
      | None => None
      end
  end.

(** No identifier is reached from [root] along two different paths. *)
Definition unique_paths (mapping root : value) : Prop :=
  forall p q x, reach mapping root p = Some x -> reach mapping root q = Some x -> p = q.

(** The identifiers met along a path, its starting point left out. *)
Fixpoint trail (mapping id : value) (path : list nat) : list value :=
  match path with
  | [] => []
  | i :: path' =>
      match nth_error (children_of mapping id) i with
      | Some c => c :: trail mapping c path'
      | None => []
      end
  end.

(** The values a property read on the mapping can return, [undefined]
    left out. *)
Definition candidates (mapping : value) : list value :=
  match mapping with
  | VObj props => map snd props
  | VArr items => VNum (Z.of_nat (length items)) :: items
  | VStr s => VNum (Z.of_nat (length s)) :: map (fun c => VStr [c]) s
  | _ => []
  end.

(** The children a node declares. *)
Definition declared (node : value) : list value :=
  match or_else (get_own node (J "children")) (VArr []) with
  | VArr children => children
  | _ => []
  end.

(** Every identifier that some node of the mapping declares as a child. *)
Definition universe (mapping : value) : list value :=
  flat_map declared (candidates mapping).

(** The identifier of a citation: the first truthy of its three
    identifier fields. *)
Definition identifier (citation : value) : value :=
  or_else (get_own citation (J "ref_id"))
    (or_else (get_own citation (J "source_id")) (get_own citation (J "id"))).

(** The label of its link: the title when it is not blank, else the last
    segment of the address. *)
Definition link_title (citation : value) : list N :=
  match trim (to_string (or_else (get_own citation (J "title")) (VStr []))) with
  | [] => last_segment 47 (to_string (get_own citation (J "url")))
  | t => t
  end.

Definition citation_link (citation : value) : list N :=
  md_link (link_title citation) (to_string (get_own citation (J "url"))).

(** The citation has the key [k] and an address. *)
Definition binds (k : list N) (citation : value) : bool :=
  truthy (identifier citation) && truthy (get_own citation (J "url"))
  && str_eqb (to_string (identifier citation)) k.

(** The link of the last citation of the list that has the key [k] and
    an address. *)
Definition last_binding (k : list N) (citations : list value) : option (list N) :=
  option_map citation_link (List.find (binds k) (rev citations)).

Definition string_or_falsy (v : value) : Prop :=
  match v with
  | VStr _ => True
  | _ => truthy v = false
  end.

(** A citation as the archive has them: an object (or any value but
    [null]) whose address and title, when present, are strings. *)
Definition well_formed_citation (citation : value) : Prop :=
  nullish citation = false
  /\ string_or_falsy (get_own citation (J "url"))
  /\ string_or_falsy (get_own citation (J "title")).




(** A value whose conversion to a string the model computes exactly: it
    holds no number beyond 2^53. *)
Fixpoint exact (v : value) : bool :=
  match v with
  | VNum z => (Z.abs z <=? 9007199254740992)%Z
  | VArr items => forallb exact items
  | _ => true
  end.

(** The time stamps of a conversation are of a type whose conversion to a
    number is modelled: neither a string nor an array. *)
Definition plain_time (t : value) : bool :=
  match t with
  | VStr _ | VArr _ => false
  | _ => true
  end.

Definition plain_times (conversation : value) : bool :=
  plain_time (get_own conversation (J "create_time"))
  && plain_time (get_own conversation (J "update_time")).


(** A line as [blockquote] marks it. *)
Definition quoted (v : list N) : list N :=
  match v with
  | [] => J ">"
  | _ => J "> " ++ v
  end.

(** A name that [sanitizeFileName] has nothing to do on: no reserved
    character, no white space but single spaces, none of them at an
    end. *)
Definition clean_name (s : list N) : Prop :=
  Forall (fun c => is_reserved c = false) s
  /\ Forall (fun c => is_space c = true -> c = SP) s
  /\ single_spaced s
  /\ match s with [] => True | c :: _ => is_space c = false end
  /\ match rev s with [] => True | c :: _ => is_space c = false end.

(** The entries of a search-result group: the elements of its [entries]
    when this is an array. *)
Definition entries_of (group : value) : list value :=
  match get_own group (J "entries") with
  | VArr es => es
  | _ => []
  end.

Definition has_url (entry : value) : bool := truthy (get_own entry (J "url")).

(** The links of the entries that have an address, group after group;
    the link of an entry is built as that of a citation. *)
Definition search_links (groups : list value) : list (list N) :=
  flat_map (fun g => map citation_link (List.filter has_url (entries_of g))) groups.

(** What the filter and the loop read in a node: its message, the
    metadata of the message (an empty object when it has none), the role
    of its author and its content. *)
Definition message_of (node : value) : value := get_own node (J "message").

Definition meta_of (node : value) : value :=
  or_else (get_own (message_of node) (J "metadata")) (VObj []).




(** The message is hidden, or is the end mark of a reasoning. *)
Definition flagged (node : value) : bool :=
  truthy (get_own (meta_of node) (J "is_visually_hidden_from_conversation"))
  || is_str (get_own (meta_of node) (J "reasoning_status")) (J "reasoning_ended").

(** The message is marked as reasoning in progress. *)
Definition reasoning (node : value) : bool :=
  is_str (get_own (meta_of node) (J "reasoning_status")) (J "is_reasoning").




(** One line of a block quotation: the mark, a text without newline, and
    the newline. *)
Definition quoted_line (part : list N) : Prop :=
  exists l, part = J ">" ++ l ++ [NL] /\ Forall (fun c => c <> NL) l.

(** A message on which the two copies of the module have nothing to do
    differently: it is not marked as reasoning, its metadata carry no
    wrapping flag and no array of citations. *)
Definition ordinary (node : value) : Prop :=
  isReason node = Ok false
  /\ truthy (get_own (meta_of node) Legacy.WRAP) = false
  /\ forall l, get_own (meta_of node) (J "citations") <> VArr l.

(** One digit more at the end of a number written in base ten. *)
Definition digit_step (a : Z) (d : N) : Z := (10 * a + Z.of_N (d - 48))%Z.

(** The text that may follow a value inside an array or an object: a
    comma or a closing bracket, or nothing. *)
Definition follows (rest : list N) : Prop :=
  match rest with
  | [] => True
  | c :: _ => c = 44 \/ c = 93 \/ c = 125
  end.

(** No key of the list is repeated. *)
Fixpoint distinct (keys : list (list N)) : bool :=
  match keys with
  | [] => true
  | k :: ks => negb (existsb (str_eqb k) ks) && distinct ks
  end.

(** A value as [JSON.parse] returns it: no [undefined] in it, no number
    beyond 2^53, and the keys of an object distinct, as they are in any
    object. *)
Fixpoint is_json (v : value) : bool :=
  match v with
  | VUndef => false
  | VNum z => (Z.abs z <=? 9007199254740992)%Z
  | VArr items => forallb is_json items
  | VObj props =>
      distinct (map fst props)
      && forallb (fun kv : list N * value => let (_, x) := kv in is_json x) props
  | _ => true
  end.

(** The text of a value, followed by what may follow it, is read back as
    the value, with the rest left over. *)
Definition reads_back (v : value) : Prop :=
  is_json v = true ->
  forall rest fuel,
    follows rest ->
    (length (Json.stringify v ++ rest) < fuel)%nat ->
    Json.parse_value fuel (Json.stringify v ++ rest) = Some (v, rest).

(** The text of an element of an array after the first, and of a member
    of an object. *)
Definition element_text (v : value) : list N := 44 :: Json.stringify v.

Definition member_text (kv : list N * value) : list N :=
  Json.quote (fst kv) ++ 58 :: Json.stringify (snd kv).

(** [n?.message?.metadata?.model_slug], as the front matter reads it. *)
Definition slug_of (n : value) : value :=
  opt_get (opt_get (opt_get n (J "message")) (J "metadata")) (J "model_slug").

(** The text of the messages, from what the mapping has under the
    identifiers of the traversal: the filter, then the loop. *)
Definition rendered (members : list member) : result (list N) :=
  let* kept := filterM include_member members in
  renderMessages (own_nodes kept).


End Spec.

(** ** Sample inputs *)

Module Samples.

Definition str (s : string) : value := VStr (J s).

(** A node with a message of the given role, content and metadata. *)
Definition message_node (role : string) (content : value)
  (metadata : list (list N * value)) : value :=
  VObj [(J "message",
         VObj [(J "author", VObj [(J "role", str role)]);
               (J "content", content);
               (J "metadata", VObj metadata)])].

Definition text_content (parts : list (list N)) : value :=
  VObj [(J "content_type", str "text"); (J "parts", VArr (map VStr parts))].

(** An assistant message that cites the source [turn0]. *)
Definition cited_node : value :=
  message_node "assistant"
    (text_content [J "See " ++ 57344 :: J "cite" ++ 57345 :: J "turn0" ++ 57346 :: J " now"])
    [(J "citations",
      VArr [VObj [(J "ref_id", str "turn0"); (J "url", str "https://a.b/c");
                  (J "title", str "Doc")]])].

(** An assistant message whose text content has no parts. *)
Definition broken_node : value :=
  message_node "assistant" (VObj [(J "content_type", str "text")]) [].


(** A message marked as reasoning in progress. *)
Definition reasoning_node (text : string) : value :=
  message_node "assistant" (text_content [J text])
    [(J "reasoning_status", str "is_reasoning")].

Definition answer_node : value :=
  message_node "assistant" (text_content [J "Done"]) [].

(** The text of an internal search command: an object with the single
    key search_query. *)
Definition search_text : list N :=
  J "{" ++ [34] ++ J "search_query" ++ [34] ++ J ": " ++ [34] ++ J "x" ++ [34] ++ J "}".

Definition search_node : value :=
  message_node "assistant" (text_content [search_text]) [].

(** The same command in a message whose metadata names a model. *)
Definition slug_node : value :=
  message_node "assistant" (text_content [search_text]) [(J "model_slug", str "gpt-4o")].

(** A conversation whose root declares the child [n1], over the given
    nodes. *)
Definition search_conversation (nodes : list (list N * value)) : value :=
  VObj [(J "title", str "Search");
        (J "conversation_id", str "abc-3");
        (J "create_time", VNum 1700000000);
        (J "update_time", VNum 1700000100);
        (J "mapping",
         VObj ((J "client-created-root",
                VObj [(J "children", VArr [str "n1"])]) :: nodes))].

(** A text in which the apostrophes stand for double quotes. *)
Definition quoted_text (s : string) : list N :=
  map (fun c => if c =? 39 then 34 else c) (J s).

(** The text that [JSON.stringify] writes for [broken_node]. *)
Definition broken_text : list N :=
  quoted_text ("{'message':{'author':{'role':'assistant'},"
               ++ "'content':{'content_type':'text'},'metadata':{}}}").

(** A node followed by the list of its children. *)
Definition with_children (node : value) (children : list string) : value :=
  match node with
  | VObj props => VObj (props ++ [(J "children", VArr (map str children))])
  | _ => node
  end.

(** Three reasoning messages and a normal one, each the child of the one
    before. *)
Definition three_then_answer : list value :=
  [with_children (reasoning_node "first") ["r2"]%string;
   with_children (reasoning_node "second") ["r3"]%string;
   with_children (reasoning_node "third") ["a1"]%string;
   with_children answer_node []].

(** Two citations with the key [a], one without address and one without
    key. *)
Definition sample_citations : list value :=
  [VObj [(J "ref_id", str "a"); (J "url", str "https://x.y/1"); (J "title", str "One")];
   VObj [(J "source_id", str "a"); (J "url", str "https://x.y/2")];
   VObj [(J "id", str "b"); (J "title", str "No address")];
   VObj [(J "url", str "https://x.y/3")]].

(** A node that carries only a list of children. *)
Definition link_node (children : list string) : value :=
  VObj [(J "children", VArr (map str children))].

(** A mapping in which [c] is a child of both [a] and [b]. *)
Definition diamond : value :=
  VObj [(J "mapping",
         VObj [(J "client-created-root", link_node ["a"; "b"]%string);
               (J "a", link_node ["c"]%string);
               (J "b", link_node ["c"]%string);
               (J "c", link_node [])])].

(** A mapping in which [a] is its own grandchild. *)
Definition cycle : value :=
  VObj [(J "mapping",
         VObj [(J "client-created-root", link_node ["a"]%string);
               (J "a", link_node ["b"]%string);
               (J "b", link_node ["a"]%string)])].

(** A root with two children, one of them absent from the mapping. *)
Definition small_tree : value :=
  VObj [(J "mapping",
         VObj [(J "client-created-root", link_node ["a"; "gone"]%string);
               (J "a", link_node [])])].

(** The conversation whose messages are [three_then_answer]. *)
Definition reasoning_conversation : value :=
  VObj [(J "title", str "Reasoning");
        (J "conversation_id", str "abc-2");
        (J "create_time", VNum 1700000000);
        (J "update_time", VNum 1700000100);
        (J "mapping",
         VObj [(J "client-created-root", link_node ["r1"]%string);
               (J "r1", with_children (reasoning_node "first") ["r2"]%string);
               (J "r2", with_children (reasoning_node "second") ["r3"]%string);
               (J "r3", with_children (reasoning_node "third") ["a1"]%string);
               (J "a1", with_children answer_node [])])].

(** A conversation with one answer under the root. *)
Definition sample_conversation : value :=
  VObj [(J "title", str "Sample");
        (J "conversation_id", str "abc-1");
        (J "create_time", VNum 1700000000);
        (J "update_time", VNum 1700000100);
        (J "mapping",
         VObj [(J "client-created-root", link_node ["n1"]%string);
               (J "n1", answer_node)])].

(** The sample conversation with [null] for its two time stamps. *)
Definition timeless_conversation : value :=
  VObj [(J "title", str "Sample");
        (J "conversation_id", str "abc-1");
        (J "create_time", VNull);
        (J "update_time", VNull);
        (J "mapping",
         VObj [(J "client-created-root", link_node ["n1"]%string);
               (J "n1", answer_node)])].

(** A conversation with one answer, under the given title and
    identifier. *)
Definition titled_conversation (title id : string) : value :=
  VObj [(J "title", str title);
        (J "conversation_id", str id);
        (J "create_time", VNum 1700000000);
        (J "update_time", VNum 1700000100);
        (J "mapping",
         VObj [(J "client-created-root", link_node ["n1"]%string);
               (J "n1", answer_node)])].

(** Metadata with three search-result groups: one with four entries,
    one of them without address, one without entries and one whose
    entries are not an array. *)
Definition search_metadata : value :=
  VObj [(J "search_result_groups",
         VArr [VObj [(J "entries", VArr sample_citations)];
               VObj [(J "domain", str "x.y")];
               VObj [(J "entries", str "none")]])].



End Samples.

(** * Properties *)

(** ** Property names

    None of the names that the module reads with a fixed name on the
    values of the archive is a member of a prototype, but [entries] on an
    array. *)

Example fixed_names_not_inherited :
  List.filter
    (fun k => existsb (str_eqb k)
                (object_prototype ++ array_prototype ++ string_prototype
                   ++ number_prototype))
    (map J ["author"; "children"; "citations"; "content"; "content_type";
            "conversation_id"; "create_time"; "dalle"; "detail"; "entries"; "height";
            "id"; "is_visually_hidden_from_conversation"; "language"; "mapping";
            "message"; "metadata"; "model_slug"; "name"; "parts"; "prompt";
            "reasoning_status"; "ref_id"; "result"; "role"; "search_result_groups";
            "source_id"; "summary"; "text"; "thoughts"; "title"; "update_time"; "url";
            "width"]%string)
  = [J "entries"].
Proof. vm_compute. reflexivity. Qed.

(** ** Global replacement *)

Section Gsub.
Variable m : list N -> option (nat * list N).

Lemma gsub_skip (a s : list N) : gsub m (length a) (a ++ s) = gsub m 0 s.
Proof.
  induction a as [|c a IH]; simpl.
  - destruct s; reflexivity.
  - exact IH.
Qed.

(** A match at the head is replaced and the search resumes behind it. *)
Lemma gsub_hit (c : N) (t s r : list N) :
  m (c :: t ++ s) = Some (length t, r) ->
  gsub m 0 (c :: t ++ s) = r ++ gsub m 0 s.
Proof.
  intros H. simpl. rewrite H. now rewrite gsub_skip.
Qed.

(** Characters at which the expression cannot start are copied. *)
Lemma gsub_pass (p : N -> bool) (pre s : list N) :
  (forall c rest, p c = false -> m (c :: rest) = None) ->
  Forall (fun c => p c = false) pre ->
  gsub m 0 (pre ++ s) = pre ++ gsub m 0 s.
Proof.
  intros Hm Hpre. induction Hpre as [|c pre Hc _ IH]; simpl.
  - reflexivity.
  - rewrite (Hm c (pre ++ s) Hc). now rewrite IH.
Qed.

(** A prefix in which no match starts is copied. *)
Lemma gsub_miss (pre s : list N) :
  (forall i, (i < length pre)%nat -> m (skipn i (pre ++ s)) = None) ->
  gsub m 0 (pre ++ s) = pre ++ gsub m 0 s.
Proof.
  induction pre as [|c pre IH]; intros H; simpl.
  - reflexivity.
  - assert (H0 : m (c :: pre ++ s) = None) by (apply (H 0%nat); simpl; lia).
    rewrite H0. f_equal. apply IH.
    intros i Hi. apply (H (S i)). simpl; lia.
Qed.

End Gsub.

Lemma span_len_all (p : N -> bool) (a s : list N) :
  Forall (fun c => p c = true) a ->
  match s with [] => True | c :: _ => p c = false end ->
  span_len p (a ++ s) = length a.
Proof.
  intros Ha Hs. induction Ha as [|c a Hc _ IH]; simpl.
  - destruct s as [|d s]; simpl; [reflexivity | now rewrite Hs].
  - now rewrite Hc, IH.
Qed.

Lemma skipn_length_app (a s : list N) : skipn (length a) (a ++ s) = s.
Proof. induction a; simpl; auto. Qed.

Lemma firstn_length_app (a s : list N) : firstn (length a) (a ++ s) = a.
Proof. induction a; simpl; f_equal; auto. Qed.

Lemma starts_with_app (p s : list N) : starts_with p (p ++ s) = true.
Proof.
  induction p as [|c p IH]; simpl; [reflexivity|].
  now rewrite N.eqb_refl, IH.
Qed.

(** ** Citation placeholders *)

Section Citations.
Import Index.
Variable citationMap : gmap (list N) (list N).




End Citations.





(** ** Bare links *)

Section Links.
Import Index Spec.

Lemma starts_with_inv (p s : list N) :
  starts_with p s = true -> s = p ++ skipn (length p) s.
Proof.
  revert s. induction p as [|a p IH]; intros s H; simpl in *.
  - reflexivity.
  - destruct s as [|b s]; [discriminate|].
    apply andb_prop in H as [Hab Hp]. apply N.eqb_eq in Hab. subst b.
    simpl. f_equal. now apply IH.
Qed.

Lemma scheme_len_inv (s : list N) (k : nat) :
  scheme_len s = Some k ->
  exists scheme, (scheme = J "http://" \/ scheme = J "https://")
                 /\ length scheme = k /\ s = scheme ++ skipn k s.
Proof.
  unfold scheme_len. intros H.
  destruct (starts_with (J "https://") s) eqn:E1.
  - injection H as <-. exists (J "https://"). split; [now right|]. split; [reflexivity|].
    exact (starts_with_inv _ _ E1).
  - destruct (starts_with (J "http://") s) eqn:E2; [|discriminate].
    injection H as <-. exists (J "http://"). split; [now left|]. split; [reflexivity|].
    exact (starts_with_inv _ _ E2).
Qed.

Lemma scheme_len_app (scheme t : list N) :
  scheme = J "http://" \/ scheme = J "https://" ->
  scheme_len (scheme ++ t) = Some (length scheme).
Proof. intros [-> | ->]; reflexivity. Qed.

(** The expression matches only where a link starts. *)
Lemma match_url_none (s : list N) : ~ url_start s -> match_url s = None.
Proof.
  intros H. unfold match_url.
  destruct (scheme_len s) as [k|] eqn:E; [|reflexivity].
  destruct (scheme_len_inv s k E) as (scheme & Hs & Hk & Heq).
  destruct (skipn k s) as [|c rest] eqn:Er; [reflexivity|].
  simpl. destruct (is_space c) eqn:Ec; [reflexivity|].
  exfalso. apply H. exists scheme, c, rest. auto.
Qed.

Lemma match_url_token (scheme rest post : list N) :
  scheme = J "http://" \/ scheme = J "https://" ->
  rest <> [] ->
  Forall (fun c => is_space c = false) rest ->
  match post with [] => True | c :: _ => is_space c = true end ->
  match_url (scheme ++ rest ++ post)
  = Some ((length (scheme ++ rest) - 1)%nat, md_link (scheme ++ rest) (scheme ++ rest)).
Proof.
  intros Hs Hne Hrest Hpost. unfold match_url.
  rewrite (scheme_len_app scheme _ Hs), skipn_length_app.
  rewrite (span_len_all (fun x => negb (is_space x)) rest post).
  - destruct rest as [|c rest]; [congruence|]. simpl Nat.eqb. cbv iota.
    rewrite <- (length_app scheme (c :: rest)), (app_assoc scheme (c :: rest) post).
    rewrite firstn_length_app. reflexivity.
  - eapply Forall_impl; [exact Hrest|]. intros c Hc. simpl. now rewrite Hc.
  - destruct post as [|c post]; [exact I|]. simpl. now rewrite Hpost.
Qed.

End Links.

(** C9: a run of characters without white space that begins with
    http:// or https:// and has at least one more character is
    rewritten into a link whose label and target are both the whole
    run, whatever stands before it, provided no link starts earlier;
    the target of a link that is already formed is rewritten too, also
    the one that has just replaced a citation placeholder, and a closing
    parenthesis that follows the address ends up in the label and in the
    target. *)
Theorem wrapLinksInMarkdown_token (pre scheme rest post : list N) :
  scheme = J "http://" \/ scheme = J "https://" ->
  rest <> [] ->
  Forall (fun c => is_space c = false) rest ->
  match post with [] => True | c :: _ => is_space c = true end ->
  (forall i, (i < length pre)%nat ->
             ~ Spec.url_start (skipn i (pre ++ (scheme ++ rest) ++ post))) ->
  Index.wrapLinksInMarkdown (pre ++ (scheme ++ rest) ++ post)
  = pre ++ Index.md_link (scheme ++ rest) (scheme ++ rest) ++ Index.wrapLinksInMarkdown post
  /\ Index.wrapLinksInMarkdown (J "[doc](https://a.b/c) and (https://d.e)")
     = J "[doc]([https://a.b/c)](https://a.b/c)) and ([https://d.e)](https://d.e))"
  /\ Index.nodeToMarkdown Samples.cited_node false
     = Ok (J "## assistant" ++ [NL; NL] ++
           J "See [Doc]([https://a.b/c)](https://a.b/c)) now" ++ [NL] ++
           J "> [undefined](https://a.b/c)" ++ [NL; NL] ++ J "> undefined" ++ [NL] ++
           [NL; NL]).
Proof.
  intros Hs Hne Hrest Hpost Hpre. split; [|split; vm_compute; reflexivity].
  unfold Index.wrapLinksInMarkdown.
  rewrite gsub_miss.
  - f_equal.
    pose proof (match_url_token scheme rest post Hs Hne Hrest Hpost) as Hm.
    rewrite <- (app_assoc scheme rest post).
    assert (Hc : exists c t, scheme ++ rest = c :: t).
    { destruct Hs as [-> | ->]; eexists _, _; reflexivity. }
    destruct Hc as (c & t & Hct).
    assert (Hsplit : scheme ++ rest ++ post = c :: t ++ post).
    { now rewrite app_assoc, Hct. }
    rewrite Hsplit in *. rewrite Hct in Hm. simpl in Hm. rewrite Nat.sub_0_r in Hm.
    rewrite (gsub_hit _ c t post _ Hm). now rewrite Hct.
  - intros i Hi. apply match_url_none. now apply Hpre.
Qed.

Lemma wrapLinksInMarkdown_token_witness :
  Index.wrapLinksInMarkdown (J "(see " ++ (J "https://" ++ J "a.b/c)") ++ J " twice")
  = J "(see " ++ Index.md_link (J "https://" ++ J "a.b/c)") (J "https://" ++ J "a.b/c)")
      ++ Index.wrapLinksInMarkdown (J " twice").
Proof.
  apply (wrapLinksInMarkdown_token (J "(see ") (J "https://") (J "a.b/c)") (J " twice")).
  - now right.
  - discriminate.
  - repeat constructor.
  - reflexivity.
  - intros i Hi (scheme & c & rest & Hs & _ & Heq).
    simpl in Hi.
    destruct i as [|[|[|[|[|i]]]]]; [| | | | |lia];
      destruct Hs as [-> | ->]; vm_compute in Heq; discriminate.
Defined.

(** ** File names *)

Section FileNames.
Import Index Spec.

Lemma gsub_spaces_squeeze (s : list N) :
  gsub match_spaces 0 s = squeeze false s
  /\ gsub match_spaces (span_len is_space s) s = squeeze true s.
Proof.
  induction s as [|c s [IH0 IH1]]; [split; reflexivity|].
  simpl. destruct (is_space c) eqn:Ec; simpl; rewrite ?Ec; split;
    simpl; congruence.
Qed.

Lemma squeeze_shape (b : bool) (s : list N) :
  single_spaced (squeeze b s)
  /\ (b = true -> match squeeze b s with [] => True | c :: _ => is_space c = false end)
  /\ Forall (fun c => is_space c = true -> c = SP) (squeeze b s).
Proof.
  revert b. induction s as [|c s IH]; intros b; simpl.
  - repeat split; auto.
  - destruct (is_space c) eqn:Ec.
    + destruct (IH true) as (H1 & H2 & H3). destruct b.
      * repeat split; auto.
      * simpl. repeat split; auto.
        specialize (H2 eq_refl). destruct (squeeze true s); [exact I|].
        intros [_ Hn]. congruence.
    + destruct (IH false) as (H1 & H2 & H3). simpl. repeat split; auto.
      * destruct (squeeze false s); [exact I|]. intros [Hc _]. congruence.
      * constructor; [congruence | exact H3].
Qed.


Lemma squeeze_Forall (P : N -> Prop) (b : bool) (s : list N) :
  P SP -> Forall P s -> Forall P (squeeze b s).
Proof.
  intros HP H. revert b. induction H as [|c s Hc _ IH]; intros b; simpl.
  - constructor.
  - destruct (is_space c); [destruct b|]; auto.
Qed.

(** What [drop_space] removes and what it leaves. *)
Lemma drop_space_split (s : list N) :
  exists a, s = a ++ drop_space s
            /\ Forall (fun c => is_space c = true) a
            /\ match drop_space s with [] => True | c :: _ => is_space c = false end.
Proof.
  induction s as [|c s (a & Heq & Ha & Hhd)]; simpl.
  - exists []. auto.
  - destruct (is_space c) eqn:Ec.
    + exists (c :: a). simpl. split; [now f_equal|]. split; [now constructor | exact Hhd].
    + exists []. simpl. rewrite Ec. auto.
Qed.

(** [trim] removes white space at both ends and nothing else. *)
Lemma trim_split (s : list N) :
  exists a b, s = a ++ trim s ++ b
              /\ Forall (fun c => is_space c = true) a
              /\ Forall (fun c => is_space c = true) b
              /\ match trim s with [] => True | c :: _ => is_space c = false end
              /\ match rev (trim s) with [] => True | c :: _ => is_space c = false end.
Proof.
  unfold trim.
  destruct (drop_space_split s) as (a & Hs & Ha & Hhd).
  destruct (drop_space_split (rev (drop_space s))) as (b & Hr & Hb & Hhd').
  set (s1 := drop_space s) in *. set (s2 := drop_space (rev s1)) in *.
  assert (Hs1 : s1 = rev s2 ++ rev b).
  { rewrite <- rev_app_distr, <- Hr. now rewrite rev_involutive. }
  exists a, (rev b). repeat split.
  - now rewrite <- Hs1.
  - exact Ha.
  - now apply Forall_rev.
  - destruct (rev s2) as [|c r] eqn:E; [exact I|].
    rewrite Hs1 in Hhd. exact Hhd.
  - rewrite rev_involutive. exact Hhd'.
Qed.

Lemma single_spaced_app_r (a s : list N) : single_spaced (a ++ s) -> single_spaced s.
Proof. induction a as [|c a IH]; simpl; [auto|]. intros [_ H]. auto. Qed.

Lemma single_spaced_app_l (s b : list N) : single_spaced (s ++ b) -> single_spaced s.
Proof.
  induction s as [|c s IH]; simpl; [auto|]. intros [H1 H2]. split; [|auto].
  destruct s; simpl in *; auto.
Qed.




Lemma sanitize_split (title : list N) :
  exists a b,
    squeeze false (map (fun c => if is_reserved c then SP else c) title)
    = a ++ sanitizeFileName title ++ b
    /\ Forall (fun c => is_space c = true) a
    /\ Forall (fun c => is_space c = true) b.
Proof.
  unfold sanitizeFileName.
  rewrite (proj1 (gsub_spaces_squeeze _)).
  destruct (trim_split (squeeze false (map (fun c => if is_reserved c then SP else c) title)))
    as (a & b & H & Ha & Hb & _).
  exists a, b. auto.
Qed.

(** *** The sanitised title, word by word *)















End FileNames.

(** ** The calls on the file system *)

Ltac bind_ok H :=
  match type of H with
  | bind ?m _ = Ok _ =>
      let E := fresh "E" in
      destruct m eqn:E; simpl in H; [|discriminate H]
  end.

Lemma get_defined (v : value) (k : list N) : nullish v = false -> get v k = Ok (get_own v k).
Proof. intros H. unfold get. now rewrite H. Qed.

Lemma prelude_fileName (conv : value) (name heading metadata : list N) :
  Index.prelude conv = Ok (name, heading, metadata) -> Index.fileName conv = Ok name.
Proof.
  unfold Index.prelude. intros H.
  repeat bind_ok H. now injection H as -> _ _.
Qed.

Lemma document_fileName (fuel : nat) (conv : value) (name data : list N) :
  Index.document fuel conv = Some (Ok (name, data)) -> Index.fileName conv = Ok name.
Proof.
  unfold Index.document. intros H.
  destruct (Index.prelude conv) as [[[n heading] metadata]|] eqn:Ep; [|discriminate].
  destruct (Index.orderedMessages fuel conv) as [ordered|]; [|discriminate].
  injection H as H. repeat bind_ok H. injection H as <- _.
  exact (prelude_fileName _ _ _ _ Ep).
Qed.

(** The calls made for a document: none when the path is rejected, the
    write alone when a time is rejected, the write and then the times
    of the conversation set on the file just written. *)
Lemma store_calls (path : Index.file_path) (data : list N) (conv : value) :
  nullish conv = false ->
  (Index.valid_path path = false
   /\ exists e, Index.store path data conv = Index.mkRun [] (Some (Throw e)))
  \/ (Index.valid_path path = true
      /\ (Index.valid_time (get_own conv (J "create_time"))
          && Index.valid_time (get_own conv (J "update_time"))) = false
      /\ exists e,
           err_kind e = TypeError
           /\ Index.store path data conv
              = Index.mkRun [Index.WriteFile path data] (Some (Throw e)))
  \/ (Index.valid_path path = true
      /\ (Index.valid_time (get_own conv (J "create_time"))
          && Index.valid_time (get_own conv (J "update_time"))) = true
      /\ Index.store path data conv
         = Index.mkRun [Index.WriteFile path data;
                        Index.Utimes path (get_own conv (J "create_time"))
                          (get_own conv (J "update_time"))]
             (Some (Ok tt))).
Proof.
  intros Hn. unfold Index.store, get. rewrite Hn.
  destruct (Index.valid_path path); [|left; eauto].
  right.
  destruct (Index.valid_time (get_own conv (J "create_time"))
            && Index.valid_time (get_own conv (J "update_time")));
    [right; auto | left].
  repeat split. eexists. split; [|reflexivity]. reflexivity.
Qed.

Lemma fileName_not_nullish (conv : value) (name : list N) :
  Index.fileName conv = Ok name -> nullish conv = false.
Proof.
  unfold Index.fileName, get. destruct (nullish conv); [discriminate | reflexivity].
Qed.

(** What the conversion of one conversation does on the file system. *)
Lemma convert_calls (fuel : nat) (dir : list N) (conv : value) :
  Index.convert fuel dir conv = Index.mkRun [] None
  \/ (exists e, Index.convert fuel dir conv = Index.mkRun [] (Some (Throw e)))
  \/ exists name data,
       Index.document fuel conv = Some (Ok (name, data))
       /\ Index.fileName conv = Ok name
       /\ Index.valid_path (Index.mkPath dir name) = true
       /\ ((Index.valid_time (get_own conv (J "create_time"))
            && Index.valid_time (get_own conv (J "update_time"))) = false
           /\ (exists e,
                 err_kind e = TypeError
                 /\ Index.convert fuel dir conv
                    = Index.mkRun [Index.WriteFile (Index.mkPath dir name) data]
                        (Some (Throw e)))
           \/ (Index.valid_time (get_own conv (J "create_time"))
               && Index.valid_time (get_own conv (J "update_time"))) = true
              /\ Index.convert fuel dir conv
                 = Index.mkRun [Index.WriteFile (Index.mkPath dir name) data;
                                Index.Utimes (Index.mkPath dir name)
                                  (get_own conv (J "create_time"))
                                  (get_own conv (J "update_time"))]
                     (Some (Ok tt))).
Proof.
  unfold Index.convert.
  destruct (Index.document fuel conv) as [[[name data]|e]|] eqn:Ed;
    [|right; left; eauto | left; reflexivity].
  pose proof (document_fileName fuel conv name data Ed) as Hn.
  destruct (store_calls (Index.mkPath dir name) data conv (fileName_not_nullish _ _ Hn))
    as [(Hp & e & He) | [(Hp & Ht & e & Hk & He) | (Hp & Ht & He)]].
  - right. left. eauto.
  - right. right. exists name, data. repeat split; auto. left. eauto.
  - right. right. exists name, data. repeat split; auto.
Qed.

(** A conversation that is converted makes exactly two calls: it writes
    the file, then sets its times, and the two calls name the same path. *)
Lemma convert_events (fuel : nat) (dir : list N) (conv : value) (events : list Index.fs_event) :
  Index.convert fuel dir conv = Index.mkRun events (Some (Ok tt)) ->
  exists name data ct ut,
    Index.fileName conv = Ok name
    /\ get conv (J "create_time") = Ok ct
    /\ get conv (J "update_time") = Ok ut
    /\ events = [Index.WriteFile (Index.mkPath dir name) data;
                 Index.Utimes (Index.mkPath dir name) ct ut].
Proof.
  intros H.
  destruct (convert_calls fuel dir conv)
    as [Hc | [(e & Hc) | (name & data & _ & Hn & _ & [(_ & e & _ & Hc) | (_ & Hc)])]];
    rewrite Hc in H; try discriminate.
  injection H as <-.
  exists name, data, (get_own conv (J "create_time")), (get_own conv (J "update_time")).
  rewrite !(get_defined conv _ (fileName_not_nullish _ _ Hn)). auto.
Qed.

Section FileNameTheorem.
Import Index Spec.


End FileNameTheorem.


Section Timestamps.
Import Index.

Lemma outcome_ok (r : run) (u : unit) : outcome r = Some (Ok u) -> outcome r = Some (Ok tt).
Proof. now destruct u. Qed.

(** The run converts the conversations in order, up to the first one
    that does not succeed: its calls are theirs, and it succeeds only
    when all of them have. *)
Lemma convert_all_trace (fuel : nat) (dir : list N) (conversations : list value) :
  exists done rest,
    conversations = done ++ rest
    /\ trace (convert_all fuel dir conversations)
       = flat_map (fun conv => trace (convert fuel dir conv)) done
    /\ (outcome (convert_all fuel dir conversations) = Some (Ok tt) ->
        rest = []
        /\ Forall (fun conv => outcome (convert fuel dir conv) = Some (Ok tt))
             conversations).
Proof.
  induction conversations as [|c cs (done & rest & Hcs & Htr & Hok)].
  - exists [], []. repeat split; constructor.
  - cbn [convert_all].
    destruct (outcome (convert fuel dir c)) as [[u|e]|] eqn:Eo.
    + exists (c :: done), rest. cbn [trace outcome flat_map app].
      split; [now rewrite Hcs|]. split; [now rewrite Htr|].
      intros H. destruct (Hok H) as [Hr Hall]. split; [exact Hr|].
      constructor; [exact (outcome_ok _ u Eo) | exact Hall].
    + exists [c], cs. cbn [flat_map app]. rewrite app_nil_r.
      split; [reflexivity|]. split; [reflexivity|].
      intros H. rewrite Eo in H. discriminate.
    + exists [c], cs. cbn [flat_map app]. rewrite app_nil_r.
      split; [reflexivity|]. split; [reflexivity|].
      intros H. rewrite Eo in H. discriminate.
Qed.

(** C2: the calls of a run are those of its conversations, one after the
    other, up to the first conversation that fails.  The calls of a
    conversation are its own: when its file is written, under the name
    computed for this conversation, the next call sets the times of this
    very file and passes the [create_time] of the conversation as access
    time and its [update_time] as modification time, the values found in
    the archive (the model has no clock); the only case in which the
    times are not set after the write is that [utimes] rejects them,
    which ends the run.  When the run succeeds every conversation has
    made these two calls. *)
Theorem utimes_create_then_update (fuel : nat) (conversations : list value) (dir : list N) :
  let r := chatgptToMarkdown fuel (VArr conversations) (VStr dir) in
  let own_calls conv :=
    exists name data,
      fileName conv = Ok name
      /\ trace (convert fuel dir conv)
         = [WriteFile (mkPath dir name) data;
            Utimes (mkPath dir name) (get_own conv (J "create_time"))
              (get_own conv (J "update_time"))] in
  (exists done rest,
      conversations = done ++ rest
      /\ trace r = flat_map (fun conv => trace (convert fuel dir conv)) done
      /\ (outcome r = Some (Ok tt) -> rest = []))
  /\ (outcome r = Some (Ok tt) -> Forall own_calls conversations)
  /\ Forall (fun conv =>
               own_calls conv
               \/ (trace (convert fuel dir conv) = []
                   /\ outcome (convert fuel dir conv) <> Some (Ok tt))
               \/ (exists name data e,
                      fileName conv = Ok name
                      /\ convert fuel dir conv
                         = mkRun [WriteFile (mkPath dir name) data] (Some (Throw e))
                      /\ (valid_time (get_own conv (J "create_time"))
                          && valid_time (get_own conv (J "update_time"))) = false))
       conversations.
Proof.
  intros r own_calls. unfold r. cbn [chatgptToMarkdown].
  destruct (convert_all_trace fuel dir conversations) as (done & rest & Hcs & Htr & Hok).
  assert (Hown : forall conv,
             outcome (convert fuel dir conv) = Some (Ok tt) -> own_calls conv).
  { intros conv Ho.
    destruct (convert fuel dir conv) as [events o] eqn:Ec. cbn [outcome] in Ho. subst o.
    destruct (convert_events fuel dir conv events Ec)
      as (name & data & ct & ut & Hn & Hct & Hut & ->).
    rewrite (get_defined conv _ (fileName_not_nullish _ _ Hn)) in Hct.
    rewrite (get_defined conv _ (fileName_not_nullish _ _ Hn)) in Hut.
    injection Hct as <-. injection Hut as <-.
    exists name, data. rewrite Ec. auto. }
  split; [|split].
  - exists done, rest. split; [exact Hcs|]. split; [exact Htr|].
    intros H. exact (proj1 (Hok H)).
  - intros H. destruct (Hok H) as [_ Hall].
    eapply Forall_impl; [exact Hall|]. exact Hown.
  - apply List.Forall_forall. intros conv _.
    destruct (convert_calls fuel dir conv)
      as [Hc | [(e & Hc) | (name & data & _ & Hn & _ & [(Ht & e & _ & Hc) | (_ & Hc)])]].
    + right. left. rewrite Hc. split; [reflexivity | discriminate].
    + right. left. rewrite Hc. split; [reflexivity | discriminate].
    + right. right. exists name, data, e. auto.
    + left. apply Hown. now rewrite Hc.
Qed.

End Timestamps.

(** ** The traversal *)

Section Traversal.
Import Index Spec.
Variable mapping : value.

Lemma walk_unfold (fuel : nat) (id : value) (acc : list value) :
  walk (S fuel) mapping id acc
  = match visit_of mapping id with
    | Skip => Some (Ok acc)
    | Fail e => Some (Throw e)
    | Visit children => for_each (walk fuel mapping) children (acc ++ [id])
    end.
Proof.
  cbn [walk]. unfold visit_of.
  destruct (negb (truthy id)); [reflexivity|].
  destruct (get_member mapping (to_string id)) as [[node|name]|e]; try reflexivity.
  destruct (negb (truthy node)); [reflexivity|].
  destruct (as_array _ _); reflexivity.
Qed.

Lemma get_own_candidates (k : list N) :
  get_own mapping k = VUndef \/ In (get_own mapping k) (candidates mapping).
Proof.
  destruct mapping as [| | | |s|items|props]; cbn [get_own candidates]; auto.
  - destruct (str_eqb k (J "length")); [right; now left|].
    destruct (index_of_key k) as [i|]; [|now left].
    destruct (nth_error s i) as [c|] eqn:E; [|now left].
    right. right. apply in_map_iff. exists c. split; [reflexivity|].
    eapply nth_error_In; eauto.
  - destruct (str_eqb k (J "length")); [right; now left|].
    destruct (index_of_key k) as [i|]; [|now left].
    destruct (Nat.lt_ge_cases i (length items)) as [Hi|Hi].
    + right. right. now apply nth_In.
    + left. now apply nth_overflow.
  - induction props as [|[k' v] ps IH]; simpl; [now left|].
    destruct (str_eqb k k'); [right; now left|].
    destruct IH as [IH|IH]; [now left | right; now right].
Qed.

Lemma visit_children (id : value) (children : list value) :
  visit_of mapping id = Visit children ->
  forall c, In c children -> In c (universe mapping).
Proof.
  unfold visit_of. destruct (negb (truthy id)); [discriminate|].
  unfold get_member, lookup. destruct (nullish mapping); [discriminate|].
  destruct (negb (has_own mapping (to_string id))
            && existsb (str_eqb (to_string id)) (prototype_chain mapping));
    [intros [= <-] c []|].
  destruct (negb (truthy (get_own mapping (to_string id)))) eqn:Et; [discriminate|].
  intros H c Hc. unfold universe. apply in_flat_map.
  exists (get_own mapping (to_string id)). split.
  - destruct (get_own_candidates (to_string id)) as [Hu|Hin]; [|exact Hin].
    rewrite Hu in Et. discriminate.
  - unfold declared.
    destruct (or_else (get_own (get_own mapping (to_string id)) (J "children")) (VArr []));
      simpl in H; try discriminate. now injection H as ->.
Qed.

Lemma children_in_universe (id c : value) :
  In c (children_of mapping id) -> In c (universe mapping).
Proof.
  unfold children_of. destruct (visit_of mapping id) eqn:V; try (intros []).
  now apply (visit_children id).
Qed.

Lemma children_present (id : value) (i : nat) (c : value) :
  nth_error (children_of mapping id) i = Some c -> present mapping id = true.
Proof.
  unfold children_of, present. destruct (visit_of mapping id); try reflexivity.
  destruct i; discriminate.
Qed.

Lemma reach_present (id : value) (p : list nat) (x : value) :
  reach mapping id p = Some x -> present mapping id = true.
Proof.
  destruct p as [|i p]; simpl.
  - destruct (present mapping id); [reflexivity | discriminate].
  - destruct (nth_error (children_of mapping id) i) eqn:E; [|discriminate].
    intros _. eapply children_present; eauto.
Qed.

Lemma reach_end_present (id : value) (p : list nat) (x : value) :
  reach mapping id p = Some x -> present mapping x = true.
Proof.
  revert id. induction p as [|i p IH]; intros id; simpl.
  - destruct (present mapping id) eqn:E; [|discriminate]. now intros [= <-].
  - destruct (nth_error (children_of mapping id) i); [apply IH | discriminate].
Qed.

Lemma reach_app (id : value) (p q : list nat) (x : value) :
  reach mapping id p = Some x -> reach mapping id (p ++ q) = reach mapping x q.
Proof.
  revert id. induction p as [|i p IH]; intros id; simpl.
  - destruct (present mapping id); [|discriminate]. now intros [= <-].
  - destruct (nth_error (children_of mapping id) i); [apply IH | discriminate].
Qed.

Lemma trail_length (id : value) (p : list nat) (x : value) :
  reach mapping id p = Some x -> length (trail mapping id p) = length p.
Proof.
  revert id. induction p as [|i p IH]; intros id; simpl; [reflexivity|].
  destruct (nth_error (children_of mapping id) i); [|discriminate].
  intros H. simpl. f_equal. now apply IH.
Qed.

Lemma trail_in_universe (id : value) (p : list nat) (v : value) :
  In v (trail mapping id p) -> In v (universe mapping).
Proof.
  revert id. induction p as [|i p IH]; intros id; simpl; [intros []|].
  destruct (nth_error (children_of mapping id) i) as [c|] eqn:E; [|intros []].
  intros [<- | H].
  - apply (children_in_universe id). eapply nth_error_In; eauto.
  - eapply IH; eauto.
Qed.

(** The identifier at position [n] of the trail is the one reached by
    the first [n + 1] steps of the path. *)
Lemma reach_prefix (id : value) (p : list nat) (x : value) (n : nat) :
  reach mapping id p = Some x -> (n < length p)%nat ->
  exists v, nth_error (trail mapping id p) n = Some v
            /\ reach mapping id (firstn (S n) p) = Some v.
Proof.
  revert id n. induction p as [|i p IH]; intros id n; simpl; [lia|].
  destruct (nth_error (children_of mapping id) i) as [c|] eqn:E; [|discriminate].
  intros H Hn. destruct n as [|n].
  - exists c. split; [reflexivity|]. simpl.
    rewrite (reach_present c p x H). reflexivity.
  - destruct (IH c n H ltac:(lia)) as (v & H1 & H2).
    exists v. split; [exact H1 | exact H2].
Qed.

(** In a mapping without a second path no path is longer than the
    number of declared children. *)
Lemma path_bound (root : value) (p : list nat) (x : value) :
  unique_paths mapping root ->
  reach mapping root p = Some x ->
  (length p <= length (universe mapping))%nat.
Proof.
  intros Hu Hp. rewrite <- (trail_length root p x Hp).
  apply NoDup_incl_length.
  - apply NoDup_nth_error. intros i j Hi Hij.
    rewrite (trail_length root p x Hp) in Hi.
    destruct (reach_prefix root p x i Hp Hi) as (v & Hv & Hri).
    rewrite Hv in Hij. symmetry in Hij.
    assert (Hj : (j < length p)%nat).
    { rewrite <- (trail_length root p x Hp). apply nth_error_Some. congruence. }
    destruct (reach_prefix root p x j Hp Hj) as (w & Hw & Hrj).
    assert (w = v) by congruence. subst w.
    pose proof (Hu _ _ _ Hri Hrj) as Heq.
    apply (f_equal (@length nat)) in Heq.
    rewrite !length_firstn in Heq. lia.
  - intros v Hv. eapply trail_in_universe; eauto.
Qed.

End Traversal.

Section TraversalResult.
Import Index Spec.
Variable mapping : value.

Lemma for_each_total (f : value -> list value -> option (result (list value)))
  (children : list value) :
  (forall c acc, In c children -> exists r, f c acc = Some r) ->
  forall acc, exists r, for_each f children acc = Some r.
Proof.
  induction children as [|c cs IH]; intros Hf acc; simpl; [eauto|].
  destruct (Hf c acc (or_introl eq_refl)) as ([out|e] & ->); [|eauto].
  apply IH. intros c' acc' Hc'. apply Hf. now right.
Qed.

Lemma for_each_mono (f g : value -> list value -> option (result (list value)))
  (children : list value) :
  (forall c acc r, f c acc = Some r -> g c acc = Some r) ->
  forall acc r, for_each f children acc = Some r -> for_each g children acc = Some r.
Proof.
  intros Hfg. induction children as [|c cs IH]; intros acc r; simpl; [auto|].
  destruct (f c acc) as [[out|e]|] eqn:E; [| |discriminate].
  - rewrite (Hfg _ _ _ E). apply IH.
  - rewrite (Hfg _ _ _ E). auto.
Qed.

(** More fuel does not change a result. *)
Lemma walk_mono (fuel : nat) (id : value) (acc : list value) (r : result (list value)) :
  walk fuel mapping id acc = Some r -> walk (S fuel) mapping id acc = Some r.
Proof.
  revert id acc r. induction fuel as [|fuel IH]; intros id acc r; [discriminate|].
  rewrite !walk_unfold. destruct (visit_of mapping id); auto.
  apply for_each_mono. exact IH.
Qed.

Lemma walk_mono_le (fuel fuel' : nat) (id : value) (acc : list value)
  (r : result (list value)) :
  (fuel <= fuel')%nat ->
  walk fuel mapping id acc = Some r -> walk fuel' mapping id acc = Some r.
Proof.
  induction 1 as [|fuel' _ IH]; [auto|]. intros H. apply walk_mono. auto.
Qed.

(** With unique paths, the traversal of a node found at depth
    [length p] returns when the fuel covers the remaining depth. *)
Lemma walk_returns (root : value) :
  unique_paths mapping root ->
  forall k p x acc,
    reach mapping root p = Some x ->
    (length (universe mapping) + 1 <= length p + k)%nat ->
    exists r, walk (S k) mapping x acc = Some r.
Proof.
  intros Hu. induction k as [|k IH]; intros p x acc Hp Hk.
  - pose proof (path_bound mapping root p x Hu Hp). lia.
  - rewrite walk_unfold. destruct (visit_of mapping x) as [|children|e] eqn:V; eauto.
    apply for_each_total. intros c acc' Hc.
    destruct (present mapping c) eqn:Pc.
    + destruct (In_nth_error _ _ Hc) as (i & Hi).
      apply (IH (p ++ [i])).
      * rewrite (reach_app mapping root p [i] x Hp). simpl.
        unfold children_of. rewrite V, Hi. simpl. now rewrite Pc.
      * rewrite length_app. simpl. lia.
    + exists (Ok acc'). rewrite walk_unfold.
      unfold present in Pc. destruct (visit_of mapping c); congruence.
Qed.

(** The identifiers pushed by a traversal that returns are the ends of
    distinct paths from its starting point. *)
Lemma for_each_paths (f : value -> list value -> option (result (list value)))
  (children : list value) :
  (forall c acc out,
      f c acc = Some (Ok out) ->
      exists l : list (list nat * value),
        out = acc ++ map snd l /\ NoDup (map fst l)
        /\ forall p v, In (p, v) l -> reach mapping c p = Some v) ->
  forall off acc out,
    for_each f children acc = Some (Ok out) ->
    exists l : list (list nat * value),
      out = acc ++ map snd l /\ NoDup (map fst l)
      /\ forall p v, In (p, v) l ->
           exists i p' c, p = (off + i)%nat :: p' /\ nth_error children i = Some c
                          /\ reach mapping c p' = Some v.
Proof.
  intros Hf. induction children as [|c cs IH]; intros off acc out; simpl.
  - intros [= <-]. exists []. simpl. rewrite app_nil_r.
    split; [reflexivity|]. split; [constructor | intros p v []].
  - destruct (f c acc) as [[o1|e]|] eqn:E; try discriminate.
    intros H.
    destruct (Hf c acc o1 E) as (l1 & -> & N1 & R1).
    destruct (IH (S off) _ _ H) as (l2 & -> & N2 & R2).
    exists (map (fun pv => (off :: fst pv, snd pv)) l1 ++ l2).
    split; [|split].
    + rewrite map_app, map_map. simpl. now rewrite app_assoc.
    + rewrite map_app, map_map. simpl. apply NoDup_app. split; [|split].
      * rewrite <- (map_map fst (cons off)).
        apply NoDup_fmap_2; [|exact N1]. intros a b [= ->]. reflexivity.
      * intros p Hp1 Hp2.
        apply list_elem_of_In, in_map_iff in Hp1 as ([p1 v1] & <- & _).
        apply list_elem_of_In, in_map_iff in Hp2 as ([p2 v2] & Heq & Hin).
        simpl in Heq. destruct (R2 _ _ Hin) as (i & p' & c' & -> & _). injection Heq. lia.
      * exact N2.
    + intros p v Hin. apply in_app_or in Hin as [Hin|Hin].
      * apply in_map_iff in Hin as ([p1 v1] & [= <- <-] & Hin).
        exists 0%nat, p1, c. rewrite Nat.add_0_r. auto.
      * destruct (R2 _ _ Hin) as (i & p' & c' & -> & Hn & Hr).
        exists (S i), p', c'. split; [f_equal; lia | auto].
Qed.

Lemma walk_paths (fuel : nat) (id : value) (acc out : list value) :
  walk fuel mapping id acc = Some (Ok out) ->
  exists l : list (list nat * value),
    out = acc ++ map snd l /\ NoDup (map fst l)
    /\ forall p v, In (p, v) l -> reach mapping id p = Some v.
Proof.
  revert id acc out. induction fuel as [|fuel IH]; intros id acc out; [discriminate|].
  rewrite walk_unfold. destruct (visit_of mapping id) as [|children|e] eqn:V.
  - intros [= <-]. exists []. simpl. rewrite app_nil_r.
    split; [reflexivity|]. split; [constructor | intros p v []].
  - intros H.
    destruct (for_each_paths (walk fuel mapping) children IH 0%nat _ _ H)
      as (l & -> & Nl & Rl).
    exists (([], id) :: l). split; [|split].
    + simpl. now rewrite <- app_assoc.
    + simpl. constructor; [|exact Nl].
      intros Hin. apply list_elem_of_In, in_map_iff in Hin as ([p v] & Hp & Hin).
      simpl in Hp. subst p. destruct (Rl _ _ Hin) as (i & p' & c & Hp & _). discriminate.
    + intros p v [[= <- <-]|Hin].
      * simpl. unfold present. now rewrite V.
      * destruct (Rl _ _ Hin) as (i & p' & c & -> & Hn & Hr).
        simpl. unfold children_of. rewrite V. simpl in Hn. now rewrite Hn.
  - discriminate.
Qed.

(** With unique paths no identifier is pushed twice, and every
    identifier pushed names a node of the mapping. *)
Lemma walk_NoDup (root : value) (fuel : nat) (out : list value) :
  unique_paths mapping root ->
  walk fuel mapping root [] = Some (Ok out) ->
  NoDup out /\ forall id, In id out -> present mapping id = true.
Proof.
  intros Hu H. destruct (walk_paths fuel root [] out H) as (l & -> & Nl & Rl).
  simpl. split.
  - clear H. induction l as [|[p v] l IH]; simpl; [constructor|].
    inversion Nl as [|? ? Hnp Nl']; subst. constructor.
    + intros Hin. apply list_elem_of_In, in_map_iff in Hin as ([q w] & Hw & Hin).
      simpl in Hw. subst w. apply Hnp. apply list_elem_of_In.
      assert (q = p).
      { apply (Hu q p v); apply Rl; [now right | now left]. }
      subst q. apply (in_map fst) in Hin. exact Hin.
    + apply IH; [exact Nl'|]. intros q w Hin. apply Rl. now right.
  - intros id Hin. apply in_map_iff in Hin as ([p v] & Hv & Hin). simpl in Hv. subst v.
    eapply reach_end_present. eapply Rl; eauto.
Qed.

End TraversalResult.

Section TraversalTheorem.
Import Index Spec.

(** C3, as amended: when no identifier is reached from the root along
    two different paths, the traversal returns (with any larger amount of
    fuel it returns the same), and when it returns a list, no identifier
    is in it twice and under each of its identifiers the mapping has
    something truthy, so that a declared child under which the mapping
    has nothing is not pushed.  What the mapping has under an identifier
    is a node of its own or, under a name such as [toString], a member
    it inherits, which is pushed as a node without children.  The
    declared identifiers are taken to be values that the model prints
    exactly. *)
Theorem getOrderedNodeIds_unique_paths (conversation : value) :
  (forall mapping,
      get conversation (J "mapping") = Ok mapping ->
      Forall (fun id => exact id = true) (universe mapping)) ->
  (forall mapping root,
      get conversation (J "mapping") = Ok mapping ->
      rootId mapping = Ok root ->
      unique_paths mapping root) ->
  exists fuel r,
    (forall fuel', (fuel <= fuel')%nat -> getOrderedNodeIds fuel' conversation = Some r)
    /\ forall out, r = Ok out ->
         NoDup out
         /\ forall mapping id,
              get conversation (J "mapping") = Ok mapping ->
              In id out -> present mapping id = true.
Proof.
  intros _ Hu. unfold getOrderedNodeIds.
  destruct (get conversation (J "mapping")) as [mapping|e];
    [|exists 0%nat, (Throw e); split; [reflexivity | discriminate]].
  destruct (rootId mapping) as [root|e] eqn:Er;
    [|exists 0%nat, (Throw e); split; [reflexivity | discriminate]].
  specialize (Hu mapping root eq_refl Er).
  assert (Hret : exists r, walk (S (length (universe mapping) + 1)) mapping root [] = Some r).
  { destruct (present mapping root) eqn:Pr.
    - apply (walk_returns mapping root Hu _ [] root []); [|simpl; lia].
      simpl. now rewrite Pr.
    - exists (Ok []). rewrite walk_unfold. unfold present in Pr.
      destruct (visit_of mapping root); congruence. }
  destruct Hret as (r & Hr).
  exists (S (length (universe mapping) + 1)), r. split.
  - intros fuel' Hle. exact (walk_mono_le mapping _ _ _ _ _ Hle Hr).
  - intros out ->. destruct (walk_NoDup mapping root _ out Hu Hr) as [Hnd Hpr].
    split; [exact Hnd|]. intros m id [= <-]. apply Hpr.
Qed.

Lemma small_tree_unique_paths (mapping root : value) :
  get Samples.small_tree (J "mapping") = Ok mapping ->
  rootId mapping = Ok root ->
  unique_paths mapping root.
Proof.
  intros Hm. vm_compute in Hm. injection Hm as <-.
  intros Hr. vm_compute in Hr. injection Hr as <-.
  intros p q x Hp Hq.
  destruct p as [|[|[|[|?]]] [|[|?] ?]]; destruct q as [|[|[|[|?]]] [|[|?] ?]];
    vm_compute in Hp, Hq; congruence.
Qed.

Lemma small_tree_exact :
  Forall (fun id => exact id = true)
    (universe (VObj [(ROOT, Samples.link_node ["a"; "gone"]%string);
                     (J "a", Samples.link_node [])])).
Proof.
  apply List.Forall_forall. intros x Hx. vm_compute in Hx.
  destruct Hx as [<-|[<-|[]]]; reflexivity.
Qed.

Lemma getOrderedNodeIds_unique_paths_witness :
  exists fuel r,
    (forall fuel', (fuel <= fuel')%nat ->
                   getOrderedNodeIds fuel' Samples.small_tree = Some r)
    /\ forall out, r = Ok out ->
         NoDup out
         /\ forall mapping id,
              get Samples.small_tree (J "mapping") = Ok mapping ->
              In id out -> present mapping id = true.
Proof.
  apply (getOrderedNodeIds_unique_paths Samples.small_tree).
  - intros mapping Hm. vm_compute in Hm. injection Hm as <-.
    exact small_tree_exact.
  - exact small_tree_unique_paths.
Defined.

(** A child named after a member that the mapping inherits is pushed,
    once for each time it is declared. *)
Example getOrderedNodeIds_inherited_member :
  getOrderedNodeIds 3
    (VObj [(J "mapping",
            VObj [(J "client-created-root",
                   Samples.link_node ["toString"; "gone"; "toString"]%string)])])
  = Some (Ok [VStr ROOT; VStr (J "toString"); VStr (J "toString")]).
Proof. vm_compute. reflexivity. Qed.

(** C3, as stated, fails on a mapping in which two nodes declare the
    same child: the child is pushed once for each of them. *)
Lemma getOrderedNodeIds_diamond_counterexample :
  getOrderedNodeIds 3 Samples.diamond
  = Some (Ok [VStr ROOT; VStr (J "a"); VStr (J "c"); VStr (J "b"); VStr (J "c")])
  /\ ~ NoDup [VStr ROOT; VStr (J "a"); VStr (J "c"); VStr (J "b"); VStr (J "c")].
Proof.
  split; [vm_compute; reflexivity|].
  intros H.
  apply NoDup_cons in H as [_ H].
  apply NoDup_cons in H as [_ H].
  apply NoDup_cons in H as [H _].
  apply H, list_elem_of_In. right. left. reflexivity.
Qed.

(** On a mapping with a cycle the traversal does not return, whatever
    the fuel. *)
Lemma getOrderedNodeIds_cycle_diverges (fuel : nat) :
  getOrderedNodeIds fuel Samples.cycle = None.
Proof.
  unfold getOrderedNodeIds.
  destruct (get Samples.cycle (J "mapping")) as [mapping|] eqn:Em;
    vm_compute in Em; [|discriminate]. injection Em as <-.
  match goal with |- context [rootId ?m] => set (mapping := m) end.
  change (rootId mapping) with (Ok (A := value) (VStr ROOT)). cbv iota.
  assert (Hab : forall f acc,
             walk f mapping (VStr (J "a")) acc = None
             /\ walk f mapping (VStr (J "b")) acc = None).
  { induction f as [|f IH]; intros acc; [split; reflexivity|].
    rewrite !walk_unfold.
    change (visit_of mapping (VStr (J "a"))) with (Visit [VStr (J "b")]).
    change (visit_of mapping (VStr (J "b"))) with (Visit [VStr (J "a")]).
    simpl. rewrite (proj1 (IH _)), (proj2 (IH _)). split; reflexivity. }
  destruct fuel as [|fuel]; [reflexivity|].
  rewrite walk_unfold.
  change (visit_of mapping (VStr ROOT)) with (Visit [VStr (J "a")]).
  simpl. now rewrite (proj1 (Hab _ _)).
Qed.

End TraversalTheorem.

(** ** The language tag of a code block *)

Section CodeBlocks.
Import Index.

Lemma starts_with_nil_r (p : list N) : p <> [] -> starts_with p [] = false.
Proof. destruct p; [congruence | reflexivity]. Qed.






End CodeBlocks.

(** ** The visibility filter *)

Section Visibility.
Import Index.

Lemma bind_Ok_r {A : Type} (m : result A) : bind m (fun a => Ok a) = m.
Proof. destruct m; reflexivity. Qed.

(** A node the filter rejects leaves no trace in the filtered list. *)
Lemma filterM_rejected {A : Type} (f : A -> result bool) (node : A) (l1 l2 : list A) :
  f node = Ok false -> filterM f (l1 ++ node :: l2) = filterM f (l1 ++ l2).
Proof.
  intros H. induction l1 as [|a l1 IH]; simpl.
  - rewrite H. cbn [bind]. apply bind_Ok_r.
  - now rewrite IH.
Qed.

Lemma banned_key_found (text : list N) (props : list (list N * value)) (k : list N) :
  Json.parse text = Some (VObj props) ->
  In k (map fst props) -> In k banned ->
  parses_with_banned_key text = true.
Proof.
  intros Hp Hk Hb. unfold parses_with_banned_key. rewrite Hp. cbn [object_keys].
  apply existsb_exists. exists k. split; [exact Hk|].
  apply existsb_exists. exists k. split; [exact Hb|].
  unfold str_eqb. now apply bool_decide_eq_true.
Qed.

(** The document is the front matter, the title and the text of the
    messages, the last computed from what the mapping has under the
    identifiers of the traversal. *)
Lemma document_parts (fuel : nat) (conversation : value) (name markdownContent : list N) :
  document fuel conversation = Some (Ok (name, markdownContent)) ->
  exists heading metadata mapping ids members messages,
    prelude conversation = Ok (name, heading, metadata)
    /\ get conversation (J "mapping") = Ok mapping
    /\ getOrderedNodeIds fuel conversation = Some (Ok ids)
    /\ mapM (fun id => get_member mapping (to_string id)) ids = Ok members
    /\ Spec.rendered members = Ok messages
    /\ markdownContent = metadata ++ [NL; NL] ++ heading ++ [NL; NL] ++ messages.
Proof.
  unfold document, orderedMessages, Spec.rendered.
  destruct (prelude conversation) as [[[name' heading] metadata]|e]; [|discriminate].
  destruct (getOrderedNodeIds fuel conversation) as [[ids|e]|]; try discriminate.
  destruct (get conversation (J "mapping")) as [mapping|e]; [|discriminate].
  cbn [bind].
  destruct (mapM _ ids) as [members|e] eqn:Em; [|discriminate]. cbn [bind].
  destruct (filterM include_member members) as [kept|e] eqn:Ef; [|discriminate].
  cbn [bind].
  destruct (renderMessages (own_nodes kept)) as [messages|e] eqn:Er; [|discriminate].
  cbn [bind]. intros H. injection H as <- <-.
  exists heading, metadata, mapping, ids, members, messages.
  rewrite Ef. cbn [bind]. repeat split; assumption.
Qed.

(** The model printed in the front matter is the first truthy
    [model_slug] of the mapping, whichever node carries it. *)
Lemma modelName_first (before after : list (list N * value)) (key : list N)
  (node : value) :
  Forall (fun p => truthy (Spec.slug_of (snd p)) = false) before ->
  truthy (Spec.slug_of node) = true ->
  modelName (VObj (before ++ (key, node) :: after)) = Ok (Spec.slug_of node).
Proof.
  intros Hb Hn. unfold modelName. cbn [object_values bind]. f_equal.
  rewrite !map_app. cbn [map snd].
  change (opt_get (opt_get (opt_get node (J "message")) (J "metadata")) (J "model_slug"))
    with (Spec.slug_of node).
  induction Hb as [|p before Hp Hb IH]; cbn [map app List.find snd].
  - now rewrite Hn.
  - change (opt_get (opt_get (opt_get (snd p) (J "message")) (J "metadata")) (J "model_slug"))
      with (Spec.slug_of (snd p)).
    rewrite Hp. exact IH.
Qed.

(** C6, as amended: a message of the assistant whose raw text parses as
    an object with a banned key is rejected by the filter, and adds
    nothing to the text of the messages: with its node among those of the
    traversal, the text that follows the title in the document is the
    same as without it.  The front matter is computed from the mapping
    before the filter: when the node is the first of the mapping with a
    truthy [model_slug], that value is printed as the model.  This holds
    in particular for the message whose text is an object with the single
    key search_query. *)
Theorem shouldIncludeMessage_banned_key
  (node message author content : value) (text : list N)
  (props : list (list N * value)) (k : list N) :
  get node (J "message") = Ok message ->
  get message (J "author") = Ok author ->
  get author (J "role") = Ok (VStr (J "assistant")) ->
  get message (J "content") = Ok content ->
  suspectText content = Ok text ->
  Json.parse text = Some (VObj props) ->
  In k (map fst props) ->
  In k banned ->
  shouldIncludeMessage node = Ok false
  /\ (forall before after,
        filterM shouldIncludeMessage (before ++ node :: after)
        = filterM shouldIncludeMessage (before ++ after))
  /\ (forall before after,
        Spec.rendered (before ++ Own node :: after) = Spec.rendered (before ++ after))
  /\ (forall fuel conversation name markdownContent,
        document fuel conversation = Some (Ok (name, markdownContent)) ->
        exists heading metadata mapping ids members messages,
          prelude conversation = Ok (name, heading, metadata)
          /\ get conversation (J "mapping") = Ok mapping
          /\ getOrderedNodeIds fuel conversation = Some (Ok ids)
          /\ mapM (fun id => get_member mapping (to_string id)) ids = Ok members
          /\ Spec.rendered members = Ok messages
          /\ markdownContent = metadata ++ [NL; NL] ++ heading ++ [NL; NL] ++ messages)
  /\ (forall before after key,
        Forall (fun p => truthy (Spec.slug_of (snd p)) = false) before ->
        truthy (Spec.slug_of node) = true ->
        modelName (VObj (before ++ (key, node) :: after)) = Ok (Spec.slug_of node))
  /\ Json.parse Samples.search_text = Some (VObj [(J "search_query", VStr (J "x"))])
  /\ shouldIncludeMessage Samples.search_node = Ok false.
Proof.
  intros Hm Ha Hr Hc Ht Hp Hk Hb.
  assert (H : shouldIncludeMessage node = Ok false).
  { unfold shouldIncludeMessage.
    destruct (negb (truthy node)); [reflexivity|].
    rewrite Hm. cbn [bind].
    destruct (negb (truthy message)); [reflexivity|].
    destruct (get message (J "metadata")) as [metadata|e] eqn:Em;
      [|unfold get in Em, Ha; destruct (nullish message); discriminate].
    cbn [bind].
    destruct (get (or_else metadata (VObj [])) (J "is_visually_hidden_from_conversation"))
      as [hidden|e] eqn:Eh.
    2:{ unfold get, or_else in Eh. destruct metadata as [| |[]|z|[]| |]; try discriminate.
        destruct (truthy (VNum z)); discriminate. }
    cbn [bind]. destruct (truthy hidden); [reflexivity|].
    destruct (get (or_else metadata (VObj [])) (J "reasoning_status")) as [status|e] eqn:Es.
    2:{ unfold get, or_else in Es. destruct metadata as [| |[]|z|[]| |]; try discriminate.
        destruct (truthy (VNum z)); discriminate. }
    cbn [bind]. destruct (is_str status (J "reasoning_ended")); [reflexivity|].
    rewrite Ha. cbn [bind]. rewrite Hr. cbn [bind].
    change (is_empty_system message (VStr (J "assistant"))) with (Ok (A := bool) false).
    cbn [bind]. change (is_str (VStr (J "assistant")) (J "assistant")) with true. cbv iota.
    rewrite Hc. cbn [bind]. rewrite Ht. cbn [bind].
    now rewrite (banned_key_found text props k Hp Hk Hb). }
  split; [exact H|].
  split; [intros before after; now apply filterM_rejected|].
  split.
  { intros before after. unfold Spec.rendered.
    now rewrite (filterM_rejected include_member (Own node) before after H). }
  split; [exact document_parts|].
  split; [intros before after key; apply modelName_first|].
  split; vm_compute; reflexivity.
Qed.

Lemma shouldIncludeMessage_banned_key_witness :
  shouldIncludeMessage Samples.search_node = Ok false
  /\ forall before after,
       Spec.rendered (before ++ Own Samples.search_node :: after)
       = Spec.rendered (before ++ after).
Proof.
  destruct (shouldIncludeMessage_banned_key Samples.search_node
              (get_own Samples.search_node (J "message"))
              (VObj [(J "role", VStr (J "assistant"))])
              (Samples.text_content [Samples.search_text])
              Samples.search_text
              [(J "search_query", VStr (J "x"))]
              (J "search_query")
              ltac:(vm_compute; reflexivity) ltac:(vm_compute; reflexivity)
              ltac:(vm_compute; reflexivity) ltac:(vm_compute; reflexivity)
              ltac:(vm_compute; reflexivity) ltac:(vm_compute; reflexivity)
              ltac:(left; reflexivity) ltac:(right; left; reflexivity))
    as (H1 & _ & H2 & _).
  split; assumption.
Defined.

(** The claim as stated fails on the front matter: the message of
    [Samples.slug_node] is a command of the assistant with the key
    search_query, the filter rejects it, and the document of the
    conversation that has it is six code units longer than the document
    of the same conversation without it, the six of the model it names. *)
Lemma excluded_message_model_counterexample :
  Json.parse Samples.search_text = Some (VObj [(J "search_query", VStr (J "x"))])
  /\ shouldIncludeMessage Samples.slug_node = Ok false
  /\ exists name with_message without_message,
       document 3 (Samples.search_conversation [(J "n1", Samples.slug_node)])
       = Some (Ok (name, with_message))
       /\ document 3 (Samples.search_conversation []) = Some (Ok (name, without_message))
       /\ length with_message = (length without_message + 6)%nat
       /\ with_message <> without_message.
Proof.
  split; [vm_compute; reflexivity|]. split; [vm_compute; reflexivity|].
  destruct (document 3 (Samples.search_conversation [(J "n1", Samples.slug_node)]))
    as [[[name d1]|]|] eqn:E1; try (vm_compute in E1; discriminate).
  destruct (document 3 (Samples.search_conversation []))
    as [[[name2 d2]|]|] eqn:E2; try (vm_compute in E2; discriminate).
  vm_compute in E1. vm_compute in E2.
  injection E1 as <- <-. injection E2 as <- <-.
  eexists _, _, _. split; [reflexivity|]. split; [reflexivity|].
  split; [vm_compute; reflexivity|]. intros H.
  apply (f_equal (@length N)) in H. vm_compute in H. discriminate.
Qed.

End Visibility.

(** ** The reasoning callouts *)

Section Callouts.
Import Index.

(** A normal message leaves the state of the loop as it is and pushes
    its rendering only. *)
Lemma loop_step_normal (st : loop_state) (n : value) (md : list N) :
  isReason n = Ok false ->
  nodeToMarkdown n false = Ok md ->
  loop_step st n = Ok (mkLoop (inCallout st) (parts st ++ [md])).
Proof. intros Hr Hn. unfold loop_step. now rewrite Hr, Hn. Qed.

(** Once in a callout the loop stays in it. *)
Lemma loop_stays_in_callout (l : list value) (st st' : loop_state) :
  loop st l = Ok st' -> inCallout st = true -> inCallout st' = true.
Proof.
  revert st. induction l as [|n l IH]; intros st; simpl.
  - now intros [= <-].
  - destruct (loop_step st n) as [st1|] eqn:E; [|discriminate]. simpl.
    intros H Hin. apply (IH st1 H).
    unfold loop_step in E. destruct (isReason n) as [[]|]; simpl in E; try discriminate.
    + destruct (nodeToMarkdown n true); simpl in E; [|discriminate].
      now injection E as <-.
    + destruct (nodeToMarkdown n false); simpl in E; [|discriminate].
      injection E as <-. exact Hin.
Qed.

(** The earlier copy closes the callout before a normal message. *)
Lemma legacy_loop_step_normal (st : loop_state) (n : value) (md : list N) :
  isReason n = Ok false ->
  Legacy.nodeToMarkdown n false = Ok md ->
  Legacy.loop_step st n
  = Ok (mkLoop false (parts st ++ (if inCallout st then [[NL]] else []) ++ [md])).
Proof. intros Hr Hn. unfold Legacy.loop_step. now rewrite Hr, Hn. Qed.

(** C1 fails on [index.js]: a normal message met in a callout is pushed
    as it is, without a closing blank line before it, and the loop stays
    in the callout.  So after three reasoning messages the normal message
    comes right behind the last nested line and the closing blank line
    comes only at the end of the stream.  The earlier copy of the loop
    pushes the blank line before the normal message and leaves the
    callout. *)
Theorem callout_not_closed_before_normal_message :
  (forall st n md,
      isReason n = Ok false ->
      nodeToMarkdown n false = Ok md ->
      loop_step st n = Ok (mkLoop (inCallout st) (parts st ++ [md])))
  /\ orderedMessages 6 Samples.reasoning_conversation = Some (Ok Samples.three_then_answer)
  /\ loop (mkLoop false []) Samples.three_then_answer
     = Ok (mkLoop true
             [OUTER_HEADER;
              example_header (J "Reasoning"); J ">> first" ++ [NL];
              SEPARATOR;
              example_header (J "Reasoning"); J ">> second" ++ [NL];
              SEPARATOR;
              example_header (J "Reasoning"); J ">> third" ++ [NL];
              J "## assistant" ++ [NL; NL] ++ J "Done" ++ [NL; NL]])
  /\ renderMessages Samples.three_then_answer
     = Ok (OUTER_HEADER ++
           example_header (J "Reasoning") ++ J ">> first" ++ [NL] ++
           SEPARATOR ++
           example_header (J "Reasoning") ++ J ">> second" ++ [NL] ++
           SEPARATOR ++
           example_header (J "Reasoning") ++ J ">> third" ++ [NL] ++
           J "## assistant" ++ [NL; NL] ++ J "Done" ++ [NL; NL] ++
           [NL])
  /\ Legacy.loop (mkLoop false []) Samples.three_then_answer
     = Ok (mkLoop false
             [OUTER_HEADER;
              example_header (J "Reasoning"); J ">> first" ++ [NL];
              SEPARATOR;
              example_header (J "Reasoning"); J ">> second" ++ [NL];
              SEPARATOR;
              example_header (J "Reasoning"); J ">> third" ++ [NL];
              [NL];
              J "## assistant" ++ [NL; NL] ++ J "Done" ++ [NL; NL]]).
Proof.
  split; [exact loop_step_normal|].
  repeat split; vm_compute; reflexivity.
Qed.

End Callouts.

(** ** The citation map *)

Section CitationMap.
Import Index Spec.



Lemma safeTitle_link_title (c : value) :
  well_formed_citation c ->
  truthy (get_own c (J "url")) = true ->
  safeTitle (get_own c (J "url")) (get_own c (J "title")) = Ok (link_title c).
Proof.
  intros (_ & Hu & Ht) Htr. unfold safeTitle, link_title.
  assert (Hs : exists t, or_else (get_own c (J "title")) (VStr []) = VStr t).
  { unfold or_else, string_or_falsy in *.
    destruct (get_own c (J "title")) as [| |b|z|s|l|o];
      try (rewrite Ht; eauto); try discriminate; cbn [truthy]; eauto.
    destruct s; eauto. }
  destruct Hs as (t & ->). cbn [as_string bind to_string].
  destruct (trim t) as [|x r]; [|reflexivity].
  unfold string_or_falsy in Hu.
  destruct (get_own c (J "url")) as [| |b|z|s|l|o];
    try (rewrite Hu in Htr; discriminate).
  reflexivity.
Qed.





Lemma sample_citations_well_formed : Forall well_formed_citation Samples.sample_citations.
Proof. repeat constructor. Qed.


(** In the sample the second citation with the key [a] is the one bound,
    and the key [b], which has no address, is not bound. *)
Example sample_citations_bindings :
  last_binding (J "a") Samples.sample_citations = Some (J "[2](https://x.y/2)")
  /\ last_binding (J "b") Samples.sample_citations = None.
Proof. split; vm_compute; reflexivity. Qed.


End CitationMap.

(** ** The times of the file, on a sample and in the earlier copy *)

Section TimestampSamples.
Import Index.

Lemma utimes_create_then_update_witness :
  exists data,
    trace (chatgptToMarkdown 3 (VArr [Samples.sample_conversation]) (VStr (J "out")))
    = [WriteFile (mkPath (J "out") (J "Sample.md")) data;
       Utimes (mkPath (J "out") (J "Sample.md")) (VNum 1700000000) (VNum 1700000100)].
Proof.
  destruct (utimes_create_then_update 3 [Samples.sample_conversation] (J "out"))
    as ((done & rest & Hcs & Htr & Hrest) & Hok & _).
  assert (Ho : outcome (chatgptToMarkdown 3 (VArr [Samples.sample_conversation])
                          (VStr (J "out"))) = Some (Ok tt))
    by (vm_compute; reflexivity).
  specialize (Hok Ho). apply Forall_inv in Hok as (name & data & Hn & Ht).
  rewrite (Hrest Ho), app_nil_r in Hcs. subst done.
  cbn [flat_map] in Htr. rewrite app_nil_r, Ht in Htr.
  vm_compute in Hn. injection Hn as <-.
  exists data. exact Htr.
Defined.

(** The earlier copy passes the two times in the other order: the
    update time as access time and the creation time as modification
    time. *)
Lemma legacy_convert_events (fuel : nat) (dir : list N) (conv : value)
  (events : list fs_event) :
  Legacy.convert fuel dir conv = mkRun events (Some (Ok tt)) ->
  exists name data,
    events = [WriteFile (mkPath dir name) data;
              Utimes (mkPath dir name) (get_own conv (J "update_time"))
                (get_own conv (J "create_time"))].
Proof.
  unfold Legacy.convert. intros H.
  destruct (Legacy.document fuel conv) as [[[name data]|e]|]; try discriminate.
  unfold Legacy.store, get in H.
  destruct (valid_path (mkPath dir name)); [|discriminate].
  destruct (nullish conv); [discriminate|].
  destruct (valid_time (get_own conv (J "update_time"))
            && valid_time (get_own conv (J "create_time"))); [|discriminate].
  injection H as <-. eauto.
Qed.

End TimestampSamples.

(** ** The fuel of the JSON reader

    The reader recurses on fuel.  Each call reads at least one character
    before it calls again, so what is left of the text shrinks, and the
    fuel that [parse] provides is never used up: more fuel gives the same
    result. *)

Section ParserFuel.
Import Json.

Lemma skip_ws_length (s : list N) : (length (skip_ws s) <= length s)%nat.
Proof.
  induction s as [|c s IH]; simpl; [lia|].
  destruct (is_json_space c); simpl; lia.
Qed.

Lemma skip_ws_cons_length (s s' : list N) (c : N) :
  skip_ws s = c :: s' -> (length s' < length s)%nat.
Proof. intros H. pose proof (skip_ws_length s) as L. rewrite H in L. simpl in L. lia. Qed.

Lemma cons_fst_inv (c : N) (r : option (list N * list N)) (str rest : list N) :
  cons_fst c r = Some (str, rest) -> exists str', r = Some (str', rest).
Proof. destruct r as [[a b]|]; simpl; [|discriminate]. intros [= _ <-]. eauto. Qed.

Lemma parse_string_length (s str rest : list N) :
  parse_string s = Some (str, rest) -> (length rest < length s)%nat.
Proof.
  remember (length s) as n eqn:Hn. revert s str rest Hn.
  induction n as [n IH] using lt_wf_ind. intros s str rest -> H.
  destruct s as [|c s]; simpl in H; [discriminate|].
  destruct (c =? DQ); [injection H as _ <-; simpl; lia|].
  destruct (c <? 32); [discriminate|].
  destruct (c =? BSL).
  - destruct s as [|e s]; [discriminate|].
    destruct (e =? 117).
    + destruct s as [|h1 [|h2 [|h3 [|h4 s]]]]; try discriminate.
      destruct (hex_value h1), (hex_value h2), (hex_value h3), (hex_value h4);
        try discriminate.
      apply cons_fst_inv in H as (str' & H).
      pose proof (IH (length s) ltac:(simpl; lia) s str' rest eq_refl H). simpl. lia.
    + destruct (simple_escape e); [|discriminate].
      apply cons_fst_inv in H as (str' & H).
      pose proof (IH (length s) ltac:(simpl; lia) s str' rest eq_refl H). simpl. lia.
  - apply cons_fst_inv in H as (str' & H).
    pose proof (IH (length s) ltac:(simpl; lia) s str' rest eq_refl H). simpl. lia.
Qed.

Lemma some_digits_length (s ds rest : list N) :
  some_digits s = Some (ds, rest) -> (length rest <= length s)%nat.
Proof.
  unfold some_digits. destruct (Nat.eqb _ 0); [discriminate|].
  intros [= _ <-]. rewrite length_skipn. lia.
Qed.

Lemma parse_number_length (s : list N) (z : Z) (rest : list N) :
  parse_number s = Some (z, rest) -> (length rest < length s)%nat.
Proof.
  unfold parse_number.
  set (p := match s with
            | c :: t => if c =? 45 then (true, t) else (false, s)
            | [] => (false, s)
            end).
  assert (Hp : (length (snd p) <= length s)%nat).
  { subst p. destruct s as [|c t]; simpl; [lia|]. destruct (c =? 45); simpl; lia. }
  destruct p as [neg s1]. simpl in Hp.
  destruct (int_digits s1) as [[ids s2]|] eqn:Ei; [|discriminate].
  assert (H2 : (length s2 < length s1)%nat).
  { unfold int_digits in Ei. destruct s1 as [|c t]; [discriminate|].
    destruct (c =? 48); [injection Ei as _ <-; simpl; lia|].
    destruct (is_digit c) eqn:Ed; [|discriminate].
    injection Ei as _ <-. rewrite length_skipn. simpl. rewrite Ed. simpl. lia. }
  destruct (parse_fraction s2) as [[fds s3]|] eqn:Ef; [|discriminate].
  assert (H3 : (length s3 <= length s2)%nat).
  { unfold parse_fraction in Ef. destruct s2 as [|c t]; [injection Ef as _ <-; lia|].
    destruct (c =? 46); [|injection Ef as _ <-; lia].
    apply some_digits_length in Ef. simpl. lia. }
  destruct (parse_exponent s3) as [[e s4]|] eqn:Ee; [|discriminate].
  assert (H4 : (length s4 <= length s3)%nat).
  { unfold parse_exponent in Ee. destruct s3 as [|c t]; [injection Ee as _ <-; lia|].
    destruct ((c =? 101) || (c =? 69)); [|injection Ee as _ <-; lia].
    set (q := match t with
              | sg :: t' => if sg =? 45 then (true, t')
                            else if sg =? 43 then (false, t') else (false, t)
              | [] => (false, t)
              end) in Ee.
    assert (Hq : (length (snd q) <= length t)%nat).
    { subst q. destruct t as [|sg t']; simpl; [lia|].
      destruct (sg =? 45); simpl; [lia|]. destruct (sg =? 43); simpl; lia. }
    destruct q as [ng t2]. simpl in Hq.
    destruct (some_digits t2) as [[ds r]|] eqn:Es; [|discriminate].
    injection Ee as _ <-. apply some_digits_length in Es. simpl. lia. }
  intros [= _ <-]. lia.
Qed.

Lemma parse_shrinks (fuel : nat) :
  (forall s v rest, parse_value fuel s = Some (v, rest) -> (length rest < length s)%nat)
  /\ (forall s k v rest,
        parse_member fuel s = Some (k, v, rest) -> (length rest < length s)%nat)
  /\ (forall s acc v rest,
        parse_members fuel s acc = Some (v, rest) -> (length rest < length s)%nat)
  /\ (forall s acc v rest,
        parse_elements fuel s acc = Some (v, rest) -> (length rest < length s)%nat).
Proof.
  induction fuel as [|fuel (IHv & IHm & IHms & IHes)];
    [repeat split; intros; discriminate|].
  split; [|split; [|split]].
  - intros s v rest H. cbn [parse_value] in H.
    destruct (skip_ws s) as [|c s1] eqn:E1; [discriminate|].
    pose proof (skip_ws_cons_length _ _ _ E1) as L1.
    destruct (c =? 123).
    { destruct (skip_ws s1) as [|d s2] eqn:E2; [discriminate|].
      pose proof (skip_ws_length s1) as L2. rewrite E2 in L2. simpl in L2.
      destruct (d =? 125); [injection H as _ <-; lia|].
      destruct (parse_member fuel (d :: s2)) as [[[k v1] r]|] eqn:Em; [|discriminate].
      apply IHm in Em. apply IHms in H. simpl in Em. lia. }
    destruct (c =? 91).
    { destruct (skip_ws s1) as [|d s2] eqn:E2; [discriminate|].
      pose proof (skip_ws_length s1) as L2. rewrite E2 in L2. simpl in L2.
      destruct (d =? 93); [injection H as _ <-; lia|].
      destruct (parse_value fuel (d :: s2)) as [[v1 r]|] eqn:Ev; [|discriminate].
      apply IHv in Ev. apply IHes in H. simpl in Ev. lia. }
    destruct (c =? DQ).
    { destruct (parse_string s1) as [[str r]|] eqn:Es; [|discriminate].
      injection H as _ <-. apply parse_string_length in Es. lia. }
    destruct (starts_with (J "true") (c :: s1));
      [injection H as _ <-; rewrite length_skipn; simpl; lia|].
    destruct (starts_with (J "false") (c :: s1));
      [injection H as _ <-; rewrite length_skipn; simpl; lia|].
    destruct (starts_with (J "null") (c :: s1));
      [injection H as _ <-; rewrite length_skipn; simpl; lia|].
    destruct (parse_number (c :: s1)) as [[z r]|] eqn:En; [|discriminate].
    injection H as _ <-. apply parse_number_length in En. simpl in En. lia.
  - intros s k v rest H. cbn [parse_member] in H.
    destruct (skip_ws s) as [|c s1] eqn:E1; [discriminate|].
    pose proof (skip_ws_cons_length _ _ _ E1) as L1.
    destruct (c =? DQ); [|discriminate].
    destruct (parse_string s1) as [[k1 r1]|] eqn:Es; [|discriminate].
    apply parse_string_length in Es.
    destruct (skip_ws r1) as [|d r2] eqn:E2; [discriminate|].
    pose proof (skip_ws_cons_length _ _ _ E2) as L2.
    destruct (d =? 58); [|discriminate].
    destruct (parse_value fuel r2) as [[v1 r3]|] eqn:Ev; [|discriminate].
    injection H as _ _ <-. apply IHv in Ev. lia.
  - intros s acc v rest H. cbn [parse_members] in H.
    destruct (skip_ws s) as [|c s1] eqn:E1; [discriminate|].
    pose proof (skip_ws_cons_length _ _ _ E1) as L1.
    destruct (c =? 125); [injection H as _ <-; lia|].
    destruct (c =? 44); [|discriminate].
    destruct (parse_member fuel s1) as [[[k v1] r]|] eqn:Em; [|discriminate].
    apply IHm in Em. apply IHms in H. lia.
  - intros s acc v rest H. cbn [parse_elements] in H.
    destruct (skip_ws s) as [|c s1] eqn:E1; [discriminate|].
    pose proof (skip_ws_cons_length _ _ _ E1) as L1.
    destruct (c =? 93); [injection H as _ <-; lia|].
    destruct (c =? 44); [|discriminate].
    destruct (parse_value fuel s1) as [[v1 r]|] eqn:Ev; [|discriminate].
    apply IHv in Ev. apply IHes in H. lia.
Qed.

(** One step of each of the four functions. *)
Lemma parse_value_S (fuel : nat) (s : list N) :
  parse_value (S fuel) s
  = ltac:(let t := eval cbn [parse_value] in (parse_value (S fuel) s) in exact t).
Proof. reflexivity. Qed.

Lemma parse_member_S (fuel : nat) (s : list N) :
  parse_member (S fuel) s
  = ltac:(let t := eval cbn [parse_member] in (parse_member (S fuel) s) in exact t).
Proof. reflexivity. Qed.

Lemma parse_members_S (fuel : nat) (s : list N) (acc : list (list N * value)) :
  parse_members (S fuel) s acc
  = ltac:(let t := eval cbn [parse_members] in (parse_members (S fuel) s acc) in exact t).
Proof. reflexivity. Qed.

Lemma parse_elements_S (fuel : nat) (s : list N) (acc : list value) :
  parse_elements (S fuel) s acc
  = ltac:(let t := eval cbn [parse_elements] in (parse_elements (S fuel) s acc) in exact t).
Proof. reflexivity. Qed.

(** With more fuel than the text is long, one more unit of fuel changes
    nothing. *)
Lemma parse_fuel_step (fuel : nat) :
  (forall s, (length s < fuel)%nat -> parse_value (S fuel) s = parse_value fuel s)
  /\ (forall s, (length s < fuel)%nat -> parse_member (S fuel) s = parse_member fuel s)
  /\ (forall s acc, (length s < fuel)%nat ->
                    parse_members (S fuel) s acc = parse_members fuel s acc)
  /\ (forall s acc, (length s < fuel)%nat ->
                    parse_elements (S fuel) s acc = parse_elements fuel s acc).
Proof.
  induction fuel as [|fuel (IHv & IHm & IHms & IHes)];
    [repeat split; intros; lia|].
  destruct (parse_shrinks fuel) as (Sv & Sm & Sms & Ses).
  split; [|split; [|split]].
  - intros s L. rewrite (parse_value_S (S fuel) s), (parse_value_S fuel s).
    destruct (skip_ws s) as [|c s1] eqn:E1; [reflexivity|].
    pose proof (skip_ws_cons_length _ _ _ E1) as L1.
    destruct (c =? 123).
    { destruct (skip_ws s1) as [|d s2] eqn:E2; [reflexivity|].
      pose proof (skip_ws_length s1) as L2. rewrite E2 in L2. simpl in L2.
      destruct (d =? 125); [reflexivity|].
      rewrite (IHm (d :: s2)) by (simpl; lia).
      destruct (parse_member fuel (d :: s2)) as [[[k v1] r]|] eqn:Em; [|reflexivity].
      apply Sm in Em. simpl in Em. apply IHms. lia. }
    destruct (c =? 91).
    { destruct (skip_ws s1) as [|d s2] eqn:E2; [reflexivity|].
      pose proof (skip_ws_length s1) as L2. rewrite E2 in L2. simpl in L2.
      destruct (d =? 93); [reflexivity|].
      rewrite (IHv (d :: s2)) by (simpl; lia).
      destruct (parse_value fuel (d :: s2)) as [[v1 r]|] eqn:Ev; [|reflexivity].
      apply Sv in Ev. simpl in Ev. apply IHes. lia. }
    reflexivity.
  - intros s L. rewrite (parse_member_S (S fuel) s), (parse_member_S fuel s).
    destruct (skip_ws s) as [|c s1] eqn:E1; [reflexivity|].
    pose proof (skip_ws_cons_length _ _ _ E1) as L1.
    destruct (c =? DQ); [|reflexivity].
    destruct (parse_string s1) as [[k1 r1]|] eqn:Es; [|reflexivity].
    apply parse_string_length in Es.
    destruct (skip_ws r1) as [|d r2] eqn:E2; [reflexivity|].
    pose proof (skip_ws_cons_length _ _ _ E2) as L2.
    destruct (d =? 58); [|reflexivity].
    rewrite (IHv r2) by lia. reflexivity.
  - intros s acc L. rewrite (parse_members_S (S fuel) s), (parse_members_S fuel s).
    destruct (skip_ws s) as [|c s1] eqn:E1; [reflexivity|].
    pose proof (skip_ws_cons_length _ _ _ E1) as L1.
    destruct (c =? 125); [reflexivity|].
    destruct (c =? 44); [|reflexivity].
    rewrite (IHm s1) by lia.
    destruct (parse_member fuel s1) as [[[k v1] r]|] eqn:Em; [|reflexivity].
    apply Sm in Em. apply IHms. lia.
  - intros s acc L. rewrite (parse_elements_S (S fuel) s), (parse_elements_S fuel s).
    destruct (skip_ws s) as [|c s1] eqn:E1; [reflexivity|].
    pose proof (skip_ws_cons_length _ _ _ E1) as L1.
    destruct (c =? 93); [reflexivity|].
    destruct (c =? 44); [|reflexivity].
    rewrite (IHv s1) by lia.
    destruct (parse_value fuel s1) as [[v1 r]|] eqn:Ev; [|reflexivity].
    apply Sv in Ev. apply IHes. lia.
Qed.

(** The fuel of [parse] is enough: any larger amount gives the same
    value. *)
Lemma parse_value_fuel_enough (s : list N) (fuel : nat) :
  (length s < fuel)%nat -> parse_value fuel s = parse_value (S (length s)) s.
Proof.
  intros L. induction fuel as [|fuel IH]; [lia|].
  destruct (Nat.eq_dec fuel (length s)) as [->|Hne]; [reflexivity|].
  rewrite (proj1 (parse_fuel_step fuel)) by lia. apply IH. lia.
Qed.

End ParserFuel.

(** ** The text of a value and its reading *)

Section Serialisation.
Import Json Spec.


Lemma J_cons (a : ascii) (s : string) : J (String a s) = N_of_ascii a :: J s.
Proof. reflexivity. Qed.

Lemma hex_value_digit (n : N) : n < 16 -> hex_value (hex_digit n) = Some n.
Proof.
  intros H. rewrite <- (N2Nat.id n).
  assert (L : (N.to_nat n < 16)%nat) by lia.
  destruct (N.to_nat n) as [|i]; [reflexivity|].
  do 15 (destruct i as [|i]; [reflexivity|]). lia.
Qed.

Lemma parse_string_raw (c : N) (s : list N) :
  (c =? DQ) = false -> (c <? 32) = false -> (c =? BSL) = false ->
  parse_string (c :: s) = cons_fst c (parse_string s).
Proof. intros H1 H2 H3. cbn [parse_string]. now rewrite H1, H2, H3. Qed.

Lemma parse_string_simple (e ch : N) (s : list N) :
  simple_escape e = Some ch -> (e =? 117) = false ->
  parse_string (BSL :: e :: s) = cons_fst ch (parse_string s).
Proof.
  intros H1 H2. cbn [parse_string].
  change (BSL =? DQ) with false. change (BSL <? 32) with false.
  change (BSL =? BSL) with true. cbv iota. now rewrite H2, H1.
Qed.

Lemma parse_string_unicode (c : N) (s : list N) :
  c < 65536 -> parse_string (unicode_escape c ++ s) = cons_fst c (parse_string s).
Proof.
  intros H. unfold unicode_escape.
  set (a := c / 4096 mod 16). set (b := c / 256 mod 16).
  set (c' := c / 16 mod 16). set (d := c mod 16).
  cbn [app parse_string].
  change (BSL =? DQ) with false. change (BSL <? 32) with false.
  change (BSL =? BSL) with true. change (117 =? 117) with true. cbv iota.
  rewrite !hex_value_digit by (apply N.mod_lt; discriminate).
  replace (4096 * a + 256 * b + 16 * c' + d) with c; [reflexivity|].
  subst a b c' d. zify. Z.to_euclidean_division_equations. lia.
Qed.

Lemma high_surrogate_raw (c : N) :
  is_high_surrogate c = true ->
  (c =? DQ) = false /\ (c <? 32) = false /\ (c =? BSL) = false /\ c < 65536.
Proof.
  unfold is_high_surrogate, DQ, BSL. intros H. apply andb_true_iff in H.
  destruct H as [H1 H2]. apply N.leb_le in H1, H2.
  repeat split; try (apply N.eqb_neq; lia); try (apply N.ltb_ge; lia); lia.
Qed.

Lemma low_surrogate_raw (c : N) :
  is_low_surrogate c = true ->
  (c =? DQ) = false /\ (c <? 32) = false /\ (c =? BSL) = false /\ c < 65536.
Proof.
  unfold is_low_surrogate, DQ, BSL. intros H. apply andb_true_iff in H.
  destruct H as [H1 H2]. apply N.leb_le in H1, H2.
  repeat split; try (apply N.eqb_neq; lia); try (apply N.ltb_ge; lia); lia.
Qed.

(** Reading back the body of a quoted string gives the string. *)
Lemma parse_string_quote_chars (n : nat) (s rest : list N) :
  (length s <= n)%nat ->
  parse_string (quote_chars s ++ DQ :: rest) = Some (s, rest).
Proof.
  revert s. induction n as [|n IH]; intros s L.
  { destruct s; [reflexivity | simpl in L; lia]. }
  destruct s as [|c s]; [reflexivity|].
  assert (IHs : parse_string (quote_chars s ++ DQ :: rest) = Some (s, rest))
    by (apply IH; simpl in L; lia).
  cbn [quote_chars].
  destruct (c =? DQ) eqn:E1.
  { apply N.eqb_eq in E1. subst c. cbn [app].
    rewrite (parse_string_simple DQ DQ) by reflexivity. now rewrite IHs. }
  destruct (c =? BSL) eqn:E2.
  { apply N.eqb_eq in E2. subst c. cbn [app].
    rewrite (parse_string_simple BSL BSL) by reflexivity. now rewrite IHs. }
  destruct (c =? 8) eqn:E3.
  { apply N.eqb_eq in E3. subst c. cbn [app].
    rewrite (parse_string_simple 98 8) by reflexivity. now rewrite IHs. }
  destruct (c =? 12) eqn:E4.
  { apply N.eqb_eq in E4. subst c. cbn [app].
    rewrite (parse_string_simple 102 12) by reflexivity. now rewrite IHs. }
  destruct (c =? 10) eqn:E5.
  { apply N.eqb_eq in E5. subst c. cbn [app].
    rewrite (parse_string_simple 110 10) by reflexivity. now rewrite IHs. }
  destruct (c =? 13) eqn:E6.
  { apply N.eqb_eq in E6. subst c. cbn [app].
    rewrite (parse_string_simple 114 13) by reflexivity. now rewrite IHs. }
  destruct (c =? 9) eqn:E7.
  { apply N.eqb_eq in E7. subst c. cbn [app].
    rewrite (parse_string_simple 116 9) by reflexivity. now rewrite IHs. }
  destruct (c <? 32) eqn:E8.
  { apply N.ltb_lt in E8. rewrite <- app_assoc.
    rewrite parse_string_unicode by lia. now rewrite IHs. }
  destruct (is_high_surrogate c) eqn:E9.
  { destruct (high_surrogate_raw c E9) as (R1 & R2 & R3 & R4).
    destruct s as [|d s].
    - rewrite parse_string_unicode by exact R4. reflexivity.
    - destruct (is_low_surrogate d) eqn:E10.
      + destruct (low_surrogate_raw d E10) as (D1 & D2 & D3 & _).
        cbn [app]. rewrite (parse_string_raw c), (parse_string_raw d) by assumption.
        rewrite (IH s) by (simpl in L; lia). reflexivity.
      + rewrite <- app_assoc. rewrite parse_string_unicode by exact R4.
        now rewrite IHs. }
  destruct (is_low_surrogate c) eqn:E10.
  { destruct (low_surrogate_raw c E10) as (_ & _ & _ & R4).
    rewrite <- app_assoc. rewrite parse_string_unicode by exact R4. now rewrite IHs. }
  cbn [app]. rewrite parse_string_raw by assumption. now rewrite IHs.
Qed.

Lemma parse_string_quote (s rest : list N) :
  parse_string (quote_chars s ++ DQ :: rest) = Some (s, rest).
Proof. now apply (parse_string_quote_chars (length s)). Qed.


(** *** Numbers *)


Lemma digits_value_fold (ds : list N) : digits_value ds = fold_left digit_step ds 0%Z.
Proof. reflexivity. Qed.

Lemma uint_digits (d : Decimal.uint) :
  Forall (fun c => is_digit c = true) (J (NilEmpty.string_of_uint d)).
Proof.
  induction d; cbn [NilEmpty.string_of_uint]; try rewrite J_cons;
    constructor; (reflexivity || assumption).
Qed.

Lemma uint_fold_acc (d : Decimal.uint) (acc : positive) :
  fold_left digit_step (J (NilEmpty.string_of_uint d)) (Z.pos acc)
  = Z.pos (Pos.of_uint_acc d acc).
Proof.
  revert acc. induction d; intros acc; cbn [NilEmpty.string_of_uint Pos.of_uint_acc];
    try rewrite J_cons; cbn [fold_left]; [reflexivity|..];
    rewrite <- IHd; f_equal; unfold digit_step;
    match goal with
    | |- context [Z.of_N ?x] =>
        let v := eval vm_compute in (Z.of_N x) in change (Z.of_N x) with v
    end; lia.
Qed.

Lemma uint_fold (d : Decimal.uint) :
  fold_left digit_step (J (NilEmpty.string_of_uint d)) 0%Z = Z.of_N (Pos.of_uint d).
Proof.
  induction d; cbn [NilEmpty.string_of_uint Pos.of_uint];
    try rewrite J_cons; cbn [fold_left]; [reflexivity|exact IHd|..];
    (etransitivity; [|apply f_equal; symmetry; reflexivity]);
    cbn [Z.of_N]; rewrite <- uint_fold_acc; reflexivity.
Qed.



Lemma nzhead_not_D0 (d d' : Decimal.uint) : Decimal.nzhead d' <> Decimal.D0 d.
Proof. induction d'; cbn [Decimal.nzhead]; (exact IHd' || discriminate). Qed.

Lemma unorm_D0_nil (d d' : Decimal.uint) :
  Decimal.unorm d' = Decimal.D0 d -> d = Decimal.Nil.
Proof.
  unfold Decimal.unorm. pose proof (nzhead_not_D0 d d') as H.
  destruct (Decimal.nzhead d'); congruence.
Qed.

(** The first digit of a positive number is not a zero. *)
Lemma to_uint_head (p : positive) :
  exists c t, J (NilEmpty.string_of_uint (Pos.to_uint p)) = c :: t /\ c <> 48.
Proof.
  pose proof (Unsigned.to_of (Pos.to_uint p)) as H.
  rewrite Unsigned.of_to in H. cbn [N.to_uint] in H.
  pose proof (Unsigned.to_uint_nonzero p) as Hz.
  pose proof (Unsigned.to_uint_nonnil p) as Hn.
  destruct (Pos.to_uint p) as [|u|u|u|u|u|u|u|u|u|u];
    [congruence| |cbn [NilEmpty.string_of_uint]; rewrite J_cons;
                  eexists _, _; (split; [reflexivity|discriminate])..].
  exfalso. symmetry in H. apply unorm_D0_nil in H. subst u. now apply Hz.
Qed.

Lemma follows_not_digit (rest : list N) :
  follows rest -> match rest with [] => True | c :: _ => is_digit c = false end.
Proof. destruct rest as [|c rest]; [trivial|]. now intros [->|[->| ->]]. Qed.

(** A run of digits without superfluous zero, with or without sign, is
    read as the number it writes. *)
Lemma parse_number_digits (neg : bool) (c : N) (ds rest : list N) :
  Forall (fun x => is_digit x = true) (c :: ds) ->
  c <> 48 \/ ds = [] ->
  follows rest ->
  parse_number ((if neg then [45] else []) ++ (c :: ds) ++ rest)
  = Some ((if neg then - digits_value (c :: ds) else digits_value (c :: ds))%Z, rest).
Proof.
  intros Hd Hz Hf.
  assert (Hc : is_digit c = true) by now inversion Hd.
  assert (H45 : (c =? 45) = false).
  { unfold is_digit in Hc. apply andb_true_iff in Hc. destruct Hc as [Hc _].
    apply N.leb_le in Hc. apply N.eqb_neq. lia. }
  assert (Hint : int_digits ((c :: ds) ++ rest) = Some (c :: ds, rest)).
  { unfold int_digits. cbn [app].
    destruct (c =? 48) eqn:E.
    - apply N.eqb_eq in E. destruct Hz as [Hz| ->]; [congruence|]. reflexivity.
    - rewrite Hc.
      change (c :: ds ++ rest) with ((c :: ds) ++ rest).
      rewrite (span_len_all is_digit (c :: ds) rest Hd (follows_not_digit rest Hf)).
      now rewrite firstn_length_app, skipn_length_app. }
  assert (Hfr : parse_fraction rest = Some ([], rest)).
  { destruct rest as [|x rest]; [reflexivity|]. cbn [parse_fraction].
    now destruct Hf as [->|[->| ->]]. }
  assert (Hex : parse_exponent rest = Some (0%Z, rest)).
  { destruct rest as [|x rest]; [reflexivity|]. cbn [parse_exponent].
    now destruct Hf as [->|[->| ->]]. }
  unfold parse_number.
  destruct neg; cbn [app].
  - change (45 =? 45) with true. cbv iota.
    change (c :: ds ++ rest) with ((c :: ds) ++ rest).
    rewrite Hint, Hfr, Hex. rewrite app_nil_r. cbn [length Z.of_nat].
    change (0 - 0)%Z with 0%Z. cbn [Z.leb Z.compare].
    now rewrite Z.pow_0_r, Z.mul_1_r.
  - rewrite H45.
    change (c :: ds ++ rest) with ((c :: ds) ++ rest).
    rewrite Hint, Hfr, Hex. rewrite app_nil_r. cbn [length Z.of_nat].
    change (0 - 0)%Z with 0%Z. cbn [Z.leb Z.compare].
    now rewrite Z.pow_0_r, Z.mul_1_r.
Qed.

Lemma parse_number_of_Z (z : Z) (rest : list N) :
  follows rest -> parse_number (of_Z z ++ rest) = Some (z, rest).
Proof.
  intros Hf. unfold of_Z. destruct z as [|p|p]; cbn [Z.to_int NilEmpty.string_of_int].
  - exact (parse_number_digits false 48 [] rest ltac:(repeat constructor)
             (or_intror eq_refl) Hf).
  - destruct (to_uint_head p) as (c & t & E & Hc).
    pose proof (uint_digits (Pos.to_uint p)) as Hd.
    pose proof (uint_fold (Pos.to_uint p)) as Hv.
    rewrite Unsigned.of_to in Hv. rewrite E in Hd, Hv |- *.
    rewrite (parse_number_digits false c t rest Hd (or_introl Hc) Hf : parse_number ((c :: t) ++ rest) = _).
    rewrite digits_value_fold, Hv. reflexivity.
  - destruct (to_uint_head p) as (c & t & E & Hc).
    pose proof (uint_digits (Pos.to_uint p)) as Hd.
    pose proof (uint_fold (Pos.to_uint p)) as Hv.
    rewrite Unsigned.of_to in Hv. rewrite J_cons, E in *.
    change (N_of_ascii "-") with 45.
    rewrite (parse_number_digits true c t rest Hd (or_introl Hc) Hf
             : parse_number ((45 :: c :: t) ++ rest) = _).
    rewrite digits_value_fold, Hv. reflexivity.
Qed.

(** *** Values *)

(** Induction on a value, with the property at hand for the elements of
    an array and for the values of an object. *)
Lemma value_nested_ind (P : value -> Prop) :
  P VUndef -> P VNull -> (forall b, P (VBool b)) -> (forall z, P (VNum z)) ->
  (forall s, P (VStr s)) ->
  (forall items, Forall P items -> P (VArr items)) ->
  (forall props, Forall (fun kv => P (snd kv)) props -> P (VObj props)) ->
  forall v, P v.
Proof.
  intros HUndef HNull HBool HNum HStr HArr HObj.
  fix IH 1.
  intros [| |b|z|s|items|props];
    [exact HUndef | exact HNull | apply HBool | apply HNum | apply HStr | | ].
  - apply HArr. revert items. fix IHl 1. intros [|x l]; constructor.
    + apply IH.
    + apply IHl.
  - apply HObj. revert props. fix IHl 1. intros [|kv l]; constructor.
    + apply IH.
    + apply IHl.
Qed.

Lemma parse_value_array (fuel : nat) (s : list N) :
  parse_value (S fuel) (91 :: s)
  = match skip_ws s with
    | d :: s'' =>
        if d =? 93 then Some (VArr [], s'')
        else match parse_value fuel (d :: s'') with
             | Some (v, rest) => parse_elements fuel rest [v]
             | None => None
             end
    | [] => None
    end.
Proof. reflexivity. Qed.

Lemma parse_value_object (fuel : nat) (s : list N) :
  parse_value (S fuel) (123 :: DQ :: s)
  = match parse_member fuel (DQ :: s) with
    | Some (k, v, rest) => parse_members fuel rest [(k, v)]
    | None => None
    end.
Proof. reflexivity. Qed.

Lemma parse_value_quoted (fuel : nat) (s : list N) :
  parse_value (S fuel) (DQ :: s)
  = match parse_string s with
    | Some (str, rest) => Some (VStr str, rest)
    | None => None
    end.
Proof. reflexivity. Qed.

Lemma parse_value_number (fuel : nat) (c : N) (s : list N) :
  is_digit c = true \/ c = 45 ->
  parse_value (S fuel) (c :: s)
  = match parse_number (c :: s) with
    | Some (z, rest) => Some (VNum z, rest)
    | None => None
    end.
Proof.
  intros [H| ->]; [|reflexivity].
  unfold is_digit in H. apply andb_true_iff in H. destruct H as [H1 H2].
  apply N.leb_le in H1, H2.
  replace c with (48 + N.of_nat (N.to_nat (c - 48))) by lia.
  assert (L : (N.to_nat (c - 48) < 10)%nat) by lia.
  destruct (N.to_nat (c - 48)) as [|i]; [reflexivity|].
  do 9 (destruct i as [|i]; [reflexivity|]). lia.
Qed.

Lemma parse_member_quoted (fuel : nat) (s : list N) :
  parse_member (S fuel) (DQ :: s)
  = match parse_string s with
    | Some (k, rest) =>
        match skip_ws rest with
        | d :: rest' =>
            if d =? 58 then
              match parse_value fuel rest' with
              | Some (v, rest'') => Some (k, v, rest'')
              | None => None
              end
            else None
        | [] => None
        end
    | None => None
    end.
Proof. reflexivity. Qed.

Lemma parse_members_comma (fuel : nat) (s : list N) (acc : list (list N * value)) :
  parse_members (S fuel) (44 :: s) acc
  = match parse_member fuel s with
    | Some (k, v, rest) => parse_members fuel rest (set_prop k v acc)
    | None => None
    end.
Proof. reflexivity. Qed.

Lemma parse_elements_comma (fuel : nat) (s : list N) (acc : list value) :
  parse_elements (S fuel) (44 :: s) acc
  = match parse_value fuel s with
    | Some (v, rest) => parse_elements fuel rest (acc ++ [v])
    | None => None
    end.
Proof. reflexivity. Qed.

Lemma skip_ws_idem (s : list N) : skip_ws (skip_ws s) = skip_ws s.
Proof.
  induction s as [|c s IH]; [reflexivity|]. cbn [skip_ws].
  destruct (is_json_space c) eqn:E; [exact IH|]. cbn [skip_ws]. now rewrite E.
Qed.

Lemma parse_value_skip (fuel : nat) (s : list N) :
  parse_value fuel (skip_ws s) = parse_value fuel s.
Proof.
  destruct fuel as [|fuel]; [reflexivity|].
  rewrite (parse_value_S fuel (skip_ws s)), (parse_value_S fuel s).
  now rewrite skip_ws_idem.
Qed.

Lemma parse_value_closing (fuel : nat) (s : list N) : parse_value fuel (93 :: s) = None.
Proof. destruct fuel; reflexivity. Qed.

Lemma parse_value_nil (fuel : nat) : parse_value fuel [] = None.
Proof. destruct fuel; reflexivity. Qed.

Lemma of_Z_head (z : Z) :
  exists c t, of_Z z = c :: t /\ (is_digit c = true \/ c = 45).
Proof.
  unfold of_Z. destruct z as [|p|p]; cbn [Z.to_int NilEmpty.string_of_int].
  - exists 48, []. split; [reflexivity|now left].
  - destruct (to_uint_head p) as (c & t & E & _).
    pose proof (uint_digits (Pos.to_uint p)) as Hd. rewrite E in Hd.
    exists c, t. split; [exact E|]. left. now inversion Hd.
  - rewrite J_cons. eexists _, _. split; [reflexivity|]. now right.
Qed.

Lemma set_prop_fresh (k : list N) (v : value) (acc : list (list N * value)) :
  ~ In k (map fst acc) -> set_prop k v acc = acc ++ [(k, v)].
Proof.
  induction acc as [|[k' v'] acc IH]; intros H; [reflexivity|].
  cbn [set_prop app]. unfold str_eqb.
  rewrite bool_decide_eq_false_2 by (intros ->; apply H; now left).
  rewrite IH; [reflexivity|]. intros Hin. apply H. now right.
Qed.

Lemma distinct_NoDup (keys : list (list N)) :
  distinct keys = true -> List.NoDup keys.
Proof.
  induction keys as [|k ks IH]; intros H; [constructor|].
  cbn [distinct] in H. apply andb_true_iff in H. destruct H as [H1 H2].
  constructor; [|now apply IH].
  intros Hin. apply negb_true_iff in H1.
  assert (existsb (str_eqb k) ks = true); [|congruence].
  apply existsb_exists. exists k. split; [exact Hin|].
  unfold str_eqb. now apply bool_decide_eq_true.
Qed.


Lemma parse_member_text (fuel : nat) (k s : list N) :
  parse_member (S fuel) (DQ :: quote_chars k ++ DQ :: 58 :: s)
  = match parse_value fuel s with
    | Some (v, rest) => Some (k, v, rest)
    | None => None
    end.
Proof. rewrite parse_member_quoted, parse_string_quote. reflexivity. Qed.

Lemma join_concat (p : list N) (ps : list (list N)) :
  join [44] (p :: ps) = p ++ concat (map (cons 44) ps).
Proof.
  revert p. induction ps as [|q ps IH]; intros p.
  - cbn [join map concat]. now rewrite app_nil_r.
  - change (join [44] (p :: q :: ps)) with (p ++ [44] ++ join [44] (q :: ps)).
    rewrite IH. reflexivity.
Qed.




Lemma follows_elements (items : list value) (rest : list N) :
  follows (concat (map element_text items) ++ 93 :: rest).
Proof. destruct items; cbn; auto. Qed.

Lemma follows_members (props : list (list N * value)) (rest : list N) :
  follows (concat (map (fun kv => 44 :: member_text kv) props) ++ 125 :: rest).
Proof. destruct props; cbn; auto. Qed.

Lemma parse_elements_stringify (items : list value) :
  Forall reads_back items ->
  forallb is_json items = true ->
  forall acc rest fuel,
    (length (concat (map element_text items) ++ 93%N :: rest) < fuel)%nat ->
    parse_elements fuel (concat (map element_text items) ++ 93 :: rest) acc
    = Some (VArr (acc ++ items), rest).
Proof.
  induction 1 as [|v items Hv _ IH]; intros Hj acc rest fuel L.
  - destruct fuel as [|fuel]; [cbn in L; lia|]. rewrite app_nil_r. reflexivity.
  - cbn [forallb] in Hj. apply andb_true_iff in Hj. destruct Hj as [Hj1 Hj2].
    cbn [map concat] in L |- *. unfold element_text at 1 in L. unfold element_text at 1.
    cbn [app] in L |- *. rewrite <- app_assoc in L |- *.
    destruct fuel as [|fuel]; [cbn in L; lia|].
    cbn [length] in L. rewrite length_app in L.
    rewrite parse_elements_comma.
    rewrite (Hv Hj1 _ fuel (follows_elements items rest))
      by (rewrite length_app; lia).
    rewrite (IH Hj2 (acc ++ [v]) rest fuel) by lia.
    now rewrite <- app_assoc.
Qed.

Lemma parse_member_stringify (k : list N) (x : value) (rest : list N) (fuel : nat) :
  reads_back x -> is_json x = true -> follows rest ->
  (length (member_text (k, x) ++ rest) < fuel)%nat ->
  parse_member fuel (member_text (k, x) ++ rest) = Some (k, x, rest).
Proof.
  intros Hx Hj Hf. unfold member_text, quote. cbn [fst snd app].
  rewrite <- !app_assoc. cbn [app]. intros L.
  destruct fuel as [|fuel]; [cbn in L; lia|].
  cbn [length] in L. rewrite length_app in L. cbn [length] in L.
  rewrite parse_member_text.
  rewrite (Hx Hj rest fuel Hf) by lia. reflexivity.
Qed.

Lemma parse_members_stringify (props : list (list N * value)) :
  Forall (fun kv => reads_back (snd kv)) props ->
  forallb (fun kv : list N * value => let (_, x) := kv in is_json x) props = true ->
  forall acc rest fuel,
    List.NoDup (map fst acc ++ map fst props) ->
    (length (concat (map (fun kv => 44%N :: member_text kv) props) ++ 125%N :: rest) < fuel)%nat ->
    parse_members fuel (concat (map (fun kv => 44 :: member_text kv) props) ++ 125 :: rest) acc
    = Some (VObj (acc ++ props), rest).
Proof.
  induction 1 as [|[k x] props Hx _ IH]; intros Hj acc rest fuel Hk L.
  - destruct fuel as [|fuel]; [cbn in L; lia|]. rewrite app_nil_r. reflexivity.
  - cbn [forallb] in Hj. apply andb_true_iff in Hj. destruct Hj as [Hj1 Hj2].
    cbn [snd] in Hx. cbn [map concat app] in L |- *. rewrite <- app_assoc in L |- *.
    destruct fuel as [|fuel]; [cbn in L; lia|].
    cbn [length] in L.
    rewrite parse_members_comma.
    rewrite (parse_member_stringify k x _ fuel Hx Hj1 (follows_members props rest))
      by lia.
    cbn [map fst] in Hk.
    rewrite set_prop_fresh.
    2:{ apply List.NoDup_remove_2 in Hk. intros Hin. apply Hk.
        apply in_or_app. now left. }
    rewrite length_app in L.
    rewrite (IH Hj2 (acc ++ [(k, x)]) rest fuel).
    + now rewrite <- app_assoc.
    + rewrite map_app, <- app_assoc. exact Hk.
    + lia.
Qed.

Lemma members_text (props : list (list N * value)) :
  forallb (fun kv : list N * value => let (_, x) := kv in is_json x) props = true ->
  flat_map (fun kv : list N * value =>
              let (k, x) := kv in
              if is_undefined x then [] else [quote k ++ J ":" ++ stringify x]) props
  = map member_text props.
Proof.
  induction props as [|[k x] props IH]; intros H; [reflexivity|].
  cbn [forallb] in H. apply andb_true_iff in H. destruct H as [H1 H2].
  cbn [flat_map map]. rewrite (IH H2).
  destruct x; try discriminate; reflexivity.
Qed.

Lemma parse_stringify (v : value) : reads_back v.
Proof.
  induction v as [| |b|z|s|items IH|props IH] using value_nested_ind;
    intros Hj rest fuel Hf L.
  - discriminate.
  - destruct fuel as [|fuel]; [cbn in L; lia|]. reflexivity.
  - destruct fuel as [|fuel]; [cbn in L; lia|]. destruct b; reflexivity.
  - destruct fuel as [|fuel]; [cbn in L; lia|]. cbn [stringify].
    destruct (of_Z_head z) as (c & t & E & Hc).
    pose proof (parse_number_of_Z z rest Hf) as Hn. rewrite E in Hn |- *.
    cbn [app] in Hn |- *. rewrite (parse_value_number fuel c _ Hc). now rewrite Hn.
  - destruct fuel as [|fuel]; [cbn in L; lia|]. cbn [stringify]. unfold quote.
    cbn [app]. rewrite <- app_assoc. cbn [app].
    now rewrite parse_value_quoted, parse_string_quote.
  - cbn [is_json] in Hj. cbn [stringify] in L |- *.
    change (J "[") with [91] in L |- *. change (J ",") with [44] in L |- *.
    change (J "]") with [93] in L |- *.
    destruct items as [|v items].
    { destruct fuel as [|fuel]; [cbn in L; lia|]. reflexivity. }
    cbn [forallb] in Hj. apply andb_true_iff in Hj. destruct Hj as [Hj1 Hj2].
    inversion IH as [|v' items' Hv Hitems]; subst.
    cbn [map] in L |- *. rewrite join_concat in L |- *.
    rewrite map_map in L |- *.
    change (map (fun x => 44 :: stringify x) items) with (map element_text items)
      in L |- *.
    cbn [app] in L |- *. rewrite <- !app_assoc in L |- *. cbn [app] in L |- *.
    destruct fuel as [|fuel]; [cbn in L; lia|].
    cbn [length] in L. rewrite parse_value_array.
    pose proof (Hv Hj1 _ fuel (follows_elements items rest) ltac:(lia)) as Hp.
    rewrite length_app in L.
    rewrite <- parse_value_skip in Hp.
    destruct (skip_ws _) as [|d s'']; [now rewrite parse_value_nil in Hp|].
    destruct (d =? 93) eqn:E.
    { apply N.eqb_eq in E. subst d. now rewrite parse_value_closing in Hp. }
    rewrite Hp.
    now rewrite (parse_elements_stringify items Hitems Hj2 [v] rest fuel) by lia.
  - cbn [is_json] in Hj. apply andb_true_iff in Hj. destruct Hj as [Hk Hj].
    cbn [stringify] in L |- *. rewrite (members_text props Hj) in L |- *.
    change (J "{") with [123] in L |- *. change (J ",") with [44] in L |- *.
    change (J "}") with [125] in L |- *.
    destruct props as [|[k x] props].
    { destruct fuel as [|fuel]; [cbn in L; lia|]. reflexivity. }
    cbn [forallb] in Hj. apply andb_true_iff in Hj. destruct Hj as [Hj1 Hj2].
    inversion IH as [|kv props' Hx Hprops]; subst. cbn [snd] in Hx.
    apply distinct_NoDup in Hk.
    cbn [map] in L |- *. rewrite join_concat in L |- *.
    rewrite map_map in L |- *.
    change (map (fun x => 44 :: member_text x) props)
      with (map (fun kv => 44 :: member_text kv) props) in L |- *.
    cbn [app] in L |- *. rewrite <- !app_assoc in L |- *. cbn [app] in L |- *.
    destruct fuel as [|fuel]; [cbn in L; lia|].
    cbn [length] in L.
    pose proof (parse_member_stringify k x _ fuel Hx Hj1 (follows_members props rest)
                  ltac:(lia)) as Hp.
    rewrite length_app in L.
    unfold member_text at 1 in Hp. unfold member_text at 1. unfold quote in Hp |- *.
    cbn [fst snd app] in Hp |- *. rewrite <- !app_assoc in Hp |- *.
    cbn [app] in Hp |- *.
    rewrite parse_value_object, Hp.
    now rewrite (parse_members_stringify props Hprops Hj2 [(k, x)] rest fuel Hk) by lia.
Qed.

(** What [JSON.parse] reads in the text that [JSON.stringify] writes for
    a value of JSON is the value. *)
Lemma parse_stringify_top (v : value) :
  is_json v = true -> parse (stringify_top v) = Some v.
Proof.
  intros Hj. assert (E : stringify_top v = stringify v) by now destruct v.
  rewrite E. unfold parse.
  pose proof (parse_stringify v Hj [] (S (length (stringify v))) I) as H.
  rewrite app_nil_r in H. rewrite H by lia. reflexivity.
Qed.

End Serialisation.

(** ** Exceptions while rendering *)

Section Errors.
Import Index Spec.

Lemma loop_app (st : loop_state) (l1 l2 : list value) :
  loop st (l1 ++ l2) = bind (loop st l1) (fun st' => loop st' l2).
Proof.
  revert st. induction l1 as [|n l1 IH]; intros st; simpl; [reflexivity|].
  destruct (loop_step st n); simpl; auto.
Qed.

Lemma loop_step_throws (st : loop_state) (node : value) (reason : bool) (e : js_error) :
  isReason node = Ok reason ->
  nodeToMarkdown node reason = Throw e ->
  loop_step st node = Throw e.
Proof.
  intros Hr Hn. unfold loop_step. rewrite Hr. cbn [bind].
  destruct reason; rewrite Hn; reflexivity.
Qed.

(** C8: when the rendering of a node raises an exception,
    [nodeToMarkdown] raises an exception of the same kind whose message
    is the original one followed by a line with the serialised node.
    The serialised node is its full data: for a node as [JSON.parse]
    returns it, reading the text gives the node back.  Nothing catches
    the exception afterwards: the rendering of the messages raises it,
    the conversion of the conversation raises it before any call on the
    file system, and the run ends with it. *)
Theorem nodeToMarkdown_rethrows_with_node (node : value) (skipHeader : bool) (err : js_error) :
  nodeToMarkdown_try node skipHeader = Throw err ->
  let err' := mkError (err_kind err)
                (err_message err ++ [NL] ++ J "Node: " ++ Json.stringify_top node) in
  nodeToMarkdown node skipHeader = Throw err'
  /\ (is_json node = true -> Json.parse (Json.stringify_top node) = Some node)
  /\ forall before after st,
       isReason node = Ok skipHeader ->
       loop (mkLoop false []) before = Ok st ->
       renderMessages (before ++ node :: after) = Throw err'
       /\ forall fuel dir conversation later p,
            prelude conversation = Ok p ->
            orderedMessages fuel conversation = Some (Ok (before ++ node :: after)) ->
            convert fuel dir conversation = mkRun [] (Some (Throw err'))
            /\ chatgptToMarkdown fuel (VArr (conversation :: later)) (VStr dir)
               = mkRun [] (Some (Throw err')).
Proof.
  intros Htry err'.
  assert (Hn : nodeToMarkdown node skipHeader = Throw err').
  { unfold nodeToMarkdown. now rewrite Htry. }
  split; [exact Hn|]. split; [apply parse_stringify_top|].
  intros before after st Hr Hb.
  assert (Hrm : renderMessages (before ++ node :: after) = Throw err').
  { unfold renderMessages. rewrite loop_app, Hb. cbn [bind loop].
    now rewrite (loop_step_throws st node skipHeader err' Hr Hn). }
  split; [exact Hrm|].
  intros fuel dir conversation later [[name heading] metadata] Hp Ho.
  assert (Hc : convert fuel dir conversation = mkRun [] (Some (Throw err'))).
  { unfold convert, document. rewrite Hp, Ho. cbn [bind]. now rewrite Hrm. }
  split; [exact Hc|].
  cbn [chatgptToMarkdown convert_all]. now rewrite Hc.
Qed.

Lemma nodeToMarkdown_rethrows_with_node_witness :
  nodeToMarkdown Samples.broken_node false
  = Throw (mkError TypeError
             (J "Cannot read properties of undefined (reading 'join')" ++ [NL] ++
              J "Node: " ++ Samples.broken_text))
  /\ Json.parse Samples.broken_text = Some Samples.broken_node.
Proof.
  destruct (nodeToMarkdown_rethrows_with_node Samples.broken_node false
              (mkError TypeError
                 (J "Cannot read properties of undefined (reading 'join')"))
              ltac:(vm_compute; reflexivity)) as (H1 & H2 & _).
  split.
  - rewrite H1. vm_compute. reflexivity.
  - change Samples.broken_text with (Json.stringify_top Samples.broken_node).
    apply H2. vm_compute. reflexivity.
Defined.

(** The text of a value that holds [undefined], a negative number and
    characters that are escaped: the property without value is left out,
    the element without value is written [null]. *)
Example stringify_escapes :
  Json.stringify_top
    (VObj [(J "a", VUndef);
           (J "b", VArr [VUndef; VNum (-12); VBool true; VNull]);
           (J "c", VStr (J "x" ++ [34; 92; 10; 1] ++ J "y"))])
  = Samples.quoted_text "{'b':[null,-12,true,null],'c':'x" ++ [92; 34; 92; 92; 92; 110]
      ++ J "\u0001y" ++ [34] ++ J "}"
  /\ Json.stringify_top VUndef = J "undefined".
Proof. vm_compute. split; reflexivity. Qed.

End Errors.

(** * Further properties of the module *)

(** ** Lines: [split] and [join] *)

Section Lines.
Variable sep : N.

Lemma split_on_not_nil (s : list N) : split_on sep s <> [].
Proof.
  destruct s as [|c s]; simpl; [discriminate|].
  destruct (c =? sep); [discriminate|].
  destruct (split_on sep s); discriminate.
Qed.

Lemma join_cons (sp a : list N) (ls : list (list N)) :
  ls <> [] -> join sp (a :: ls) = a ++ sp ++ join sp ls.
Proof. destruct ls; [congruence | reflexivity]. Qed.

(** Joining the pieces of a split gives the text back. *)
Lemma join_split_on (s : list N) : join [sep] (split_on sep s) = s.
Proof.
  induction s as [|c s IH]; simpl; [reflexivity|].
  pose proof (split_on_not_nil s) as Hne.
  destruct (c =? sep) eqn:E.
  - apply N.eqb_eq in E. subst c.
    rewrite join_cons by exact Hne. now rewrite IH.
  - destruct (split_on sep s) as [|l ls]; [congruence|].
    destruct ls as [|l' ls].
    + simpl in *. now rewrite IH.
    + rewrite join_cons by discriminate. rewrite join_cons in IH by discriminate.
      simpl. now rewrite <- IH.
Qed.

(** No piece of a split contains the separator. *)
Lemma split_on_pieces (s : list N) :
  Forall (Forall (fun c => c <> sep)) (split_on sep s).
Proof.
  induction s as [|c s IH]; simpl; [repeat constructor|].
  destruct (c =? sep) eqn:E; [constructor; [constructor | exact IH]|].
  apply N.eqb_neq in E.
  destruct (split_on sep s) as [|l ls]; [repeat constructor; exact E|].
  inversion IH; subst. constructor; [constructor|]; assumption.
Qed.

Lemma split_on_piece (l : list N) :
  Forall (fun c => c <> sep) l -> split_on sep l = [l].
Proof.
  induction 1 as [|c l Hc _ IH]; simpl; [reflexivity|].
  apply N.eqb_neq in Hc. now rewrite Hc, IH.
Qed.

Lemma split_on_app (l rest : list N) :
  Forall (fun c => c <> sep) l ->
  split_on sep (l ++ sep :: rest) = l :: split_on sep rest.
Proof.
  induction 1 as [|c l Hc _ IH]; simpl.
  - now rewrite N.eqb_refl.
  - apply N.eqb_neq in Hc. now rewrite Hc, IH.
Qed.

(** Splitting a join of pieces without separator gives the pieces back. *)
Lemma split_on_join (lines : list (list N)) :
  lines <> [] ->
  Forall (Forall (fun c => c <> sep)) lines ->
  split_on sep (join [sep] lines) = lines.
Proof.
  intros Hne H. induction H as [|l ls Hl Hls IH]; [congruence|].
  destruct ls as [|l' ls].
  - simpl. now apply split_on_piece.
  - rewrite join_cons by discriminate. simpl app.
    rewrite (split_on_app l _ Hl). f_equal. apply IH. discriminate.
Qed.

(** Pieces that each end with a separator: the split gives them back,
    followed by an empty piece. *)
Lemma split_on_terminated (lines : list (list N)) :
  Forall (Forall (fun c => c <> sep)) lines ->
  split_on sep (concat (map (fun l => l ++ [sep]) lines)) = lines ++ [[]].
Proof.
  induction 1 as [|l ls Hl _ IH]; simpl; [reflexivity|].
  rewrite <- app_assoc. simpl. rewrite (split_on_app l _ Hl). now rewrite IH.
Qed.

Lemma join_snoc (ls : list (list N)) (l : list N) :
  ls <> [] -> join [sep] (ls ++ [l]) = join [sep] ls ++ sep :: l.
Proof.
  induction ls as [|a ls IH]; [congruence|]. intros _.
  destruct ls as [|b ls]; [reflexivity|].
  change ((a :: b :: ls) ++ [l]) with (a :: ((b :: ls) ++ [l])).
  rewrite join_cons by (simpl; discriminate).
  rewrite IH by discriminate.
  rewrite (join_cons [sep] a (b :: ls)) by discriminate.
  now rewrite <- !app_assoc.
Qed.

(** The last piece of a split: the text is this piece, possibly after a
    part that ends with the separator. *)
Lemma last_segment_split (s : list N) :
  Forall (fun c => c <> sep) (last_segment sep s)
  /\ (s = last_segment sep s \/ exists pre, s = pre ++ sep :: last_segment sep s).
Proof.
  unfold last_segment.
  pose proof (split_on_pieces s) as Hp.
  pose proof (join_split_on s) as Hj.
  pose proof (split_on_not_nil s) as Hne.
  destruct (exists_last Hne) as (ls & l & Heq).
  rewrite Heq in Hp, Hj |- *. rewrite last_last.
  apply Forall_app in Hp as [_ Hl]. apply Forall_inv in Hl.
  split; [assumption|].
  destruct ls as [|a ls].
  - left. symmetry. exact Hj.
  - right. rewrite join_snoc in Hj by discriminate. eauto.
Qed.

End Lines.

(** ** Markup in titles *)

Section HtmlTags.
Import Index.

Lemma match_tag_not_lt (c : N) (rest : list N) :
  (c =? 60) = false -> match_tag (c :: rest) = None.
Proof. intros H. unfold match_tag. now rewrite H. Qed.

Lemma match_tag_hit (inner post : list N) :
  inner <> [] ->
  Forall (fun c => c <> 62) inner ->
  match_tag (60 :: (inner ++ [62]) ++ post)
  = Some (length (inner ++ [62]), J "`" ++ (60 :: inner ++ [62]) ++ J "`").
Proof.
  intros Hne Hin.
  assert (Hspan : span_len (fun x => negb (x =? 62)) ((inner ++ [62]) ++ post)
                  = length inner).
  { rewrite <- app_assoc. apply span_len_all; [|reflexivity].
    eapply Forall_impl; [exact Hin|]. intros c Hc. cbv beta.
    apply N.eqb_neq in Hc. now rewrite Hc. }
  assert (Hlen : length (inner ++ [62]) = S (length inner)).
  { rewrite length_app. simpl. lia. }
  unfold match_tag. rewrite Hspan.
  change (60 =? 60) with true.
  destruct (Nat.eqb (length inner) 0) eqn:E0.
  { apply Nat.eqb_eq in E0. destruct inner; [congruence | discriminate]. }
  destruct (Nat.eqb (length inner) (length ((inner ++ [62]) ++ post))) eqn:E1.
  { apply Nat.eqb_eq in E1. rewrite !length_app in E1. simpl in E1. lia. }
  cbn [andb negb]. rewrite <- Hlen.
  change (firstn (S (length (inner ++ [62]))) (60 :: (inner ++ [62]) ++ post))
    with (60 :: firstn (length (inner ++ [62])) ((inner ++ [62]) ++ post)).
  now rewrite firstn_length_app.
Qed.

(** X1: a tag, that is an opening angle bracket, at least one character
    other than a closing bracket, and a closing bracket, is put between
    backticks, the text before it is kept when it has no opening
    bracket, and the text after it is treated in the same way; a text
    without opening bracket is left as it is. *)
Theorem wrapHtmlTagsInBackticks_tag (pre inner post : list N) :
  Forall (fun c => c <> 60) pre ->
  inner <> [] ->
  Forall (fun c => c <> 62) inner ->
  wrapHtmlTagsInBackticks (pre ++ (60 :: inner ++ [62]) ++ post)
  = pre ++ J "`" ++ (60 :: inner ++ [62]) ++ J "`" ++ wrapHtmlTagsInBackticks post
  /\ wrapHtmlTagsInBackticks pre = pre.
Proof.
  intros Hpre Hne Hin.
  assert (Hpre' : Forall (fun c => (c =? 60) = false) pre).
  { eapply Forall_impl; [exact Hpre|]. intros c Hc. now apply N.eqb_neq. }
  unfold wrapHtmlTagsInBackticks. split.
  - rewrite (gsub_pass _ (fun c => c =? 60) pre _ match_tag_not_lt Hpre').
    f_equal. change ((60 :: inner ++ [62]) ++ post) with (60 :: (inner ++ [62]) ++ post).
    rewrite (gsub_hit _ 60 (inner ++ [62]) post _ (match_tag_hit inner post Hne Hin)).
    now rewrite <- !app_assoc.
  - rewrite <- (app_nil_r pre) at 1.
    rewrite (gsub_pass _ (fun c => c =? 60) pre [] match_tag_not_lt Hpre').
    simpl. apply app_nil_r.
Qed.

Lemma wrapHtmlTagsInBackticks_tag_witness :
  wrapHtmlTagsInBackticks (J "a " ++ (60 :: J "b" ++ [62]) ++ J " c <>")
  = J "a " ++ J "`" ++ (60 :: J "b" ++ [62]) ++ J "`" ++ wrapHtmlTagsInBackticks (J " c <>")
  /\ wrapHtmlTagsInBackticks (J "a ") = J "a ".
Proof.
  apply (wrapHtmlTagsInBackticks_tag (J "a ") (J "b") (J " c <>")).
  - repeat constructor; discriminate.
  - discriminate.
  - repeat constructor; discriminate.
Defined.

End HtmlTags.

(** ** Indentation and quotation *)

Section IndentQuote.
Import Index Spec.

Lemma concat_map_filter (g : list N -> list N) (keep : list N -> bool) (l : list (list N)) :
  concat (map (fun v => if keep v then g v else []) l)
  = concat (map g (List.filter keep l)).
Proof.
  induction l as [|v l IH]; simpl; [reflexivity|].
  destruct (keep v); simpl; now rewrite IH.
Qed.

Lemma indent_unfold (str : list N) :
  indent str
  = concat (map (fun v => if negb (is_blank v) then J "    " ++ v ++ [NL] else [])
              (split_on NL str)).
Proof.
  unfold indent. f_equal. apply map_ext. intros v. unfold is_blank.
  destruct (trim v); reflexivity.
Qed.

(** X2: [indent] keeps the lines that are not blank, in their order,
    puts four spaces before each and a newline after each, and drops the
    blank lines; so the lines of the result are the kept lines, each
    behind four spaces, and an empty last line. *)
Theorem indent_lines (str : list N) :
  indent str
  = concat (map (fun v => J "    " ++ v ++ [NL])
              (List.filter (fun v => negb (is_blank v)) (split_on NL str)))
  /\ split_on NL (indent str)
     = map (fun v => J "    " ++ v)
         (List.filter (fun v => negb (is_blank v)) (split_on NL str)) ++ [[]].
Proof.
  assert (H : indent str
              = concat (map (fun v => J "    " ++ v ++ [NL])
                          (List.filter (fun v => negb (is_blank v)) (split_on NL str)))).
  { rewrite indent_unfold.
    apply (concat_map_filter (fun v => J "    " ++ v ++ [NL])
             (fun v => negb (is_blank v))). }
  split; [exact H|]. rewrite H.
  set (kept := List.filter (fun v => negb (is_blank v)) (split_on NL str)).
  assert (Hk : Forall (Forall (fun c => c <> NL)) kept).
  { apply List.Forall_forall. intros v Hv. apply filter_In in Hv as [Hv _].
    pose proof (split_on_pieces NL str) as Hp.
    rewrite List.Forall_forall in Hp. now apply Hp. }
  rewrite <- (split_on_terminated NL (map (fun v => J "    " ++ v) kept)).
  - f_equal. rewrite map_map. reflexivity.
  - clear -Hk. induction Hk as [|v l Hv _ IH]; simpl; constructor; [|exact IH].
    change (J "    ") with [32; 32; 32; 32]. simpl.
    repeat (constructor; [discriminate|]). exact Hv.
Qed.

Lemma quoted_injective (a b : list N) : quoted a = quoted b -> a = b.
Proof.
  unfold quoted. change (J "> ") with [62; 32]. change (J ">") with [62].
  destruct a, b; simpl; intros H; try discriminate; [reflexivity|].
  injection H as -> ->. reflexivity.
Qed.

Lemma quoted_no_newline (v : list N) :
  Forall (fun c => c <> NL) v -> Forall (fun c => c <> NL) (quoted v).
Proof.
  intros H. unfold quoted. change (J "> ") with [62; 32]. change (J ">") with [62].
  destruct v; simpl; repeat (constructor; [discriminate|]); [constructor | exact H].
Qed.

Lemma blockquote_unfold (str : list N) :
  blockquote str = join [NL] (map quoted (split_on NL str)).
Proof. reflexivity. Qed.

(** X3: [blockquote] works line by line: the lines of the result are the
    lines of the text, an empty line turned into the mark alone and any
    other line put behind the mark and a space; no line is added or lost,
    and two different texts never have the same quotation. *)
Theorem blockquote_lines (str : list N) :
  split_on NL (blockquote str) = map quoted (split_on NL str)
  /\ length (split_on NL (blockquote str)) = length (split_on NL str)
  /\ forall other, blockquote str = blockquote other -> str = other.
Proof.
  assert (H : forall s, split_on NL (blockquote s) = map quoted (split_on NL s)).
  { intros s. rewrite blockquote_unfold. apply split_on_join.
    - pose proof (split_on_not_nil NL s). destruct (split_on NL s); [congruence | discriminate].
    - pose proof (split_on_pieces NL s) as Hp.
      induction Hp as [|v l Hv _ IH]; simpl; constructor; [|exact IH].
      now apply quoted_no_newline. }
  split; [apply H|]. split; [now rewrite H, length_map|].
  intros other Heq.
  assert (Hs : split_on NL str = split_on NL other).
  { apply (f_equal (split_on NL)) in Heq. rewrite !H in Heq.
    revert Heq. generalize (split_on NL other). generalize (split_on NL str).
    induction l as [|a l IH]; intros [|b l']; simpl; intros Hm; try discriminate;
      [reflexivity|].
    injection Hm as Hab Hl. f_equal; [now apply quoted_injective | now apply IH]. }
  rewrite <- (join_split_on NL str), <- (join_split_on NL other). now rewrite Hs.
Qed.

End IndentQuote.

(** ** Link labels *)

Lemma split_on_snoc (sep : N) (pre : list N) :
  split_on sep (pre ++ [sep]) = split_on sep pre ++ [[]].
Proof.
  induction pre as [|c pre IH]; simpl.
  - now rewrite N.eqb_refl.
  - rewrite IH. destruct (c =? sep); [reflexivity|].
    pose proof (split_on_not_nil sep pre) as Hne.
    destruct (split_on sep pre); [congruence | reflexivity].
Qed.

Lemma trim_nil : trim [] = [].
Proof. reflexivity. Qed.

Section SafeTitle.
Import Index Spec.

(** X4: the label [safeTitle] gives to a link.  A title that is a
    string and not blank is the label, trimmed, whatever the address is.
    With a falsy or blank title, the label of an address that is a string
    is the part of the address after its last slash: it has no slash, and
    it is empty when the address ends with a slash.  A truthy title that
    is not a string raises a [TypeError]. *)
Theorem safeTitle_label (url title : value) :
  (forall t, title = VStr t -> trim t <> [] -> safeTitle url title = Ok (trim t))
  /\ (forall u, url = VStr u ->
        (truthy title = false \/ exists t, title = VStr t /\ trim t = []) ->
        safeTitle url title = Ok (last_segment 47 u)
        /\ Forall (fun c => c <> 47) (last_segment 47 u)
        /\ (u = last_segment 47 u \/ exists pre, u = pre ++ 47 :: last_segment 47 u)
        /\ (forall pre, u = pre ++ [47] -> last_segment 47 u = []))
  /\ (truthy title = true -> (forall t, title <> VStr t) ->
      exists e, safeTitle url title = Throw e /\ err_kind e = TypeError).
Proof.
  split; [|split].
  - intros t -> Ht. unfold safeTitle, or_else.
    destruct t as [|c t]; [now rewrite trim_nil in Ht|].
    cbn [truthy as_string bind].
    destruct (trim (c :: t)); [congruence | reflexivity].
  - intros u -> Htitle.
    assert (Hs : safeTitle (VStr u) title = Ok (last_segment 47 u)).
    { unfold safeTitle, or_else. destruct Htitle as [Hf | (t & -> & Ht)].
      - rewrite Hf. reflexivity.
      - destruct (truthy (VStr t)); cbn [as_string bind]; [now rewrite Ht | reflexivity]. }
    destruct (last_segment_split 47 u) as [H1 H2].
    repeat split; try assumption.
    intros pre ->. unfold last_segment. rewrite split_on_snoc. apply last_last.
  - intros Ht Hn. unfold safeTitle, or_else. rewrite Ht.
    destruct title as [| |b|z|s|l|o]; try discriminate;
      try (eexists; split; [reflexivity | reflexivity]).
    exfalso. exact (Hn s eq_refl).
Qed.

End SafeTitle.

(** ** File names, again *)

Section CleanNames.
Import Index Spec.

Lemma sanitize_clean (title : list N) : clean_name (sanitizeFileName title).
Proof.
  destruct (sanitize_split title) as (a & b & Hsq & Ha & Hb).
  set (sq := squeeze false (map (fun c => if is_reserved c then SP else c) title)) in *.
  destruct (squeeze_shape false (map (fun c => if is_reserved c then SP else c) title))
    as (Hss & _ & Hsp). fold sq in Hss, Hsp.
  assert (Hres : Forall (fun c => is_reserved c = false) sq).
  { apply squeeze_Forall; [reflexivity|]. apply List.Forall_forall. intros c Hc.
    apply in_map_iff in Hc as (d & <- & _). destruct (is_reserved d) eqn:E; auto. }
  rewrite Hsq in Hres, Hsp, Hss.
  apply Forall_app in Hres as [_ Hres]. apply Forall_app in Hres as [Hres _].
  apply Forall_app in Hsp as [_ Hsp]. apply Forall_app in Hsp as [Hsp _].
  apply single_spaced_app_r, single_spaced_app_l in Hss.
  unfold clean_name. repeat split; try assumption.
  - unfold sanitizeFileName.
    destruct (trim_split (gsub match_spaces 0
                (map (fun c => if is_reserved c then SP else c) title)))
      as (_ & _ & _ & _ & _ & H1 & _). exact H1.
  - unfold sanitizeFileName.
    destruct (trim_split (gsub match_spaces 0
                (map (fun c => if is_reserved c then SP else c) title)))
      as (_ & _ & _ & _ & _ & _ & H2). exact H2.
Qed.

Lemma squeeze_fixed (s : list N) :
  forall b,
    single_spaced s ->
    Forall (fun c => is_space c = true -> c = SP) s ->
    (b = true -> match s with [] => True | c :: _ => is_space c = false end) ->
    squeeze b s = s.
Proof.
  induction s as [|c s IH]; intros b Hss Hsp Hb; [reflexivity|].
  cbn [squeeze]. destruct Hss as [Hn Hss].
  apply Forall_cons in Hsp as [Hc Hsp].
  destruct (is_space c) eqn:Ec.
  - destruct b; [specialize (Hb eq_refl); congruence|].
    rewrite (Hc eq_refl). f_equal. apply IH; try assumption.
    intros _. destruct s as [|d s]; [exact I|].
    destruct (is_space d) eqn:Ed; [exfalso; apply Hn; auto | reflexivity].
  - f_equal. apply IH; try assumption. discriminate.
Qed.

Lemma drop_space_fixed (s : list N) :
  match s with [] => True | c :: _ => is_space c = false end -> drop_space s = s.
Proof. destruct s as [|c s]; simpl; [reflexivity|]. now intros ->. Qed.

(** A clean name is left as it is. *)
Lemma sanitize_fixed (s : list N) : clean_name s -> sanitizeFileName s = s.
Proof.
  intros (Hres & Hsp & Hss & Hhd & Htl). unfold sanitizeFileName.
  assert (Hmap : map (fun c => if is_reserved c then SP else c) s = s).
  { clear -Hres. induction Hres as [|c s Hc _ IH]; simpl; [reflexivity|].
    now rewrite Hc, IH. }
  rewrite Hmap, (proj1 (gsub_spaces_squeeze s)).
  rewrite (squeeze_fixed s false Hss Hsp) by discriminate.
  unfold trim. rewrite (drop_space_fixed s Hhd), (drop_space_fixed (rev s) Htl).
  apply rev_involutive.
Qed.

(** X5: sanitising a file name twice changes nothing more, and the
    names [sanitizeFileName] leaves as they are are exactly the clean
    ones: no reserved character or newline, no white space but single
    spaces, and none at either end. *)
Theorem sanitizeFileName_idempotent (title : list N) :
  sanitizeFileName (sanitizeFileName title) = sanitizeFileName title
  /\ (sanitizeFileName title = title <-> clean_name title).
Proof.
  split; [apply sanitize_fixed, sanitize_clean|]. split.
  - intros H. rewrite <- H. apply sanitize_clean.
  - apply sanitize_fixed.
Qed.

(** X6: the name of the file is the sanitised title alone whenever this
    is not empty: it has no path separator, and the identifier of the
    conversation plays no part in it.  So two conversations of a run
    whose titles sanitise to the same non-empty name are written to the
    same path, the second over the first. *)
Theorem same_title_same_file (fuel : nat) (dir : list N) (c1 c2 : value)
  (t1 t2 : list N) (ev1 ev2 : list fs_event) :
  get c1 (J "title") = Ok (VStr t1) ->
  get c2 (J "title") = Ok (VStr t2) ->
  sanitizeFileName t1 = sanitizeFileName t2 ->
  sanitizeFileName t1 <> [] ->
  convert fuel dir c1 = mkRun ev1 (Some (Ok tt)) ->
  convert fuel dir c2 = mkRun ev2 (Some (Ok tt)) ->
  let p := mkPath dir (sanitizeFileName t1 ++ J ".md") in
  Forall (fun c => c <> 47 /\ c <> 92) (path_file p)
  /\ (exists d1 a1 m1 d2 a2 m2,
        ev1 = [WriteFile p d1; Utimes p a1 m1]
        /\ ev2 = [WriteFile p d2; Utimes p a2 m2])
  /\ trace (convert_all fuel dir [c1; c2]) = ev1 ++ ev2.
Proof.
  intros H1 H2 Heq Hne Hc1 Hc2 p.
  assert (Hname : forall c t, get c (J "title") = Ok (VStr t) ->
            sanitizeFileName t <> [] ->
            forall name, fileName c = Ok name -> name = sanitizeFileName t ++ J ".md").
  { intros c t Ht Hn name. unfold fileName. rewrite Ht. cbn [as_string bind].
    destruct (get c (J "conversation_id")); cbn [bind]; [|discriminate].
    unfold or_else. destruct (sanitizeFileName t); [congruence|].
    cbn [truthy to_string]. now intros [= <-]. }
  split; [|split].
  - unfold p. cbn [path_file]. apply Forall_app. split.
    + destruct (sanitize_clean t1) as (Hres & _).
      eapply Forall_impl; [exact Hres|]. intros c Hc. cbn beta in Hc.
      split; intros ->; discriminate.
    + change (J ".md") with [46; 109; 100]. repeat constructor; discriminate.
  - destruct (convert_events fuel dir c1 ev1 Hc1) as (n1 & d1 & a1 & m1 & Hn1 & _ & _ & ->).
    destruct (convert_events fuel dir c2 ev2 Hc2) as (n2 & d2 & a2 & m2 & Hn2 & _ & _ & ->).
    rewrite (Hname c1 t1 H1 Hne n1 Hn1).
    rewrite (Hname c2 t2 H2 ltac:(now rewrite <- Heq) n2 Hn2), <- Heq.
    exists d1, a1, m1, d2, a2, m2. split; reflexivity.
  - cbn [convert_all]. rewrite Hc1, Hc2. cbn [trace outcome]. now rewrite app_nil_r.
Qed.

End CleanNames.

Lemma same_title_same_file_witness :
  exists d1 a1 m1 d2 a2 m2,
    Index.trace (Index.convert_all 10 (J "out")
                   [Samples.titled_conversation "Plan: A" "id-1";
                    Samples.titled_conversation "Plan  A?" "id-2"])
    = [Index.WriteFile (Index.mkPath (J "out") (J "Plan A.md")) d1;
       Index.Utimes (Index.mkPath (J "out") (J "Plan A.md")) a1 m1;
       Index.WriteFile (Index.mkPath (J "out") (J "Plan A.md")) d2;
       Index.Utimes (Index.mkPath (J "out") (J "Plan A.md")) a2 m2].
Proof.
  destruct (Index.convert 10 (J "out") (Samples.titled_conversation "Plan: A" "id-1"))
    as [ev1 [[[]|]|]] eqn:E1; try (vm_compute in E1; discriminate).
  destruct (Index.convert 10 (J "out") (Samples.titled_conversation "Plan  A?" "id-2"))
    as [ev2 [[[]|]|]] eqn:E2; try (vm_compute in E2; discriminate).
  destruct (same_title_same_file 10 (J "out")
              (Samples.titled_conversation "Plan: A" "id-1")
              (Samples.titled_conversation "Plan  A?" "id-2")
              (J "Plan: A") (J "Plan  A?") ev1 ev2
              eq_refl eq_refl eq_refl ltac:(vm_compute; discriminate) E1 E2)
    as (_ & (d1 & a1 & m1 & d2 & a2 & m2 & -> & ->) & Ht).
  exists d1, a1, m1, d2, a2, m2. rewrite Ht. reflexivity.
Defined.

(** ** Search results *)

Section SearchResults.
Import Index Spec.

Lemma mapM_ok {A B : Type} (f : A -> result B) (g : A -> B) (l : list A) :
  Forall (fun x => f x = Ok (g x)) l -> mapM f l = Ok (map g l).
Proof.
  induction 1 as [|x l Hx _ IH]; simpl; [reflexivity|].
  now rewrite Hx, IH.
Qed.

Lemma search_entry_links_spec (entry : value) :
  well_formed_citation entry ->
  search_entry_links entry = Ok (if has_url entry then [citation_link entry] else []).
Proof.
  intros Hwf. pose proof Hwf as (Hn & _ & _). unfold search_entry_links, has_url.
  rewrite !(get_defined entry _ Hn). cbn [bind].
  destruct (truthy (get_own entry (J "url"))) eqn:Hu; [|reflexivity].
  now rewrite (safeTitle_link_title entry Hwf Hu).
Qed.

Lemma search_group_links_spec (group : value) :
  nullish group = false ->
  Forall well_formed_citation (entries_of group) ->
  search_group_links group
  = Ok (map citation_link (List.filter has_url (entries_of group))).
Proof.
  intros Hn Hwf. unfold search_group_links, entries_of in *.
  rewrite (get_defined group _ Hn). cbn [bind].
  destruct (get_own group (J "entries")) as [| | | | |es|]; try reflexivity.
  rewrite (mapM_ok search_entry_links
             (fun e => if has_url e then [citation_link e] else []) es).
  - cbn [bind]. f_equal. clear. induction es as [|e es IH]; simpl; [reflexivity|].
    destruct (has_url e); simpl; now rewrite IH.
  - eapply Forall_impl; [exact Hwf|]. intros e He. now apply search_entry_links_spec.
Qed.

(** X7: the search results of a message are the links of the entries
    that have an address, in the order of the groups and of their
    entries, one on a line and followed by an empty line; a group whose
    [entries] is not an array and an entry without address contribute
    nothing, and when no link is left the result is the empty string. *)
Theorem extractSearchResults_links (metadata : value) (groups : list value) :
  get metadata (J "search_result_groups") = Ok (VArr groups) ->
  Forall (fun g => nullish g = false) groups ->
  Forall well_formed_citation (flat_map entries_of groups) ->
  extractSearchResults metadata
  = Ok (match search_links groups with
        | [] => []
        | links => join [NL] links ++ [NL; NL]
        end).
Proof.
  intros Hg Hn Hwf. unfold extractSearchResults.
  assert (Hm : or_empty_object metadata = metadata).
  { destruct metadata; try reflexivity. discriminate. }
  rewrite Hm, Hg. cbn [bind].
  rewrite (mapM_ok search_group_links
             (fun g => map citation_link (List.filter has_url (entries_of g))) groups).
  - cbn [bind]. unfold search_links. rewrite flat_map_concat_map.
    now destruct (concat _).
  - clear Hg Hm. induction Hn as [|g gs Hg _ IH]; [constructor|].
    simpl in Hwf. apply Forall_app in Hwf as [H1 H2].
    constructor; [now apply search_group_links_spec | now apply IH].
Qed.

Lemma extractSearchResults_links_witness :
  extractSearchResults Samples.search_metadata
  = Ok (J "[One](https://x.y/1)" ++ [NL] ++ J "[2](https://x.y/2)" ++ [NL]
        ++ J "[3](https://x.y/3)" ++ [NL; NL]).
Proof.
  etransitivity.
  - apply (extractSearchResults_links Samples.search_metadata
             [VObj [(J "entries", VArr Samples.sample_citations)];
              VObj [(J "domain", Samples.str "x.y")];
              VObj [(J "entries", Samples.str "none")]]).
    + reflexivity.
    + repeat constructor.
    + repeat constructor.
  - vm_compute. reflexivity.
Defined.

End SearchResults.

(** ** The visibility filter, by flag and by role *)

Section VisibilityRoles.
Import Index Spec.

Lemma truthy_not_nullish (v : value) : truthy v = true -> nullish v = false.
Proof. destruct v; simpl; congruence. Qed.

Lemma truthy_get_own (v : value) (k : list N) :
  truthy (get_own v k) = true -> truthy v = true.
Proof.
  destruct v as [| |b|z|s|l|o]; simpl; try discriminate; try reflexivity.
  destruct s; [|reflexivity]. simpl.
  destruct (str_eqb k (J "length")); simpl; [discriminate|].
  destruct (index_of_key k) as [i|]; [|discriminate]. now destruct i.
Qed.

Lemma or_else_object_not_nullish (v : value) : nullish (or_else v (VObj [])) = false.
Proof.
  unfold or_else. destruct (truthy v) eqn:E; [now apply truthy_not_nullish | reflexivity].
Qed.


(** The filter up to its tests on the role: a node with a message that
    carries no flag is judged on its author. *)
Lemma shouldIncludeMessage_visible (node : value) :
  truthy (message_of node) = true ->
  shouldIncludeMessage node
  = if flagged node then Ok false
    else
      let* author := get (message_of node) (J "author") in
      let* role := get author (J "role") in
      let* empty := is_empty_system (message_of node) role in
      if empty then Ok false
      else if is_str role (J "assistant") then
        let* content := get (message_of node) (J "content") in
        let* text := suspectText content in
        if parses_with_banned_key text then Ok false
        else if has_key "search_query" text then Ok false
        else Ok true
      else Ok true.
Proof.
  intros Hm. unfold shouldIncludeMessage, flagged.
  rewrite (truthy_get_own node (J "message") Hm). cbn [negb].
  rewrite (get_defined node _ (truthy_not_nullish _ (truthy_get_own _ _ Hm))).
  cbn [bind]. fold (message_of node). rewrite Hm. cbn [negb].
  rewrite (get_defined (message_of node) (J "metadata") (truthy_not_nullish _ Hm)).
  cbn [bind]. fold (meta_of node).
  rewrite !(get_defined (meta_of node) _ (or_else_object_not_nullish _)). cbn [bind].
  destruct (truthy (get_own (meta_of node) (J "is_visually_hidden_from_conversation")));
    [reflexivity|].
  cbn [orb].
  now destruct (is_str (get_own (meta_of node) (J "reasoning_status")) (J "reasoning_ended")).
Qed.

(** X8: a message that is flagged as hidden, or whose reasoning status
    is the end mark, is left out whatever else it holds: the filter
    answers before it reads the author or the content, so that it raises
    no exception even when these are missing. *)
Theorem shouldIncludeMessage_flagged (node : value) :
  truthy (message_of node) = true ->
  flagged node = true ->
  shouldIncludeMessage node = Ok false.
Proof.
  intros Hm Hf. rewrite (shouldIncludeMessage_visible node Hm). now rewrite Hf.
Qed.

Lemma shouldIncludeMessage_flagged_witness :
  shouldIncludeMessage
    (VObj [(J "message",
            VObj [(J "metadata",
                   VObj [(J "is_visually_hidden_from_conversation", VBool true)])])])
  = Ok false.
Proof. apply shouldIncludeMessage_flagged; reflexivity. Defined.



End VisibilityRoles.

(** ** Messages of plain text *)

Section PlainText.
Import Index Spec.








End PlainText.

(** ** The lines of a reasoning callout *)

Section CalloutLines.
Import Index Spec.

Lemma Forall_drop_space (P : N -> Prop) (s : list N) :
  Forall P s -> Forall P (drop_space s).
Proof.
  induction 1 as [|c s Hc Hs IH]; simpl; [constructor|].
  destruct (is_space c); [exact IH | now constructor].
Qed.

Lemma Forall_trim (P : N -> Prop) (s : list N) : Forall P s -> Forall P (trim s).
Proof.
  intros H. unfold trim.
  apply Forall_rev, Forall_drop_space, Forall_rev, Forall_drop_space, H.
Qed.

Lemma Forall_drop_hashes (P : N -> Prop) (s : list N) :
  Forall P s -> Forall P (drop_hashes s).
Proof.
  induction 1 as [|c s Hc Hs IH]; simpl; [constructor|].
  destruct (c =? 35); [exact IH | now constructor].
Qed.

Lemma no_newline_forallb (l : list N) :
  forallb (fun c => negb (c =? NL)) l = true -> Forall (fun c => c <> NL) l.
Proof.
  intros H. apply List.Forall_forall. intros c Hc.
  rewrite forallb_forall in H. specialize (H c Hc).
  apply negb_true_iff, N.eqb_neq in H. exact H.
Qed.

Lemma quoted_line_intro (l : list N) :
  Forall (fun c => c <> NL) l -> quoted_line (J ">" ++ l ++ [NL]).
Proof. intros H. exists l. auto. Qed.

Lemma nested_line_quoted (line : list N) :
  Forall (fun c => c <> NL) line -> quoted_line (nested_line line).
Proof.
  intros H. unfold nested_line. pose proof (Forall_trim _ line H) as Ht.
  destruct (trim line) as [|c t].
  - exists (J ">"). split; [reflexivity | repeat constructor; discriminate].
  - exists (J "> " ++ c :: t). split; [reflexivity|].
    change (J "> ") with [62; 32]. simpl. repeat (constructor; [discriminate|]). exact Ht.
Qed.

Lemma example_header_quoted (title : list N) :
  Forall (fun c => c <> NL) title -> quoted_line (example_header title).
Proof.
  intros H. exists (J "> [!example]- " ++ title). split.
  - unfold example_header. now rewrite <- app_assoc.
  - apply Forall_app. split; [|exact H]. apply no_newline_forallb. reflexivity.
Qed.

Lemma find_heading_lines (lines before : list (list N)) (title : list N)
  (out : list (list N)) :
  Forall (Forall (fun c => c <> NL)) before ->
  Forall (Forall (fun c => c <> NL)) lines ->
  find_heading before lines = Some (title, out) ->
  Forall (fun c => c <> NL) title /\ Forall (Forall (fun c => c <> NL)) out.
Proof.
  intros Hb Hl. revert before Hb.
  induction Hl as [|l ls Hl Hls IH]; intros before Hb; cbn [find_heading];
    [discriminate|].
  destruct (is_blank l).
  - apply IH. apply Forall_app. split; [exact Hb | now constructor].
  - destruct (starts_with (J "#####") (trim l)); [|discriminate].
    intros [= <- <-]. split.
    + unfold strip_heading. now apply Forall_drop_space, Forall_drop_hashes, Forall_trim.
    + apply Forall_app. now split.
Qed.

(** Each part one reasoning message contributes below the opening is one
    line marked twice. *)
Lemma nested_callout_quoted (raw : list N) : Forall quoted_line (nested_callout raw).
Proof.
  unfold nested_callout.
  pose proof (split_on_pieces NL (trim raw)) as Hp.
  assert (Hmap : forall ls, Forall (Forall (fun c => c <> NL)) ls ->
                            Forall quoted_line (map nested_line ls)).
  { intros ls H. induction H as [|l ls Hl _ IH]; simpl; constructor;
      [now apply nested_line_quoted | exact IH]. }
  destruct (onlyLinks (split_on NL (trim raw))).
  - constructor; [|now apply Hmap].
    exists (J "> [!quote]- Links"). split; [reflexivity|].
    apply no_newline_forallb. reflexivity.
  - destruct (find_heading [] (split_on NL (trim raw))) as [[title out]|] eqn:E.
    + destruct (find_heading_lines _ [] title out ltac:(constructor) Hp E) as [Ht Ho].
      constructor; [now apply example_header_quoted | now apply Hmap].
    + constructor; [|now apply Hmap].
      apply example_header_quoted, no_newline_forallb. reflexivity.
Qed.

(** X11: whatever the text of a reasoning message is, what the loop
    pushes for it is a sequence of single lines that each start with the
    quotation mark: the opening (the outer header or the separator), the
    header of the nested callout and one line for each line of the text.
    No line of the message can end the callout it is put in. *)
Theorem reasoning_step_quoted (st st' : loop_state) (n : value) :
  isReason n = Ok true ->
  loop_step st n = Ok st' ->
  exists pushed,
    parts st' = parts st ++ pushed
    /\ pushed <> []
    /\ Forall quoted_line pushed
    /\ inCallout st' = true.
Proof.
  intros Hr H. unfold loop_step in H. rewrite Hr in H. cbn [bind] in H.
  destruct (nodeToMarkdown n true) as [raw|e]; cbn [bind] in H; [|discriminate].
  injection H as <-. cbn [parts Index.inCallout].
  exists ([if Index.inCallout st then SEPARATOR else OUTER_HEADER] ++ nested_callout raw).
  split; [reflexivity|]. split; [discriminate|]. split; [|reflexivity].
  apply Forall_app. split.
  - constructor; [|constructor]. destruct (Index.inCallout st).
    + exists (J " "). split; [reflexivity | apply no_newline_forallb; reflexivity].
    + exists (J " [!info]- Reasoning"). split;
        [reflexivity | apply no_newline_forallb; reflexivity].
  - apply nested_callout_quoted.
Qed.

Lemma reasoning_step_quoted_witness :
  exists st' pushed,
    loop_step (mkLoop false []) (Samples.reasoning_node "first") = Ok st'
    /\ parts st' = pushed
    /\ Forall quoted_line pushed.
Proof.
  destruct (loop_step (mkLoop false []) (Samples.reasoning_node "first")) as [st'|e] eqn:E;
    [|vm_compute in E; discriminate].
  destruct (reasoning_step_quoted (mkLoop false []) st' (Samples.reasoning_node "first")
              eq_refl E) as (pushed & Hp & _ & Hq & _).
  exists st', pushed. auto.
Defined.

End CalloutLines.

(** ** What the traversal reaches *)

Section Reachability.
Import Index Spec.
Variable mapping : value.

Lemma for_each_complete (f : value -> list value -> option (result (list value)))
  (children : list value) :
  (forall c acc out,
      f c acc = Some (Ok out) ->
      incl acc out /\ forall p x, reach mapping c p = Some x -> In x out) ->
  forall acc out,
    for_each f children acc = Some (Ok out) ->
    incl acc out
    /\ forall i c p x,
         nth_error children i = Some c -> reach mapping c p = Some x -> In x out.
Proof.
  intros Hf. induction children as [|c cs IH]; intros acc out; cbn [for_each].
  - intros [= <-]. split; [apply incl_refl|]. intros [|i] c p x; discriminate.
  - destruct (f c acc) as [[o1|e]|] eqn:E; try discriminate.
    intros H. destruct (Hf c acc o1 E) as [Hi1 Hr1].
    destruct (IH o1 out H) as [Hi2 Hr2]. split.
    + eapply incl_tran; eauto.
    + intros [|i] c' p x Hn Hr.
      * injection Hn as <-. apply Hi2. eapply Hr1; eauto.
      * eapply Hr2; eauto.
Qed.

(** A traversal that returns a list has pushed every identifier that can
    be reached from its starting point. *)
Lemma walk_complete (fuel : nat) :
  forall id acc out,
    walk fuel mapping id acc = Some (Ok out) ->
    incl acc out /\ forall p x, reach mapping id p = Some x -> In x out.
Proof.
  induction fuel as [|fuel IH]; intros id acc out; [discriminate|].
  rewrite walk_unfold. destruct (visit_of mapping id) as [|children|e] eqn:V.
  - intros [= <-]. split; [apply incl_refl|].
    intros [|i p] x; simpl; unfold present, children_of; rewrite V;
      [discriminate | now destruct i].
  - intros H.
    destruct (for_each_complete (walk fuel mapping) children IH _ _ H) as [Hi Hr].
    split.
    + intros v Hv. apply Hi, in_or_app. now left.
    + intros [|i p] x; simpl; unfold present, children_of; rewrite V.
      * intros [= <-]. apply Hi, in_or_app. right. now left.
      * destruct (nth_error children i) as [c|] eqn:En; [|discriminate].
        intros Hx. eapply Hr; eauto.
  - discriminate.
Qed.

End Reachability.

Section ReachabilityTheorem.
Import Index Spec.

(** X12: when the traversal returns a list, the identifiers in it are
    exactly those that can be reached from the root by following
    declared children, each step going through an identifier under which
    the mapping has something truthy (a node of its own, or a member it
    inherits, which has no children): what can be reached is never left
    out, and a node of the mapping that is not connected to the root is
    never listed.  The root, when the mapping has it, comes first.  The
    declared identifiers are taken to be values that the model prints
    exactly. *)
Theorem getOrderedNodeIds_reachable (fuel : nat) (conversation mapping root : value)
  (out : list value) :
  get conversation (J "mapping") = Ok mapping ->
  Forall (fun id => exact id = true) (universe mapping) ->
  rootId mapping = Ok root ->
  getOrderedNodeIds fuel conversation = Some (Ok out) ->
  (forall x, In x out <-> exists p, reach mapping root p = Some x)
  /\ (if present mapping root then exists rest, out = root :: rest else out = []).
Proof.
  intros Hm _ Hr. unfold getOrderedNodeIds. rewrite Hm, Hr. intros H. split.
  - intros x. split.
    + intros Hx. destruct (walk_paths mapping fuel root [] out H) as (l & -> & _ & Rl).
      simpl in Hx. apply in_map_iff in Hx as ([p v] & Hv & Hin). simpl in Hv. subst v.
      exists p. now apply Rl.
    + intros (p & Hp). exact (proj2 (walk_complete mapping fuel root [] out H) p x Hp).
  - destruct fuel as [|fuel]; [discriminate|].
    rewrite walk_unfold in H. unfold present.
    destruct (visit_of mapping root) as [|children|e] eqn:V.
    + now injection H as <-.
    + destruct (for_each_paths mapping (walk fuel mapping) children
                  (walk_paths mapping fuel) 0%nat _ _ H) as (l & -> & _).
      simpl. eauto.
    + discriminate.
Qed.

Lemma getOrderedNodeIds_reachable_witness :
  (forall x, In x [VStr ROOT; VStr (J "a")]
             <-> exists p, reach (get_own Samples.small_tree (J "mapping")) (VStr ROOT) p
                           = Some x)
  /\ exists rest, [VStr ROOT; VStr (J "a")] = VStr ROOT :: rest.
Proof.
  exact (getOrderedNodeIds_reachable 3 Samples.small_tree
           (get_own Samples.small_tree (J "mapping")) (VStr ROOT)
           [VStr ROOT; VStr (J "a")] eq_refl small_tree_exact eq_refl eq_refl).
Defined.

End ReachabilityTheorem.

(** ** The loop over the messages *)

Section LoopState.
Import Index Spec.

Lemma isReason_reasoning (n : value) (b : bool) : isReason n = Ok b -> b = reasoning n.
Proof.
  unfold isReason, get. intros H.
  destruct (nullish n); cbn [bind] in H; [discriminate|].
  destruct (nullish (get_own n (J "message"))); cbn [bind] in H; [discriminate|].
  destruct (nullish (or_else (get_own (get_own n (J "message")) (J "metadata")) (VObj [])));
    cbn [bind] in H; [discriminate|].
  now injection H as <-.
Qed.

Lemma loop_without_reasoning (msgs : list value) :
  Forall (fun n => isReason n = Ok false) msgs ->
  forall st,
    loop st msgs
    = let* mds := mapM (fun n => nodeToMarkdown n false) msgs in
      Ok (mkLoop (inCallout st) (parts st ++ mds)).
Proof.
  induction 1 as [|n msgs Hn _ IH]; intros st; cbn [loop mapM bind].
  - rewrite app_nil_r. now destruct st.
  - unfold loop_step. rewrite Hn. cbn [bind].
    destruct (nodeToMarkdown n false) as [md|e]; cbn [bind]; [|reflexivity].
    rewrite IH. cbn [inCallout parts].
    destruct (mapM (fun n0 => nodeToMarkdown n0 false) msgs); cbn [bind]; [|reflexivity].
    now rewrite <- app_assoc.
Qed.

(** X13: when none of the messages is marked as reasoning, the text of
    the conversation is the renderings of its messages one after the
    other, with nothing put between them or after them; the first
    message that cannot be rendered makes the whole conversion fail. *)
Theorem renderMessages_without_reasoning (msgs : list value) :
  Forall (fun n => isReason n = Ok false) msgs ->
  renderMessages msgs
  = let* mds := mapM (fun n => nodeToMarkdown n false) msgs in Ok (concat mds).
Proof.
  intros H. unfold renderMessages. rewrite (loop_without_reasoning msgs H).
  cbn [inCallout parts app].
  now destruct (mapM (fun n => nodeToMarkdown n false) msgs).
Qed.

Lemma renderMessages_without_reasoning_witness :
  renderMessages [Samples.message_node "user" (Samples.text_content [J "Hi"]) [];
                  Samples.answer_node]
  = Ok (J "## user" ++ [NL; NL] ++ J "    Hi" ++ [NL] ++ [NL; NL]
        ++ J "## assistant" ++ [NL; NL] ++ J "Done" ++ [NL; NL]).
Proof.
  etransitivity.
  - apply renderMessages_without_reasoning. repeat constructor.
  - vm_compute. reflexivity.
Defined.

(** The loop is in a callout after a list of messages exactly when it
    was before or one of the messages is marked as reasoning. *)
Lemma loop_inCallout (msgs : list value) :
  forall st st',
    loop st msgs = Ok st' ->
    inCallout st' = inCallout st || existsb reasoning msgs.
Proof.
  induction msgs as [|n msgs IH]; intros st st'; cbn [loop existsb].
  - intros [= <-]. now rewrite orb_false_r.
  - destruct (loop_step st n) as [st1|] eqn:E; cbn [bind]; [|discriminate].
    intros H. rewrite (IH st1 st' H). unfold loop_step in E.
    destruct (isReason n) as [b|] eqn:Er; cbn [bind] in E; [|discriminate].
    rewrite <- (isReason_reasoning n b Er). destruct b.
    + destruct (nodeToMarkdown n true); cbn [bind] in E; [|discriminate].
      injection E as <-. cbn [inCallout orb]. now rewrite orb_true_r.
    + destruct (nodeToMarkdown n false); cbn [bind] in E; [|discriminate].
      injection E as <-. reflexivity.
Qed.

(** X14: the outer header of the reasoning callout is pushed for the
    first reasoning message of a conversation only.  A reasoning message
    that comes after an earlier one, directly or with normal messages in
    between, is opened by the separator line; in both cases the header
    and the lines of its nested callout follow. *)
Theorem reasoning_opening (msgs : list value) (n : value) (st st' : loop_state) :
  loop (mkLoop false []) msgs = Ok st ->
  isReason n = Ok true ->
  loop_step st n = Ok st' ->
  exists raw,
    nodeToMarkdown n true = Ok raw
    /\ parts st'
       = parts st
         ++ (if existsb reasoning msgs then SEPARATOR else OUTER_HEADER)
         :: nested_callout raw.
Proof.
  intros Hl Hr Hs. pose proof (loop_inCallout msgs _ _ Hl) as Hin.
  cbn [inCallout orb] in Hin. unfold loop_step in Hs. rewrite Hr in Hs.
  cbn [bind] in Hs. destruct (nodeToMarkdown n true) as [raw|e]; cbn [bind] in Hs;
    [|discriminate].
  injection Hs as <-. exists raw. split; [reflexivity|].
  cbn [parts]. now rewrite Hin.
Qed.

Lemma reasoning_opening_witness :
  exists st st' raw,
    loop (mkLoop false []) [Samples.reasoning_node "first"; Samples.answer_node] = Ok st
    /\ loop_step st (Samples.reasoning_node "second") = Ok st'
    /\ parts st' = parts st ++ SEPARATOR :: nested_callout raw.
Proof.
  destruct (loop (mkLoop false []) [Samples.reasoning_node "first"; Samples.answer_node])
    as [st|] eqn:El; [|vm_compute in El; discriminate].
  destruct (loop_step st (Samples.reasoning_node "second")) as [st'|] eqn:Es.
  - destruct (reasoning_opening
                [Samples.reasoning_node "first"; Samples.answer_node]
                (Samples.reasoning_node "second") st st' El eq_refl Es)
      as (raw & _ & Hp).
    exists st, st', raw. auto.
  - exfalso. vm_compute in El. injection El as <-. vm_compute in Es. discriminate.
Defined.

End LoopState.

(** ** The run *)

Section Runs.
Import Index Spec.

Lemma convert_all_app (fuel : nat) (dir : list N) (cs1 : list value)
  (evs : list (list fs_event)) :
  Forall2 (fun c ev => convert fuel dir c = mkRun ev (Some (Ok tt))) cs1 evs ->
  forall cs2,
    convert_all fuel dir (cs1 ++ cs2)
    = mkRun (concat evs ++ trace (convert_all fuel dir cs2))
        (outcome (convert_all fuel dir cs2)).
Proof.
  induction 1 as [|c ev cs1 evs Hc _ IH]; intros cs2; cbn [app convert_all concat].
  - now destruct (convert_all fuel dir cs2).
  - rewrite Hc, IH. cbn [trace outcome]. now rewrite app_assoc.
Qed.

(** X15: the conversations are converted in order and the run stops at
    the first one that raises an exception.  The run then fails with this
    exception; the calls made for the conversations before it, two for
    each, have been made, the conversations after it are not touched,
    and for the failing conversation nothing is written, but in one case:
    when the exception is the [TypeError] of [utimes] on its time stamps,
    its file has been written.  When no conversation fails the run
    succeeds with the calls of all of them.  The failing conversation is
    taken to have time stamps that are neither strings nor arrays. *)
Theorem run_stops_at_first_failure (fuel : nat) (dir : list N) (cs1 : list value)
  (evs : list (list fs_event)) :
  Forall2 (fun c ev => convert fuel dir c = mkRun ev (Some (Ok tt))) cs1 evs ->
  chatgptToMarkdown fuel (VArr cs1) (VStr dir) = mkRun (concat evs) (Some (Ok tt))
  /\ length (concat evs) = (2 * length cs1)%nat
  /\ forall c cs2 ev e,
       plain_times c = true ->
       convert fuel dir c = mkRun ev (Some (Throw e)) ->
       chatgptToMarkdown fuel (VArr (cs1 ++ c :: cs2)) (VStr dir)
       = mkRun (concat evs ++ ev) (Some (Throw e))
       /\ (ev = []
           \/ exists path data,
                ev = [WriteFile path data]
                /\ err_kind e = TypeError
                /\ (valid_time (get_own c (J "create_time"))
                    && valid_time (get_own c (J "update_time"))) = false).
Proof.
  intros H. cbn [chatgptToMarkdown]. split; [|split].
  - rewrite <- (app_nil_r cs1), (convert_all_app fuel dir cs1 evs H []).
    cbn [convert_all trace outcome]. now rewrite app_nil_r.
  - induction H as [|c ev cs evs Hc _ IH]; [reflexivity|].
    destruct (convert_events fuel dir c ev Hc) as (name & data & ct & ut & _ & _ & _ & ->).
    cbn [concat length app]. rewrite IH. lia.
  - intros c cs2 ev e _ Hc. split.
    + rewrite (convert_all_app fuel dir cs1 evs H (c :: cs2)).
      cbn [convert_all]. rewrite Hc. reflexivity.
    + destruct (convert_calls fuel dir c)
        as [Hc' | [(e' & Hc') | (name & data & _ & _ & _
                                 & [(Ht & e' & Hk & Hc') | (_ & Hc')])]];
        rewrite Hc' in Hc; try discriminate.
      * injection Hc as <- _. now left.
      * injection Hc as <- <-. right. eauto.
Qed.

Lemma run_stops_at_first_failure_witness :
  exists ev e,
    chatgptToMarkdown 5
      (VArr [Samples.sample_conversation; VObj []; Samples.reasoning_conversation])
      (VStr (J "out"))
    = mkRun ev (Some (Throw e))
    /\ length ev = 2%nat /\ err_kind e = TypeError.
Proof.
  destruct (convert 5 (J "out") Samples.sample_conversation) as [ev [[[]|]|]] eqn:E;
    try (vm_compute in E; discriminate).
  destruct (run_stops_at_first_failure 5 (J "out") [Samples.sample_conversation] [ev]
              ltac:(repeat constructor; exact E)) as (_ & Hlen & Hfail).
  destruct (Hfail (VObj []) [Samples.reasoning_conversation] []
              (mkError TypeError
                 (J "Cannot read properties of undefined (reading 'replace')"))
              eq_refl ltac:(vm_compute; reflexivity)) as [Hrun _].
  eexists (concat [ev] ++ []), _. split; [exact Hrun|]. split; [|reflexivity].
  rewrite app_nil_r. exact Hlen.
Defined.

(** A conversation whose time stamps are [null]: the front matter prints
    the first instant of 1970, the file is written, and [utimes] then
    rejects the times, so that the run fails with the file in place. *)
Example convert_null_times :
  exists data e,
    convert 3 (J "out") Samples.timeless_conversation
    = mkRun [WriteFile (mkPath (J "out") (J "Sample.md")) data] (Some (Throw e))
    /\ err_kind e = TypeError
    /\ firstn 41 data = J "---" ++ [NL] ++ J "create_time: 1970-01-01T00:00:00.000Z".
Proof.
  destruct (convert 3 (J "out") Samples.timeless_conversation) as [ev o] eqn:E.
  vm_compute in E. injection E as <- <-.
  eexists _, _. split; [reflexivity|]. split; reflexivity.
Qed.




End Runs.

(** ** The earlier copy of the loop *)

Section LegacyLoop.
Import Index Spec.

Lemma last_cons_default (A : Type) (a d : A) (l : list A) :
  List.last (a :: l) d = List.last l a.
Proof.
  revert a d. induction l as [|b l IH]; intros a d; [reflexivity|].
  change (List.last (a :: b :: l) d) with (List.last (b :: l) d).
  now rewrite (IH b d), (IH b a).
Qed.

(** In the earlier copy the loop is in a callout exactly when the last
    message was a reasoning message. *)
Lemma legacy_loop_inCallout (msgs : list value) :
  forall st st',
    Legacy.loop st msgs = Ok st' ->
    inCallout st' = List.last (map reasoning msgs) (inCallout st).
Proof.
  induction msgs as [|n msgs IH]; intros st st'; cbn [Legacy.loop map].
  - now intros [= <-].
  - destruct (Legacy.loop_step st n) as [st1|] eqn:E; cbn [bind]; [|discriminate].
    intros H. rewrite (IH st1 st' H), last_cons_default. f_equal.
    unfold Legacy.loop_step in E.
    destruct (isReason n) as [b|] eqn:Er; cbn [bind] in E; [|discriminate].
    rewrite <- (isReason_reasoning n b Er). destruct b.
    + destruct (Legacy.nodeToMarkdown _ true); cbn [bind] in E; [|discriminate].
      now injection E as <-.
    + destruct (Legacy.nodeToMarkdown n false); cbn [bind] in E; [|discriminate].
      now injection E as <-.
Qed.

(** X17: in the earlier copy of the module, kept in [cli.js], a normal
    message closes the callout.  A reasoning message is therefore opened
    by the separator only when the message just before it was a reasoning
    message, and by a new outer header otherwise: at the start, and after
    every normal message. *)
Theorem legacy_reasoning_opening (msgs : list value) (n : value) (st st' : loop_state) :
  Legacy.loop (mkLoop false []) msgs = Ok st ->
  isReason n = Ok true ->
  Legacy.loop_step st n = Ok st' ->
  exists raw,
    parts st'
    = parts st
      ++ (if List.last (map reasoning msgs) false then SEPARATOR else OUTER_HEADER)
      :: Legacy.nested_callout raw.
Proof.
  intros Hl Hr Hs. pose proof (legacy_loop_inCallout msgs _ _ Hl) as Hin.
  cbn [inCallout] in Hin. unfold Legacy.loop_step in Hs. rewrite Hr in Hs.
  cbn [bind] in Hs.
  destruct (Legacy.nodeToMarkdown _ true) as [raw|e]; cbn [bind] in Hs; [|discriminate].
  injection Hs as <-. exists raw. cbn [parts]. now rewrite Hin.
Qed.

Lemma legacy_reasoning_opening_witness :
  exists st st' raw,
    Legacy.loop (mkLoop false []) [Samples.reasoning_node "first"; Samples.answer_node]
    = Ok st
    /\ Legacy.loop_step st (Samples.reasoning_node "second") = Ok st'
    /\ parts st' = parts st ++ OUTER_HEADER :: Legacy.nested_callout raw.
Proof.
  destruct (Legacy.loop (mkLoop false [])
              [Samples.reasoning_node "first"; Samples.answer_node])
    as [st|] eqn:El; [|vm_compute in El; discriminate].
  destruct (Legacy.loop_step st (Samples.reasoning_node "second")) as [st'|] eqn:Es.
  - destruct (legacy_reasoning_opening
                [Samples.reasoning_node "first"; Samples.answer_node]
                (Samples.reasoning_node "second") st st' El eq_refl Es)
      as (raw & Hp).
    exists st, st', raw. auto.
  - exfalso. vm_compute in El. injection El as <-. vm_compute in Es. discriminate.
Defined.

Lemma isReason_message (n : value) (b : bool) :
  isReason n = Ok b ->
  get n (J "message") = Ok (message_of n) /\ nullish (message_of n) = false.
Proof.
  unfold isReason, get, message_of. intros H.
  destruct (nullish n); cbn [bind] in H; [discriminate|].
  destruct (nullish (get_own n (J "message"))); cbn [bind] in H; [discriminate|].
  auto.
Qed.

Lemma legacy_finishBody_same (message : value) (body : list N) (skipHeader : bool) :
  nullish message = false ->
  (forall l, get_own (or_else (get_own message (J "metadata")) (VObj [])) (J "citations")
             <> VArr l) ->
  Legacy.finishBody message false body skipHeader = finishBody message body skipHeader.
Proof.
  intros Hm Hc. unfold Legacy.finishBody, finishBody.
  rewrite (get_defined message (J "metadata") Hm). cbn [bind].
  set (meta := or_else (get_own message (J "metadata")) (VObj [])) in *.
  assert (He : Legacy.extractCitations meta = extractCitations meta).
  { unfold Legacy.extractCitations, extractCitations.
    destruct (get (or_empty_object meta) (J "citations")) as [c|e] eqn:Eg; [|reflexivity].
    cbn [bind].
    assert (Hcit : c = get_own meta (J "citations")).
    { assert (Ho : or_empty_object meta = meta).
      { pose proof (or_else_object_not_nullish (get_own message (J "metadata"))) as Hn.
        fold meta in Hn. destruct meta; try reflexivity. discriminate. }
      rewrite Ho in Eg.
      rewrite (get_defined meta _ (or_else_object_not_nullish _)) in Eg.
      now injection Eg as <-. }
    destruct c as [| | | | |l|]; try reflexivity. now destruct (Hc l). }
  now rewrite He.
Qed.

Lemma legacy_nodeToMarkdown_same (n : value) (skipHeader : bool) :
  ordinary n -> Legacy.nodeToMarkdown n skipHeader = nodeToMarkdown n skipHeader.
Proof.
  intros (Hr & Hw & Hc).
  destruct (isReason_message n false Hr) as [Hg Hm].
  pose proof (isReason_reasoning n false Hr) as Hf. unfold reasoning in Hf.
  unfold Legacy.nodeToMarkdown, nodeToMarkdown, nodeToMarkdown_try.
  rewrite Hg. cbn [bind].
  destruct (negb (truthy (opt_get (message_of n) (J "content")))); [reflexivity|].
  destruct (contentBody (opt_get (message_of n) (J "content"))) as [body|e];
    cbn [bind]; [|reflexivity].
  fold (meta_of n). rewrite <- Hf, Hw. cbn [orb].
  rewrite (legacy_finishBody_same (message_of n) body skipHeader Hm Hc).
  reflexivity.
Qed.

(** X18: on ordinary messages (not marked as reasoning, without
    wrapping flag and without array of citations) the earlier copy kept
    in [cli.js] and [index.js] render alike, message by message and for
    the whole conversation. *)
Theorem legacy_renderMessages_same (msgs : list value) :
  Forall ordinary msgs ->
  Legacy.renderMessages msgs = renderMessages msgs
  /\ Forall (fun n => forall skipHeader,
               Legacy.nodeToMarkdown n skipHeader = nodeToMarkdown n skipHeader) msgs.
Proof.
  intros H. split.
  - unfold Legacy.renderMessages, renderMessages.
    assert (Hl : forall ps, Legacy.loop (mkLoop false ps) msgs = loop (mkLoop false ps) msgs).
    { induction H as [|n msgs Hn _ IH]; intros ps; [reflexivity|].
      cbn [Legacy.loop loop]. unfold Legacy.loop_step, loop_step.
      pose proof Hn as (Hr & _). rewrite Hr. cbn [bind].
      rewrite (legacy_nodeToMarkdown_same n false Hn).
      destruct (nodeToMarkdown n false) as [md|e]; cbn [bind]; [|reflexivity].
      cbn [inCallout parts app]. apply IH. }
    now rewrite Hl.
  - eapply Forall_impl; [exact H|]. intros n Hn sk.
    now apply legacy_nodeToMarkdown_same.
Qed.

Lemma legacy_renderMessages_same_witness :
  Legacy.renderMessages
    [Samples.message_node "user" (Samples.text_content [J "Hi"]) []; Samples.answer_node]
  = renderMessages
      [Samples.message_node "user" (Samples.text_content [J "Hi"]) []; Samples.answer_node].
Proof.
  apply legacy_renderMessages_same.
  repeat constructor; intros l; discriminate.
Defined.

End LegacyLoop.

(** ** Links without label *)

Section EmptyLinks.
Import Index Spec.

Lemma match_empty_link_not_bracket (c : N) (rest : list N) :
  (c =? 91) = false -> Legacy.match_empty_link (c :: rest) = None.
Proof.
  intros H. unfold Legacy.match_empty_link.
  change (J "[](") with [91; 93; 40]. cbn [starts_with].
  rewrite N.eqb_sym, H. reflexivity.
Qed.

Lemma match_empty_link_hit (scheme rest post : list N) :
  scheme = J "http://" \/ scheme = J "https://" ->
  rest <> [] ->
  Forall (fun c => c <> 41) rest ->
  Legacy.match_empty_link (J "[](" ++ (scheme ++ rest) ++ J ")" ++ post)
  = Some (length (J "](" ++ (scheme ++ rest) ++ J ")"),
          md_link (last_segment 47 (scheme ++ rest)) (scheme ++ rest)).
Proof.
  intros Hs Hne Hrest. unfold Legacy.match_empty_link.
  rewrite starts_with_app.
  change (skipn 3 (J "[](" ++ (scheme ++ rest) ++ J ")" ++ post))
    with ((scheme ++ rest) ++ J ")" ++ post).
  rewrite <- (app_assoc scheme rest).
  rewrite (scheme_len_app scheme _ Hs), skipn_length_app.
  change (J ")" ++ post) with (41 :: post).
  rewrite (span_len_all (fun x => negb (x =? 41)) rest (41 :: post)).
  - destruct (Nat.eqb (length rest) 0) eqn:E.
    + apply Nat.eqb_eq in E. destruct rest; [congruence | discriminate].
    + rewrite <- length_app, (app_assoc scheme rest (41 :: post)).
      rewrite skipn_length_app, firstn_length_app.
      do 2 f_equal.
      change (J "](") with [93; 40]. change (J ")") with [41].
      cbn [app length]. rewrite !length_app. cbn [length]. lia.
  - eapply Forall_impl; [exact Hrest|]. intros c Hc. cbn beta.
    apply negb_true_iff. now apply N.eqb_neq.
  - reflexivity.
Qed.

(** X19: [fixEmptyMarkdownLinks], which the copy in [cli.js] defines
    and never calls, gives a link with empty brackets the last segment
    of its address as label; the text before the link, when it has no
    opening bracket, is kept and the text behind it is processed in the
    same way.  The label has no slash, and it is empty again when the
    address ends with a slash: such a link is left without label. *)
Theorem fixEmptyMarkdownLinks_label (pre scheme rest post : list N) :
  Forall (fun c => c <> 91) pre ->
  scheme = J "http://" \/ scheme = J "https://" ->
  rest <> [] ->
  Forall (fun c => c <> 41) rest ->
  Legacy.fixEmptyMarkdownLinks (pre ++ J "[](" ++ (scheme ++ rest) ++ J ")" ++ post)
  = pre ++ md_link (last_segment 47 (scheme ++ rest)) (scheme ++ rest)
        ++ Legacy.fixEmptyMarkdownLinks post
  /\ Forall (fun c => c <> 47) (last_segment 47 (scheme ++ rest))
  /\ (forall r, rest = r ++ [47] -> last_segment 47 (scheme ++ rest) = []).
Proof.
  intros Hpre Hs Hne Hrest. split; [|split].
  - unfold Legacy.fixEmptyMarkdownLinks.
    rewrite (gsub_pass Legacy.match_empty_link (fun c => c =? 91) pre).
    + f_equal.
      assert (Heq : J "[](" ++ (scheme ++ rest) ++ J ")" ++ post
                    = 91 :: (J "](" ++ (scheme ++ rest) ++ J ")") ++ post).
      { change (J "[](") with [91; 93; 40]. change (J "](") with [93; 40].
        cbn [app]. now rewrite <- (app_assoc (scheme ++ rest) (J ")") post). }
      rewrite Heq. apply gsub_hit. rewrite <- Heq.
      now apply match_empty_link_hit.
    + intros c r Hc. now apply match_empty_link_not_bracket.
    + eapply Forall_impl; [exact Hpre|]. intros c Hc. cbn beta. now apply N.eqb_neq.
  - apply (last_segment_split 47).
  - intros r ->. unfold last_segment.
    rewrite (app_assoc scheme r [47]), split_on_snoc. apply last_last.
Qed.

Lemma fixEmptyMarkdownLinks_label_witness :
  Legacy.fixEmptyMarkdownLinks (J "see [](https://a.b/doc.pdf) and [](https://a.b/c/)")
  = J "see [doc.pdf](https://a.b/doc.pdf) and [](https://a.b/c/)".
Proof.
  etransitivity.
  - apply (proj1 (fixEmptyMarkdownLinks_label
                    (J "see ") (J "https://") (J "a.b/doc.pdf")
                    (J " and [](https://a.b/c/)")
                    ltac:(repeat constructor; discriminate) (or_intror eq_refl)
                    ltac:(discriminate) ltac:(repeat constructor; discriminate))).
  - vm_compute. reflexivity.
Defined.

End EmptyLinks.

(** ** The citations printed below a message *)

Section CitationBlocks.
Import Index Spec.




End CitationBlocks.
